(** * Sanger read QC: trimming, ambiguous base calling and QC metrics

    A shallow embedding of [sanger_qc_trim/trim.py],
    [sanger_qc_trim/ambiguous_calling.py] and [sanger_qc_trim/qc.py].

    Python integers are unbounded and are modelled by [Z]; list indices are
    Python integers too, so they are [Z] as well (the ends-clip search really
    uses [-1] as a sentinel).  A Python float is modelled by the rational
    number it denotes, in [Q].  In the classifier every float is obtained
    from integer data by a handful of additions and one division and is only
    compared with a threshold, and the arithmetic there is exact.  The QC
    metrics are reported rounded to two or four decimals, and which way a
    value rounds depends on the last bit of the double it is rounded from:
    there every operation rounds its exact result to the nearest binary64
    number, ties to even (module [Float]).  Overflow to infinity and NaN are
    left out.  The one transcendental operation, [10 ** (-q / 10)], is a
    parameter.  Strings are strings of ASCII characters, which is what a
    read is made of. *)

From Stdlib Require Import ZArith List String Ascii Bool Lia DecimalString.
From Stdlib Require Import QArith Qround Qabs Lqa Qpower.
Import ListNotations.

Local Open Scope Z_scope.

(** ** Python sequences *)

Module Py.

(** Exceptions raised by the modelled code. *)
Inductive exn : Type :=
| ValueError (msg : string).

(** [len(l)] as a Python integer. *)
Definition len {A : Type} (l : list A) : Z := Z.of_nat (List.length l).

(** Slice bounds are clamped the way CPython's [PySlice_AdjustIndices]
    does for step 1: a negative bound counts from the end, and both
    bounds are clipped into [0, len]. *)
Definition adjust (n i : Z) : Z :=
  if i <? 0 then Z.max 0 (i + n) else Z.min i n.

(** [l[s:e]] *)
Definition slice {A : Type} (l : list A) (s e : Z) : list A :=
  let n := len l in
  let s' := adjust n s in
  let e' := adjust n e in
  firstn (Z.to_nat (e' - s')) (skipn (Z.to_nat s') l).

(** [l[i]]: a negative index counts from the end; [None] stands for
    [IndexError]. *)
Definition index {A : Type} (l : list A) (i : Z) : option A :=
  let j := if i <? 0 then i + len l else i in
  if j <? 0 then None else nth_error l (Z.to_nat j).

(** [s[a:b]] on a [str]. *)
Definition str_slice (s : string) (a b : Z) : string :=
  string_of_list_ascii (slice (list_ascii_of_string s) a b).

(** [sum(l)] over integers. *)
Definition sum (l : list Z) : Z := fold_right Z.add 0 l.

(** [sum(w[:k])], the sum of the first [k] elements. *)
Definition prefix (w : list Z) (k : Z) : Z := sum (firstn (Z.to_nat k) w).

End Py.

(** ** trim.py *)

Module Trim.

(** The five loop variables of [trim_mott]. *)
Record mott_state : Type := MottState {
  max_sum : Z;
  cur_sum : Z;
  best_start : Z;
  best_end : Z;
  cur_start : Z
}.

Definition mott_init : mott_state := MottState 0 0 0 0 0.

(** One iteration of [for i, val in enumerate(weights)]. *)
Definition mott_step (st : mott_state) (i val : Z) : mott_state :=
  let cur := cur_sum st + val in
  if cur <=? 0 then
    MottState (max_sum st) 0 (best_start st) (best_end st) (i + 1)
  else if max_sum st <? cur then
    MottState cur cur (cur_start st) (i + 1) (cur_start st)
  else
    MottState (max_sum st) cur (best_start st) (best_end st) (cur_start st).

Fixpoint mott_loop (st : mott_state) (i : Z) (weights : list Z) : mott_state :=
  match weights with
  | [] => st
  | val :: rest => mott_loop (mott_step st i val) (i + 1) rest
  end.

Definition trim_mott (quals : list Z) (threshold : Z) : Z * Z :=
  match quals with
  | [] => (0, 0)
  | _ =>
      let weights := map (fun q => q - threshold) quals in
      let st := mott_loop mott_init 0 weights in
      (best_start st, best_end st)
  end.

(** [next((i for i, q in enumerate(quals) if q >= threshold), n)],
    started at index [i]. *)
Fixpoint first_at_least (i : Z) (quals : list Z) (threshold n : Z) : Z :=
  match quals with
  | [] => n
  | q :: rest =>
      if threshold <=? q then i
      else first_at_least (i + 1) rest threshold n
  end.

(** [next((i for i in range(n - 1, -1, -1) if quals[i] >= threshold), -1)]:
    [rquals] is the list read from its last element down, [i] the index of
    its head. *)
Fixpoint last_at_least (i : Z) (rquals : list Z) (threshold : Z) : Z :=
  match rquals with
  | [] => -1
  | q :: rest =>
      if threshold <=? q then i
      else last_at_least (i - 1) rest threshold
  end.

Definition trim_ends (quals : list Z) (threshold : Z) : Z * Z :=
  match quals with
  | [] => (0, 0)
  | _ =>
      let n := Py.len quals in
      let start := first_at_least 0 quals threshold n in
      let end_ := last_at_least (n - 1) (rev quals) threshold in
      if (n <=? start) || (end_ <? 0) || (end_ <? start) then (0, 0)
      else (start, end_ + 1)
  end.

Definition unknown_method (method : string) : Py.exn :=
  Py.ValueError ("Unknown trimming method: " ++ method).

Definition apply_trim (seq : string) (quals : list Z) (method : string)
    (threshold : Z) : Py.exn + (string * list Z * Z * Z) :=
  let range :=
    if String.eqb method "mott" then inr (trim_mott quals threshold)
    else if String.eqb method "ends" then inr (trim_ends quals threshold)
    else inl (unknown_method method) in
  match range with
  | inl e => inl e
  | inr (trim_start, trim_end) =>
      let trimmed_seq := Py.str_slice seq trim_start trim_end in
      let trimmed_quals := Py.slice quals trim_start trim_end in
      inr (trimmed_seq, trimmed_quals, trim_start, trim_end)
  end.

(** The score of the window [[s, e)]: the sum of [q - threshold] over it. *)
Definition window_score (quals : list Z) (threshold s e : Z) : Z :=
  Py.sum (map (fun q => q - threshold) (Py.slice quals s e)).

(** The loop invariant of [trim_mott] after [i] weights have been read;
    [pre k] is the sum of the first [k] weights, so [pre e - pre s] is the
    score of the window [[s, e)]. *)
Record mott_inv (pre : Z -> Z) (st : mott_state) (i : Z) : Prop := MottInv {
  inv_cur_bounds : 0 <= cur_start st <= i;
  inv_cur_sum : cur_sum st = pre i - pre (cur_start st);
  inv_cur_max : forall s, 0 <= s <= i -> pre i - pre s <= cur_sum st;
  inv_cur_strict :
    forall s, cur_start st < s <= i -> pre i - pre s < cur_sum st;
  inv_best_bounds : 0 <= best_start st <= best_end st /\ best_end st <= i;
  inv_best_sum : max_sum st = pre (best_end st) - pre (best_start st);
  inv_best_max :
    forall s e, 0 <= s <= e -> e <= i -> pre e - pre s <= max_sum st;
  inv_best_first :
    forall s e, 0 <= s <= e -> e <= i -> 0 < max_sum st ->
                pre e - pre s = max_sum st ->
                best_end st <= e /\ (e = best_end st -> s <= best_start st);
  inv_best_none : max_sum st = 0 -> best_start st = 0 /\ best_end st = 0
}.

End Trim.

(** ** Numeric helpers shared by the classifier and the QC metrics *)

Module Num.

Local Open Scope Q_scope.

(** [x < y] on floats, as a boolean. *)
Definition Qltb (x y : Q) : bool := negb (Qle_bool y x).

(** [np.sum] of a float array. *)
Definition qsum (l : list Q) : Q := fold_right Qplus 0 l.

(** Ascending insertion, the sort behind [np.median]. *)
Fixpoint insert_asc (x : Q) (l : list Q) : list Q :=
  match l with
  | [] => [x]
  | y :: rest => if Qle_bool x y then x :: y :: rest else y :: insert_asc x rest
  end.

Definition sort_asc (l : list Q) : list Q := fold_right insert_asc [] l.

(** [np.median]: the middle element of the sorted data, or the mean of the
    two middle elements when the length is even.  The callers guard the
    empty case. *)
Definition median (l : list Q) : Q :=
  let s := sort_asc l in
  let n := List.length s in
  let hi := nth (Nat.div n 2) s 0 in
  if Nat.even n then (nth (Nat.div n 2 - 1) s 0 + hi) / 2 else hi.

(** Round half to even, to an integer. *)
Definition round_half_even (x : Q) : Z :=
  let f := Qfloor x in
  let r := x - inject_Z f in
  if Qltb r (1 # 2) then f
  else if Qltb (1 # 2) r then (f + 1)%Z
  else if Z.even f then f else (f + 1)%Z.

End Num.

(** ** Binary64 arithmetic

    A double is the rational number it denotes.  [rnd] sends a rational to
    the nearest double, ties to the even significand: 53 significant bits,
    and no bit below 2^-1074 (the subnormal range).  Every float operation
    of Python and numpy is the exact operation followed by [rnd].  The
    exponent range has no upper end here: a result of 2^1024 or more, which
    Python turns into [inf] or an [OverflowError], is out of the model. *)

Module Float.
Import Num.

Local Open Scope Q_scope.

(** [2 ** e] for any integer [e]. *)
Definition pow2 (e : Z) : Q := 2 ^ e.

(** The exponent of a positive number: [2^e <= x < 2^(e+1)]. *)
Definition ilog2 (x : Q) : Z :=
  let e := (Z.log2 (Qnum x) - Z.log2 (Z.pos (Qden x)))%Z in
  if Qle_bool (pow2 e) x then e else (e - 1)%Z.

(** The exponent of the smallest positive double. *)
Definition emin : Z := -1074.

(** The exponent of the last bit a double near [x] has. *)
Definition quantum (x : Q) : Z := Z.max (ilog2 x - 52) emin.

(** The nearest double of a positive number. *)
Definition rnd_pos (x : Q) : Q :=
  let q := pow2 (quantum x) in
  inject_Z (round_half_even (x / q)) * q.

(** The nearest double, as a fraction in lowest terms. *)
Definition rnd (x : Q) : Q :=
  let y := Qred x in
  Qred match Qnum y with
       | Z0 => 0
       | Zpos _ => rnd_pos y
       | Zneg _ => - rnd_pos (- y)
       end.

(** Half an ulp, relative to a number of the normal range: 2^-53. *)
Definition unit_roundoff : Q := 1 # 9007199254740992.

(** [float(n)] for a Python integer, and the conversion numpy applies to an
    integer operand. *)
Definition of_int (n : Z) : Q := rnd (inject_Z n).

(** [x + y], [x * y], [x / y] on doubles; the callers guard the zero
    divisor. *)
Definition add (x y : Q) : Q := rnd (x + y).
Definition mul (x y : Q) : Q := rnd (x * y).
Definition div (x y : Q) : Q := rnd (x / y).

(** Python's [round(x, ndigits)] on a double, for a non-negative [ndigits]:
    the decimal with [ndigits] places nearest to the exact value of [x],
    ties to even, converted back to the nearest double. *)
Definition round (x : Q) (ndigits : Z) : Q :=
  let scale := inject_Z (10 ^ ndigits) in
  rnd (inject_Z (round_half_even (x * scale)) / scale).

(** numpy adds a contiguous float64 array up pairwise: fewer than 8
    elements in a plain loop, up to 128 elements with eight running sums
    that are combined at the end, and more than that split into two halves
    (the first a multiple of 8 long) that are summed the same way. *)

(** The loop [res += a[i]]. *)
Definition sum_loop (res : Q) (a : list Q) : Q := fold_left add a res.

(** [r[j] += a[i + j]] for the running sums. *)
Fixpoint add_each (r a : list Q) : list Q :=
  match r, a with
  | x :: r', y :: a' => add x y :: add_each r' a'
  | _, _ => r
  end.

(** The unrolled loop over [groups] whole groups of eight; what is left of
    the array is returned with the running sums. *)
Fixpoint unrolled (groups : nat) (r a : list Q) : list Q * list Q :=
  match groups with
  | O => (r, a)
  | S g => unrolled g (add_each r (firstn 8 a)) (skipn 8 a)
  end.

(** The recursion halves the array, so [fuel = len(a)] is never used up. *)
Fixpoint pairwise_sum (fuel : nat) (a : list Q) : Q :=
  let n := List.length a in
  if (n <? 8)%nat then sum_loop 0 a
  else if (n <=? 128)%nat then
    let '(r, rest) := unrolled (n / 8 - 1) (firstn 8 a) (skipn 8 a) in
    let r_ i := nth i r 0 in
    sum_loop (add (add (add (r_ 0%nat) (r_ 1%nat)) (add (r_ 2%nat) (r_ 3%nat)))
                  (add (add (r_ 4%nat) (r_ 5%nat)) (add (r_ 6%nat) (r_ 7%nat))))
             rest
  else
    match fuel with
    | O => 0
    | S fuel' =>
        let n2 := (n / 2 - (n / 2) mod 8)%nat in
        add (pairwise_sum fuel' (firstn n2 a))
            (pairwise_sum fuel' (skipn n2 a))
    end.

(** [np.sum] of a float array: the reduction starts from 0. *)
Definition np_sum (a : list Q) : Q := add 0 (pairwise_sum (List.length a) a).

(** [np.mean] of a non-empty float array. *)
Definition np_mean (a : list Q) : Q := div (np_sum a) (of_int (Py.len a)).

(** [np.mean] of a non-empty boolean array.  numpy adds the mask up in
    float64; the sum of zeros and ones is their count, exactly, for every
    array of fewer than 2^53 elements. *)
Definition np_mean_mask (mask : list bool) : Q :=
  div (of_int (Py.sum (map (fun b : bool => if b then 1 else 0)%Z mask)))
      (of_int (Py.len mask)).

(** [np.median] of a non-empty float array: numpy takes the mean of the
    middle element, or of the two middle elements, of the sorted data. *)
Definition np_median (a : list Q) : Q :=
  let s := sort_asc a in
  let n := List.length s in
  let hi := nth (Nat.div n 2) s 0 in
  if Nat.even n then np_mean [nth (Nat.div n 2 - 1) s 0; hi]
  else np_mean [hi].

End Float.

(** ** Strings of bases *)

Module Str.

(** [c.upper()] on an ASCII character. *)
Definition upper_ascii (c : ascii) : ascii :=
  let n := nat_of_ascii c in
  if (Nat.leb 97 n && Nat.leb n 122)%bool then ascii_of_nat (n - 32) else c.

(** [s.upper()] *)
Fixpoint upper (s : string) : string :=
  match s with
  | EmptyString => EmptyString
  | String c rest => String (upper_ascii c) (upper rest)
  end.

(** [s.count(c)] for a one-character needle. *)
Fixpoint count (c : ascii) (s : string) : Z :=
  match s with
  | EmptyString => 0
  | String d rest => (if Ascii.eqb d c then 1 else 0) + count c rest
  end.

(** [len(s)] *)
Definition len (s : string) : Z := Z.of_nat (String.length s).

(** [c * n] for a one-character string [c]. *)
Fixpoint times (c : ascii) (n : nat) : string :=
  match n with
  | O => EmptyString
  | S k => String c (times c k)
  end.

(** The one-character strings a [for base in sequence] loop yields. *)
Fixpoint chars (s : string) : list string :=
  match s with
  | EmptyString => []
  | String c rest => String c EmptyString :: chars rest
  end.

End Str.

(** ** ambiguous_calling.py *)

Module Calling.

Import Num.

(** [IUPAC_CODES]: each key is the [frozenset] of the two listed bases. *)
Definition IUPAC_CODES : list ((string * string) * string) :=
  [ (("A", "G"), "R"); (("C", "T"), "Y"); (("G", "C"), "S");
    (("A", "T"), "W"); (("G", "T"), "K"); (("A", "C"), "M") ]%string.

(** [frozenset([x, y]) == frozenset([a, b])] *)
Definition same_pair (x y a b : string) : bool :=
  (String.eqb x a && String.eqb y b) || (String.eqb x b && String.eqb y a).

Fixpoint lookup_pair (x y : string) (table : list ((string * string) * string))
    : option string :=
  match table with
  | [] => None
  | ((a, b), code) :: rest =>
      if same_pair x y a b then Some code else lookup_pair x y rest
  end.

Record AmbiguousCallingConfig : Type := Config {
  q_min_noise : Z;
  snr_min : Q;
  spr_noise_max : Q;
  spr_het_low : Q;
  spr_het_high : Q;
  spr_unbalanced : Q;
  q_confident : Z;
  q_ambig : Z;
  clonal_context : bool;
  peak_spacing_tolerance : Q;
  peak_window : Z
}.

(** The dataclass defaults. *)
Definition default_config : AmbiguousCallingConfig :=
  {| q_min_noise := 12;
     snr_min := 4;
     spr_noise_max := 20 # 100;
     spr_het_low := 33 # 100;
     spr_het_high := 67 # 100;
     spr_unbalanced := 85 # 100;
     q_confident := 30;
     q_ambig := 20;
     clonal_context := true;
     peak_spacing_tolerance := 20 # 100;
     peak_window := 3 |}.

Record BaseCall : Type := MkBaseCall {
  position : Z;
  called_base : string;
  primary_base : string;
  secondary_base : string;
  primary_intensity : Q;
  secondary_intensity : Q;
  spr : Q;
  snr : Q;
  quality : Z;
  call_mode : string;
  allele_fraction : Q;
  flags : list string
}.

(** The trace dictionary: the four channels and the peak locations.  A
    missing ['peak_locations'] key reads as the empty list, which is what
    [traces.get('peak_locations', [])] makes of it. *)
Record Traces : Type := MkTraces {
  trace_A : list Q;
  trace_C : list Q;
  trace_G : list Q;
  trace_T : list Q;
  peak_locations : list Z
}.

(** The channels in the order [for base in ['A', 'C', 'G', 'T']] visits
    them. *)
Definition channels (traces : Traces) : list (string * list Q) :=
  [ ("A"%string, trace_A traces); ("C"%string, trace_C traces);
    ("G"%string, trace_G traces); ("T"%string, trace_T traces) ].

(** [PeakIntensityExtractor.get_intensities_at_position]; the result is the
    dictionary in insertion order.  [None] is the [IndexError] of
    [peak_locations[position]]. *)
Definition get_intensities_at_position (traces : Traces) (position window : Z)
    : option (list (string * Q)) :=
  let locs := peak_locations traces in
  if (Py.len locs =? 0)%Z || (Py.len locs <=? position)%Z then
    Some [ ("A"%string, 0%Q); ("C"%string, 0%Q);
           ("G"%string, 0%Q); ("T"%string, 0%Q) ]
  else
    match Py.index locs position with
    | None => None
    | Some trace_pos =>
        Some (map (fun ch : string * list Q =>
                     let trace := snd ch in
                     let start := Z.max 0 (trace_pos - window) in
                     let end_ := Z.min (Py.len trace) (trace_pos + window + 1) in
                     (fst ch, qsum (Py.slice trace start end_)))
                  (channels traces))
    end.

(** Stable insertion for [sorted(..., key=lambda x: x[1], reverse=True)]:
    an item goes in front of the first item whose key is not larger. *)
Fixpoint insert_desc (x : string * Q) (l : list (string * Q))
    : list (string * Q) :=
  match l with
  | [] => [x]
  | y :: rest =>
      if Qltb (snd x) (snd y) then y :: insert_desc x rest
      else x :: y :: rest
  end.

Definition sorted_desc (l : list (string * Q)) : list (string * Q) :=
  fold_right insert_desc [] l.

(** [AmbiguousBaseCaller._calculate_snr] *)
Definition _calculate_snr (traces : Traces) (position : Z) (signal : Q)
    : option Q :=
  let locs := peak_locations traces in
  if (Py.len locs =? 0)%Z || (Py.len locs <=? position)%Z then Some 0%Q
  else
    match Py.index locs position with
    | None => None
    | Some trace_pos =>
        let noise_samples :=
          flat_map (fun ch : string * list Q =>
                      let trace := snd ch in
                      let before_start := Z.max 0 (trace_pos - 20) in
                      let before_end := Z.max 0 (trace_pos - 5) in
                      let after_start := Z.min (Py.len trace) (trace_pos + 5) in
                      let after_end := Z.min (Py.len trace) (trace_pos + 20) in
                      (if (before_start <? before_end)%Z
                       then Py.slice trace before_start before_end else [])
                      ++
                      (if (after_start <? after_end)%Z
                       then Py.slice trace after_start after_end else []))
                   (channels traces) in
        match noise_samples with
        | [] => Some 0%Q
        | _ =>
            let noise := median noise_samples in
            Some (if Qltb 0 noise then (signal / noise)%Q else 0%Q)
        end
    end.

(** [AmbiguousBaseCaller._get_iupac_code] *)
Definition _get_iupac_code (base1 base2 : string) : string :=
  match lookup_pair (Str.upper base1) (Str.upper base2) IUPAC_CODES with
  | Some code => code
  | None => "N"%string
  end.

(** The two bases [x] and [y] are the two bases [a] and [b], in either
    order.  This is the reading of "the two-base set {a, b}" in the
    nomenclature table of the specification; it is not used by the
    embedding of the code. *)
Definition two_base_set (x y a b : string) : Prop :=
  (x = a /\ y = b) \/ (x = b /\ y = a).

(** The allele fraction computed at the top of [_apply_calling_criteria]. *)
Definition allele_frac (H1 H2 : Q) : Q :=
  let total_signal := (H1 + H2)%Q in
  if Qltb 0 total_signal then (H1 / total_signal)%Q else 0%Q.

(** The guards of the six rules, as the source writes them. *)
Section Guards.
Variable cfg : AmbiguousCallingConfig.
Variables (spr_ snr_ : Q) (quality_ : Z).

Definition rule1 : bool :=
  (quality_ <? q_min_noise cfg)%Z || Qltb snr_ (snr_min cfg).
Definition rule2 : bool :=
  (q_confident cfg <=? quality_)%Z && Qltb spr_ (spr_noise_max cfg).
Definition rule3 : bool :=
  (Qle_bool (spr_noise_max cfg) spr_ && Qltb spr_ (spr_het_low cfg))
  && (q_ambig cfg <=? quality_)%Z.
Definition rule4 : bool :=
  (Qle_bool (spr_het_low cfg) spr_ && Qle_bool spr_ (spr_het_high cfg))
  && (q_ambig cfg <=? quality_)%Z
  && Qle_bool (snr_min cfg) snr_.
Definition rule5 : bool :=
  (Qltb (spr_het_high cfg) spr_ && Qltb spr_ (spr_unbalanced cfg))
  && (q_ambig cfg <=? quality_)%Z.
Definition rule6 : bool := Qle_bool (spr_unbalanced cfg) spr_.
End Guards.

(** [AmbiguousBaseCaller._apply_calling_criteria]; the result is
    [(called_base, call_mode, allele_fraction, flags)]. *)
Definition _apply_calling_criteria (cfg : AmbiguousCallingConfig)
    (b1 b2 : string) (H1 H2 spr_ snr_ : Q) (quality_ : Z)
    : string * string * Q * list string :=
  let allele := allele_frac H1 H2 in
  if rule1 cfg snr_ quality_ then
    ("N", "N", allele, ["low_quality"])%string
  else if rule2 cfg spr_ quality_ then
    (b1, "single"%string, allele, [])
  else if rule3 cfg spr_ quality_ then
    if clonal_context cfg then
      (b1, "single"%string, allele, ["minor_secondary"%string])
    else
      (_get_iupac_code b1 b2, "ambiguous"%string, allele, [])
  else if rule4 cfg spr_ snr_ quality_ then
    (_get_iupac_code b1 b2, "ambiguous"%string, allele,
     ["heterozygous"%string])
  else if rule5 cfg spr_ quality_ then
    if negb (clonal_context cfg) then
      (_get_iupac_code b1 b2, "ambiguous"%string, allele,
       ["unbalanced_mixture"%string])
    else
      (b1, "single"%string, allele, ["uncertain_mixture"%string])
  else if rule6 cfg spr_ then
    ("N", "N", allele, ["unclear_primary"])%string
  else
    (b1, "single"%string, allele, []).

(** The secondary-to-primary ratio of [_call_position]. *)
Definition spr_of (H1 H2 : Q) : Q :=
  if Qltb 0 H1 then (H2 / H1)%Q else 0%Q.

(** [AmbiguousBaseCaller._call_position] *)
Definition _call_position (cfg : AmbiguousCallingConfig) (position_ : Z)
    (original_base : string) (quality_ : Z) (traces : Traces)
    : option BaseCall :=
  match get_intensities_at_position traces position_ (peak_window cfg) with
  | None => None
  | Some intensities =>
      match sorted_desc intensities with
      | (b1, H1) :: (b2, H2) :: _ =>
          let spr_ := spr_of H1 H2 in
          match _calculate_snr traces position_ H1 with
          | None => None
          | Some snr_ =>
              let '(called, mode, allele, flags_) :=
                _apply_calling_criteria cfg b1 b2 H1 H2 spr_ snr_ quality_ in
              Some (MkBaseCall position_ called b1 b2 H1 H2 spr_ snr_
                               quality_ mode allele flags_)
          end
      | _ => None
      end
  end.

(** [qualities[pos] if pos < len(qualities) else 0] *)
Definition quality_at (qualities : list Z) (pos : Z) : option Z :=
  if (pos <? Py.len qualities)%Z then Py.index qualities pos else Some 0%Z.

(** The body of the loop of [AmbiguousBaseCaller._fallback_calling]: the
    call at position [pos] for the base [base] with quality [qual]. *)
Definition fallback_call (cfg : AmbiguousCallingConfig) (pos : Z)
    (base : string) (qual : Z) : BaseCall :=
  let '(called, mode, flags_) :=
    if (qual <? q_min_noise cfg)%Z then
      ("N", "N", ["low_quality"; "no_trace_data"])%string
    else if (q_confident cfg <=? qual)%Z then
      (base, "single"%string, ["no_trace_data"%string])
    else
      (base, "single"%string, ["moderate_quality"; "no_trace_data"]%string) in
  {| position := pos;
     called_base := called;
     primary_base := base;
     secondary_base := "N";
     primary_intensity := 0;
     secondary_intensity := 0;
     spr := 0;
     snr := 0;
     quality := qual;
     call_mode := mode;
     allele_fraction := 1;
     flags := flags_ |}.

(** [for pos, base in enumerate(sequence)], from position [pos] on. *)
Fixpoint fallback_from (cfg : AmbiguousCallingConfig) (pos : Z)
    (bases : list string) (qualities : list Z) : option (list BaseCall) :=
  match bases with
  | [] => Some []
  | base :: rest =>
      match quality_at qualities pos with
      | None => None
      | Some qual =>
          match fallback_from cfg (pos + 1) rest qualities with
          | None => None
          | Some calls => Some (fallback_call cfg pos base qual :: calls)
          end
      end
  end.

Definition _fallback_calling (cfg : AmbiguousCallingConfig)
    (sequence : string) (qualities : list Z) : option (list BaseCall) :=
  fallback_from cfg 0 (Str.chars sequence) qualities.

(** The loop of [call_bases] over [range(len(sequence))], from [pos] on. *)
Fixpoint call_from (cfg : AmbiguousCallingConfig) (traces : Traces)
    (pos : Z) (bases : list string) (qualities : list Z)
    : option (list BaseCall) :=
  match bases with
  | [] => Some []
  | base :: rest =>
      match quality_at qualities pos with
      | None => None
      | Some qual =>
          match _call_position cfg pos base qual traces with
          | None => None
          | Some bc =>
              match call_from cfg traces (pos + 1) rest qualities with
              | None => None
              | Some calls => Some (bc :: calls)
              end
          end
      end
  end.

(** In a list sorted by [insert_desc], intensities never increase. *)
Inductive descending : list (string * Q) -> Prop :=
| desc_nil : descending []
| desc_one (x : string * Q) : descending [x]
| desc_cons (x y : string * Q) (l : list (string * Q)) :
    (snd y <= snd x)%Q -> descending (y :: l) -> descending (x :: y :: l).

(** Trace bundles none of whose samples is negative. *)
Definition nonneg_samples (traces : Traces) : Prop :=
  Forall (fun ch : string * list Q => Forall (fun x => 0 <= x)%Q (snd ch))
         (channels traces).

(** The two ratios of a call lie where the data model wants them. *)
Definition ratios_bounded (bc : BaseCall) : Prop :=
  (0 <= allele_fraction bc <= 1)%Q /\
  (~ (0 < primary_intensity bc + secondary_intensity bc)%Q ->
   allele_fraction bc = 0%Q) /\
  ((0 < primary_intensity bc)%Q -> (0 <= spr bc <= 1)%Q) /\
  (~ (0 < primary_intensity bc)%Q -> spr bc = 0%Q).

(** [AmbiguousBaseCaller.call_bases]; the first argument is what
    [extract_traces] returned for the file. *)
Definition call_bases (cfg : AmbiguousCallingConfig)
    (extracted : option Traces) (sequence : string) (qualities : list Z)
    : option (list BaseCall) :=
  match extracted with
  | None => _fallback_calling cfg sequence qualities
  | Some traces => call_from cfg traces 0 (Str.chars sequence) qualities
  end.

End Calling.

(** ** qc.py *)

Module QC.

Import Num.
Import Float.

(** The dictionary [compute_qc_metrics] returns, one field per key. *)
Record QCMetrics : Type := MkQCMetrics {
  sample_id : string;
  source_file : string;
  format : string;
  raw_length : Z;
  mean_q : Q;
  median_q : Q;
  pct_q20 : Q;
  pct_q30 : Q;
  gc_percent : Q;
  n_count : Z;
  expected_errors : Q;
  hq_longest_stretch_len : Z;
  trim_start : Z;
  trim_end : Z;
  trimmed_length : Z;
  passed_minlen : string
}.

(** The loop of [_longest_hq_stretch] on [(max_len, current_len)]. *)
Fixpoint hq_loop (max_len current_len : Z) (quals : list Z) (threshold : Z)
    : Z :=
  match quals with
  | [] => max_len
  | q :: rest =>
      if (threshold <=? q)%Z then
        hq_loop (Z.max max_len (current_len + 1)) (current_len + 1)
                rest threshold
      else hq_loop max_len 0 rest threshold
  end.

Definition _longest_hq_stretch (quals : list Z) (threshold : Z) : Z :=
  match quals with
  | [] => 0
  | _ => hq_loop 0 0 quals threshold
  end.

(** [np.mean(q_array >= k)]: the mean of the boolean mask. *)
Definition fraction_at_least (k : Z) (q_array : list Q) : Q :=
  np_mean_mask (map (fun q => Qle_bool (of_int k) q) q_array).

(** The unrounded [gc_percent] local of [compute_qc_metrics]:
    [100.0 * gc_count / non_n_count], a product and a quotient of doubles. *)
Definition gc_percent_raw (seq : string) : Q :=
  let seq_upper := Str.upper seq in
  let gc_count := (Str.count "G" seq_upper + Str.count "C" seq_upper)%Z in
  let n_count_ := Str.count "N" seq_upper in
  let non_n_count := (Str.len seq - n_count_)%Z in
  if (0 <? non_n_count)%Z
  then div (mul 100 (of_int gc_count)) (of_int non_n_count)
  else 0%Q.

Section Metrics.

(** [phred_error q] stands for the double that numpy's power gives for
    [10 ** (-q / 10)]. *)
Variable phred_error : Q -> Q.

Definition compute_qc_metrics (sample_id_ source_file_ file_format seq : string)
    (quals : list Z) (trim_start_ trim_end_ qthreshold min_length : Z)
    : QCMetrics :=
  let q_array := map of_int quals in
  let raw_length_ := Str.len seq in
  let trimmed_length_ := (trim_end_ - trim_start_)%Z in
  let nonempty := (0 <? Py.len q_array)%Z in
  let mean_q_ := if nonempty then np_mean q_array else 0%Q in
  let median_q_ := if nonempty then np_median q_array else 0%Q in
  let pct_q20_ := if nonempty then fraction_at_least 20 q_array else 0%Q in
  let pct_q30_ := if nonempty then fraction_at_least 30 q_array else 0%Q in
  let seq_upper := Str.upper seq in
  let n_count_ := Str.count "N" seq_upper in
  let gc_percent_ := gc_percent_raw seq in
  let expected_errors_ :=
    if nonempty then np_sum (map phred_error q_array) else 0%Q in
  let hq := _longest_hq_stretch quals qthreshold in
  let passed :=
    if (min_length <=? trimmed_length_)%Z then "yes"%string
    else "no"%string in
  {| sample_id := sample_id_;
     source_file := source_file_;
     format := file_format;
     raw_length := raw_length_;
     mean_q := round mean_q_ 2;
     median_q := round median_q_ 2;
     pct_q20 := round pct_q20_ 4;
     pct_q30 := round pct_q30_ 4;
     gc_percent := round gc_percent_ 2;
     n_count := n_count_;
     expected_errors := round expected_errors_ 2;
     hq_longest_stretch_len := hq;
     trim_start := trim_start_;
     trim_end := trim_end_;
     trimmed_length := trimmed_length_;
     passed_minlen := passed |}.

End Metrics.

End QC.

(** ** Further invariants of the trimming loops *)

Module TrimInv.
Import Trim.

(** A second invariant of the loop of [trim_mott]: a running window and the
    best window, when not empty, start on a positive weight, and the best
    window also ends on one.  [wt k] is the weight at index [k]. *)
Record mott_ends_inv (wt : Z -> Z) (st : mott_state) (i : Z) : Prop :=
  MottEndsInv {
    ends_cur : cur_start st < i -> 0 < wt (cur_start st);
    ends_best :
      best_start st < best_end st ->
      0 < wt (best_start st) /\ 0 < wt (best_end st - 1)
  }.

End TrimInv.

(** ** qc.py: the batch summary *)

Module Summary.
Import Num Float QC.

(** The dictionary [compute_summary_stats] returns. *)
Record SummaryStats : Type := MkSummaryStats {
  total_reads : Z;
  mean_raw_length : Q;
  median_raw_length : Q;
  mean_trimmed_length : Q;
  median_trimmed_length : Q;
  mean_mean_q : Q;
  median_mean_q : Q;
  mean_pct_q20 : Q;
  mean_pct_q30 : Q;
  mean_gc_percent : Q;
  mean_expected_errors : Q;
  reads_passed_minlen : Z;
  reads_failed_minlen : Z;
  pct_passed : Q
}.

(** [sum(passed)] for a list of booleans. *)
Definition count_true (l : list bool) : Z :=
  Py.sum (map (fun b : bool => if b then 1 else 0)%Z l).

Definition compute_summary_stats (metrics_list : list QCMetrics)
    : SummaryStats :=
  match metrics_list with
  | [] => MkSummaryStats 0 0 0 0 0 0 0 0 0 0 0 0 0 0
  | _ =>
      let raw_lengths := map (fun m => of_int (raw_length m)) metrics_list in
      let trimmed_lengths :=
        map (fun m => of_int (trimmed_length m)) metrics_list in
      let mean_qs := map mean_q metrics_list in
      let pct_q20s := map pct_q20 metrics_list in
      let pct_q30s := map pct_q30 metrics_list in
      let gc_percents := map gc_percent metrics_list in
      let expected_errors_list := map expected_errors metrics_list in
      let passed :=
        map (fun m => String.eqb (passed_minlen m) "yes") metrics_list in
      let reads_passed := count_true passed in
      let reads_failed := (Py.len metrics_list - reads_passed)%Z in
      let pct_passed_ :=
        div (mul 100 (of_int reads_passed)) (of_int (Py.len metrics_list)) in
      {| total_reads := Py.len metrics_list;
         mean_raw_length := round (np_mean raw_lengths) 2;
         median_raw_length := round (np_median raw_lengths) 2;
         mean_trimmed_length := round (np_mean trimmed_lengths) 2;
         median_trimmed_length := round (np_median trimmed_lengths) 2;
         mean_mean_q := round (np_mean mean_qs) 2;
         median_mean_q := round (np_median mean_qs) 2;
         mean_pct_q20 := round (np_mean pct_q20s) 4;
         mean_pct_q30 := round (np_mean pct_q30s) 4;
         mean_gc_percent := round (np_mean gc_percents) 2;
         mean_expected_errors := round (np_mean expected_errors_list) 2;
         reads_passed_minlen := reads_passed;
         reads_failed_minlen := reads_failed;
         pct_passed := round pct_passed_ 2 |}
  end.

End Summary.

(** ** Runs of high-quality bases *)

Module QCInv.

(** Every base at a position of [[s, e)] has quality at least the
    threshold. *)
Definition hq_run (quals : list Z) (threshold : Z) (s e : nat) : Prop :=
  forall k, (s <= k < e)%nat ->
            exists q, nth_error quals k = Some q /\ threshold <= q.

(** The invariant of the loop of [_longest_hq_stretch] after [i] bases:
    [current_len] is the length of the run that ends at [i] and cannot be
    extended to the left, and [max_len] is the length of a longest run
    among the first [i] bases. *)
Record hq_inv (quals : list Z) (threshold : Z) (i : nat)
    (max_len current_len : Z) : Prop := HqInv {
  hq_bounds : 0 <= current_len <= max_len /\ max_len <= Z.of_nat i;
  hq_current : hq_run quals threshold (i - Z.to_nat current_len) i;
  hq_stop :
    forall q, current_len < Z.of_nat i ->
              nth_error quals (i - Z.to_nat current_len - 1) = Some q ->
              q < threshold;
  hq_attained :
    exists s, (s + Z.to_nat max_len <= i)%nat /\
              hq_run quals threshold s (s + Z.to_nat max_len);
  hq_maximal :
    forall s e, (s <= e <= i)%nat -> hq_run quals threshold s e ->
                Z.of_nat (e - s) <= max_len
}.

End QCInv.

(** ** ambiguous_calling.py: the sequence of a list of calls *)

Module Recall.
Import Calling.

(** [AmbiguousBaseCaller.base_calls_to_sequence] *)
Definition base_calls_to_sequence (base_calls : list BaseCall) : string :=
  String.concat "" (map called_base base_calls).

(** [create_ambiguous_caller]: the configuration of the caller it builds,
    the parameters it does not name keeping their defaults. *)
Definition create_ambiguous_caller (clonal : bool) (q_min_noise_ : Z)
    (snr_min_ spr_noise_max_ spr_het_low_ spr_het_high_ : Q)
    : AmbiguousCallingConfig :=
  {| q_min_noise := q_min_noise_;
     snr_min := snr_min_;
     spr_noise_max := spr_noise_max_;
     spr_het_low := spr_het_low_;
     spr_het_high := spr_het_high_;
     spr_unbalanced := spr_unbalanced default_config;
     q_confident := q_confident default_config;
     q_ambig := q_ambig default_config;
     clonal_context := clonal;
     peak_spacing_tolerance := peak_spacing_tolerance default_config;
     peak_window := peak_window default_config |}.

End Recall.

(** ** io_utils.py *)

Module IO.

(** [c.lower()] on an ASCII character. *)
Definition lower_ascii (c : ascii) : ascii :=
  let n := nat_of_ascii c in
  if (Nat.leb 65 n && Nat.leb n 90)%bool then ascii_of_nat (n + 32) else c.

(** [s.lower()] *)
Fixpoint lower (s : string) : string :=
  match s with
  | EmptyString => EmptyString
  | String c rest => String (lower_ascii c) (lower rest)
  end.

(** [s.endswith(t)] *)
Definition endswith (s t : string) : bool :=
  let ls := String.length s in
  let lt := String.length t in
  (Nat.leb lt ls && String.eqb (String.substring (ls - lt) lt s) t)%bool.

(** The attributes of a [pathlib.Path] that the module reads. *)
Record Path : Type := MkPath {
  name : string;
  suffix : string;
  stem : string
}.

(** [detect_format] *)
Definition detect_format (file_path : Path) : option string :=
  let suffix_ := lower (suffix file_path) in
  let name_ := lower (name file_path) in
  if String.eqb suffix_ ".ab1" then Some "ab1"%string
  else if endswith name_ ".phd.1" then Some "phd.1"%string
  else None.

(** [get_sample_id] *)
Definition get_sample_id (file_path : Path) : string :=
  let name_ := name file_path in
  if endswith (lower name_) ".phd.1" then Py.str_slice name_ 0 (-6)
  else stem file_path.

(** [str(n)] for an integer. *)
Definition str_of_int (n : Z) : string := NilZero.string_of_int (Z.to_int n).

(** [make_read_id] *)
Definition make_read_id (sample_id : string) (trim_start trim_end : Z)
    : string :=
  sample_id ++ "/trim:" ++ str_of_int trim_start ++ "-" ++ str_of_int trim_end.

(** [key in d] and [d[key]] on a dictionary kept as the list of its items
    in insertion order. *)
Fixpoint dict_get {V : Type} (key : string) (d : list (string * V))
    : option V :=
  match d with
  | [] => None
  | (k, v) :: rest => if String.eqb k key then Some v else dict_get key rest
  end.

(** [d[key] = value]: a present key keeps its place, a new key goes last. *)
Fixpoint dict_set {V : Type} (key : string) (value : V)
    (d : list (string * V)) : list (string * V) :=
  match d with
  | [] => [(key, value)]
  | (k, v) :: rest =>
      if String.eqb k key then (k, value) :: rest
      else (k, v) :: dict_set key value rest
  end.

(** One iteration of the deduplication loop of [discover_files]. *)
Definition dedup_step (seen_samples : list (string * (Path * string)))
    (file : Path * string) : list (string * (Path * string)) :=
  let '(file_path, fmt) := file in
  let sample_id := get_sample_id file_path in
  match dict_get sample_id seen_samples with
  | None => dict_set sample_id (file_path, fmt) seen_samples
  | Some (existing_path, existing_fmt) =>
      if (String.eqb fmt "ab1" && String.eqb existing_fmt "phd.1")%bool
      then dict_set sample_id (file_path, fmt) seen_samples
      else seen_samples
  end.

(** The second half of [discover_files]: [files] is the list the directory
    walk collected, the result is [list(seen_samples.values())]. *)
Definition deduplicate (files : list (Path * string)) : list (Path * string) :=
  map snd (fold_left dedup_step files []).

End IO.

(** ** cli.py: what the commands do with one parsed read *)

Module CLI.
Import Calling Recall QC Trim.

(** The ambiguous-calling block the three commands share: the recalled
    sequence, or the original one when calling is off, the file is not an
    AB1 file, or calling raised. *)
Definition recall_sequence (ambiguous_calling : bool)
    (cfg : AmbiguousCallingConfig) (file_format : string)
    (extracted : option Traces) (seq : string) (quals : list Z) : string :=
  if (ambiguous_calling && String.eqb file_format "ab1")%bool then
    match call_bases cfg extracted seq quals with
    | Some base_calls => base_calls_to_sequence base_calls
    | None => seq
    end
  else seq.

(** A record of [trimmed_sequences]. *)
Record TrimmedRead : Type := MkTrimmedRead {
  read_id : string;
  read_seq : string;
  read_quals : list Z
}.

Section Run.

Variable phred_error : Q -> Q.

(** The body of the loop of the [all] command for a read that parsed: the
    metrics appended to [metrics_list] and the record appended to
    [trimmed_sequences]. *)
Definition process_read (ambiguous_calling : bool)
    (cfg : AmbiguousCallingConfig) (method : string)
    (qthreshold min_length : Z) (file_path : IO.Path) (source : string)
    (file_format : string) (extracted : option Traces) (seq : string)
    (quals : list Z) : Py.exn + (QCMetrics * TrimmedRead) :=
  let sample := IO.get_sample_id file_path in
  let recalled_seq :=
    recall_sequence ambiguous_calling cfg file_format extracted seq quals in
  match apply_trim recalled_seq quals method qthreshold with
  | inl e => inl e
  | inr (trimmed_seq, trimmed_quals, trim_start_, trim_end_) =>
      let metrics :=
        compute_qc_metrics phred_error sample source file_format recalled_seq
          quals trim_start_ trim_end_ qthreshold min_length in
      inr (metrics,
           MkTrimmedRead (IO.make_read_id sample trim_start_ trim_end_)
                         trimmed_seq trimmed_quals)
  end.

End Run.

End CLI.

(** ** writers.py: the quality line of a FASTQ record *)

Module Writers.

(** [chr(n)] as a code point; outside [range(0x110000)] it raises. *)
Definition chr (n : Z) : Py.exn + Z :=
  if ((0 <=? n) && (n <=? 1114111))%bool then inr n
  else inl (Py.ValueError "chr() arg not in range(0x110000)").

(** ["".join(chr(q + 33) for q in quals)], as the list of the code points
    of the string. *)
Fixpoint qual_string (quals : list Z) : Py.exn + list Z :=
  match quals with
  | [] => inr []
  | q :: rest =>
      match chr (q + 33) with
      | inl e => inl e
      | inr c =>
          match qual_string rest with
          | inl e => inl e
          | inr cs => inr (c :: cs)
          end
      end
  end.

End Writers.

(** ** The deduplication loop of [discover_files] *)

Module IOInv.
Import IO.

(** The sample id of a discovered file. *)
Definition sample_of (file : Path * string) : string := get_sample_id (fst file).

(** The invariant of the loop after the files of [done]: [seen_samples]
    has one entry per sample id met so far, each entry is one of the files
    met under its own sample id, and an AB1 file met for a sample leaves
    an AB1 entry, as long as the formats are the two known ones. *)
Record dedup_inv (seen_samples : list (string * (Path * string)))
    (done : list (Path * string)) : Prop := DedupInv {
  dedup_nodup : NoDup (map fst seen_samples);
  dedup_sound :
    forall k v, In (k, v) seen_samples -> k = sample_of v /\ In v done;
  dedup_complete :
    forall f, In f done -> exists v, dict_get (sample_of f) seen_samples = Some v;
  dedup_prefers :
    (forall f, In f done -> snd f = "ab1"%string \/ snd f = "phd.1"%string) ->
    forall f v, In f done -> snd f = "ab1"%string ->
                dict_get (sample_of f) seen_samples = Some v ->
                snd v = "ab1"%string
}.

End IOInv.

(** ** Clean baselines *)

Module Baseline.

(** A channel is flat away from the peak at [trace_pos]: every sample five
    or more places from it reads zero. *)
Definition flat_flanks (trace : list Q) (trace_pos : Z) : Prop :=
  forall i x,
    nth_error trace i = Some x ->
    (Z.of_nat i <= trace_pos - 5 \/ trace_pos + 5 <= Z.of_nat i)%Z ->
    (x == 0)%Q.

End Baseline.

(** ** Unit tests of the repository, replayed on the embedding *)

Module TrimTests.
Import Trim.

Example test_basic_trimming :
  trim_mott [10; 10; 30; 30; 30; 10] 20 = (2, 5).
Proof. reflexivity. Qed.

Example test_mixed_quality :
  trim_mott [30; 30; 10; 10; 35; 35; 35] 20 = (4, 7).
Proof. reflexivity. Qed.

Example test_boundary_quality : trim_mott [20; 20; 20] 20 = (0, 0).
Proof. reflexivity. Qed.

Example test_q20_threshold : trim_mott [20; 20; 10; 30] 20 = (3, 4).
Proof. reflexivity. Qed.

Example test_ends_basic : trim_ends [15; 25; 25; 15] 20 = (1, 3).
Proof. reflexivity. Qed.

Example test_ends_all_low : trim_ends [10; 10; 10; 10] 20 = (0, 0).
Proof. reflexivity. Qed.

Example test_middle_bases_low : trim_ends [30; 10; 10; 30] 20 = (0, 4).
Proof. reflexivity. Qed.

Example test_apply_mott :
  apply_trim "ACGTACGT" [10; 10; 30; 30; 30; 10; 10; 10] "mott" 20
  = inr ("GTA"%string, [30; 30; 30], 2, 5).
Proof. reflexivity. Qed.

Example test_apply_ends :
  apply_trim "ACGT" [15; 25; 25; 15] "ends" 20
  = inr ("CG"%string, [25; 25], 1, 3).
Proof. reflexivity. Qed.

Example test_invalid_method :
  apply_trim "ACGT" [20; 20; 20; 20] "invalid" 20
  = inl (Py.ValueError "Unknown trimming method: invalid").
Proof. reflexivity. Qed.

End TrimTests.

(** ** Facts about slices and prefix sums *)

Module PyFacts.

Import Py.

Lemma sum_app (a b : list Z) : Py.sum (a ++ b) = Py.sum a + Py.sum b.
Proof. induction a as [|x a IH]; simpl; [reflexivity | rewrite IH; lia]. Qed.

Lemma len_nonneg {A : Type} (l : list A) : 0 <= Py.len l.
Proof. unfold Py.len. lia. Qed.

Lemma len_app {A : Type} (a b : list A) : Py.len (a ++ b) = Py.len a + Py.len b.
Proof. unfold Py.len. rewrite length_app. lia. Qed.

Lemma len_map {A B : Type} (f : A -> B) (l : list A) : Py.len (map f l) = Py.len l.
Proof. unfold Py.len. now rewrite length_map. Qed.

Lemma prefix_0 (w : list Z) : prefix w 0 = 0.
Proof. reflexivity. Qed.

(** Reading one more element extends the prefix sum by it. *)
Lemma prefix_snoc (done rest : list Z) (v : Z) :
  prefix (done ++ v :: rest) (Py.len done + 1)
  = prefix (done ++ v :: rest) (Py.len done) + v.
Proof.
  unfold prefix, Py.len.
  replace (Z.to_nat (Z.of_nat (List.length done) + 1))
    with (List.length done + 1)%nat by lia.
  rewrite Nat2Z.id.
  rewrite !firstn_app.
  rewrite !firstn_all2 by lia.
  replace (List.length done + 1 - List.length done)%nat with 1%nat by lia.
  rewrite Nat.sub_diag. simpl.
  rewrite firstn_all, !sum_app. simpl. lia.
Qed.

(** Inside the list, a slice is the plain segment. *)
Lemma slice_in_range {A : Type} (l : list A) (s e : Z) :
  0 <= s <= e -> e <= Py.len l ->
  Py.slice l s e = firstn (Z.to_nat (e - s)) (skipn (Z.to_nat s) l).
Proof.
  intros Hs He. unfold Py.slice, Py.adjust.
  destruct (Z.ltb_spec s 0); [lia|].
  destruct (Z.ltb_spec e 0); [lia|].
  rewrite !Z.min_l by lia. reflexivity.
Qed.

(** The sum over a segment is a difference of prefix sums. *)
Lemma sum_segment (w : list Z) (s e : Z) :
  0 <= s <= e -> e <= Py.len w ->
  Py.sum (firstn (Z.to_nat (e - s)) (skipn (Z.to_nat s) w))
  = prefix w e - prefix w s.
Proof.
  intros Hs He. unfold prefix.
  rewrite <- (firstn_skipn (Z.to_nat s) w) at 2.
  replace (Z.to_nat e) with (Z.to_nat s + Z.to_nat (e - s))%nat by lia.
  assert (Hlen : List.length (firstn (Z.to_nat s) w) = Z.to_nat s).
  { rewrite length_firstn. unfold Py.len in He. lia. }
  rewrite firstn_app, Hlen.
  replace (Z.to_nat s + Z.to_nat (e - s) - Z.to_nat s)%nat
    with (Z.to_nat (e - s)) by lia.
  rewrite (firstn_all2 (n := (Z.to_nat s + Z.to_nat (e - s))%nat)) by lia.
  rewrite sum_app. lia.
Qed.

Lemma slice_map {A B : Type} (f : A -> B) (l : list A) (s e : Z) :
  Py.slice (map f l) s e = map f (Py.slice l s e).
Proof.
  unfold Py.slice. rewrite len_map. cbv zeta.
  now rewrite skipn_map, firstn_map.
Qed.

(** Every slice is a window with bounds inside the list. *)
Lemma slice_normal {A : Type} (l : list A) (s e : Z) :
  exists s' e', 0 <= s' <= e' /\ e' <= Py.len l /\
                Py.slice l s e = Py.slice l s' e'.
Proof.
  pose proof (len_nonneg l) as Hn.
  set (a := Py.adjust (Py.len l) s).
  set (b := Py.adjust (Py.len l) e).
  assert (Ha : 0 <= a <= Py.len l).
  { unfold a, Py.adjust. destruct (Z.ltb_spec s 0); lia. }
  assert (Hb : 0 <= b <= Py.len l).
  { unfold b, Py.adjust. destruct (Z.ltb_spec e 0); lia. }
  destruct (Z.le_gt_cases a b) as [Hab|Hab].
  - exists a, b. repeat split; try lia.
    rewrite (slice_in_range l a b) by lia. reflexivity.
  - exists 0, 0. repeat split; try lia.
    rewrite (slice_in_range l 0 0) by lia.
    unfold Py.slice. fold a b.
    replace (Z.to_nat (b - a)) with 0%nat by lia. reflexivity.
Qed.

End PyFacts.

(** ** The maximum-score window *)

Module MottFacts.
Import Trim PyFacts.

Lemma mott_inv_init (pre : Z -> Z) : mott_inv pre mott_init 0.
Proof.
  constructor; simpl; intros; try lia.
  - assert (s = 0) by lia. subst. lia.
  - assert (s = 0) by lia. assert (e = 0) by lia. subst. lia.
Qed.

(** One iteration preserves the invariant. *)
Lemma mott_inv_step (pre : Z -> Z) (st : mott_state) (i val : Z) :
  0 <= i -> pre (i + 1) = pre i + val ->
  mott_inv pre st i -> mott_inv pre (mott_step st i val) (i + 1).
Proof.
  intros Hi Hpre [Hcb Hcs Hcm Hcst Hbb Hbs Hbm Hbf Hbn].
  assert (Hle : cur_sum st <= max_sum st).
  { rewrite Hcs. apply Hbm; lia. }
  assert (Hmax0 : 0 <= max_sum st).
  { specialize (Hbm 0 0 ltac:(lia) ltac:(lia)). lia. }
  assert (Hcur0 : 0 <= cur_sum st).
  { specialize (Hcm i ltac:(lia)). lia. }
  assert (Hnew : forall s, 0 <= s <= i + 1 ->
                           pre (i + 1) - pre s <= Z.max 0 (cur_sum st + val)).
  { intros s Hs. destruct (Z.eq_dec s (i + 1)) as [->|Hne]; [lia|].
    specialize (Hcm s ltac:(lia)). lia. }
  unfold mott_step.
  destruct (Z.leb_spec (cur_sum st + val) 0) as [Hreset|Hpos];
    [|destruct (Z.ltb_spec (max_sum st) (cur_sum st + val)) as [Hbetter|Hsame]];
    constructor; simpl; intros; try lia; auto;
    try (destruct (Z.eq_dec e (i + 1)) as [->|He]);
    try (destruct (Z.eq_dec s (i + 1)) as [->|Hs]);
    try (pose proof (Hnew s); pose proof (Hcm s); pose proof (Hcst s));
    try (pose proof (Hbm s e); pose proof (Hbf s e));
    try (pose proof (Hbm s (i + 1)); pose proof (Hbf s (i + 1)));
    try (pose proof (Hnew (i + 1)));
    lia.
Qed.

(** The loop establishes the invariant for the whole list. *)
Lemma mott_inv_loop (w : list Z) :
  forall (rest done : list Z) (st : mott_state),
    w = done ++ rest ->
    mott_inv (Py.prefix w) st (Py.len done) ->
    mott_inv (Py.prefix w) (mott_loop st (Py.len done) rest) (Py.len w).
Proof.
  induction rest as [|v rest IH]; intros done st Hw Hinv; simpl.
  - rewrite app_nil_r in Hw. subst done. exact Hinv.
  - replace (Py.len done + 1) with (Py.len (done ++ [v])).
    2:{ rewrite len_app. reflexivity. }
    apply IH.
    + rewrite <- app_assoc. exact Hw.
    + rewrite len_app. change (Py.len [v]) with 1.
      apply mott_inv_step; [apply len_nonneg | | exact Hinv].
      subst w. apply prefix_snoc.
Qed.

Lemma window_score_prefix (quals : list Z) (threshold s e : Z) :
  0 <= s <= e -> e <= Py.len quals ->
  window_score quals threshold s e
  = Py.prefix (map (fun q => q - threshold) quals) e
    - Py.prefix (map (fun q => q - threshold) quals) s.
Proof.
  intros Hs He. unfold window_score.
  rewrite <- slice_map.
  rewrite slice_in_range by (rewrite ?len_map; lia).
  apply sum_segment; rewrite ?len_map; lia.
Qed.

(** What [trim_mott] returns, in terms of the invariant. *)
Lemma trim_mott_inv (quals : list Z) (threshold : Z) :
  exists st,
    trim_mott quals threshold = (best_start st, best_end st) /\
    mott_inv (Py.prefix (map (fun q => q - threshold) quals)) st (Py.len quals).
Proof.
  destruct quals as [|q quals].
  - exists mott_init. split; [reflexivity|]. apply mott_inv_init.
  - exists (mott_loop mott_init 0 (map (fun q => q - threshold) (q :: quals))).
    split; [reflexivity|].
    rewrite <- (len_map (fun q => q - threshold)).
    apply (mott_inv_loop _ _ []); [reflexivity | apply mott_inv_init].
Qed.

End MottFacts.

Module MottSpec.
Import Trim PyFacts MottFacts.

(** C1.  The window [trim_mott] returns scores at least as much as every
    slice [quals[s:e]] of the vector.  When its score is positive it is the
    first maximal window the scan meets: no window with the same score ends
    earlier, and of those ending with it none is shorter, so a later window
    with an equal score never replaces it.  If no window has a positive
    score, or the vector is empty, the result is [(0, 0)]. *)
Theorem trim_mott_max_window (quals : list Z) (threshold bs be : Z) :
  trim_mott quals threshold = (bs, be) ->
  (0 <= bs <= be /\ be <= Py.len quals) /\
  (forall s e,
      window_score quals threshold s e <= window_score quals threshold bs be) /\
  (forall s e,
      0 <= s <= e -> e <= Py.len quals ->
      0 < window_score quals threshold s e ->
      window_score quals threshold s e = window_score quals threshold bs be ->
      be <= e /\ (e = be -> s <= bs)) /\
  ((forall s e, 0 <= s <= e -> e <= Py.len quals ->
                window_score quals threshold s e <= 0) ->
   (bs, be) = (0, 0)) /\
  (quals = [] -> (bs, be) = (0, 0)).
Proof.
  intros Hres.
  destruct (trim_mott_inv quals threshold) as (st & Hst & Hinv).
  rewrite Hres in Hst. injection Hst as -> ->.
  destruct Hinv as [Hcb Hcs Hcm Hcst Hbb Hbs Hbm Hbf Hbn].
  assert (Hbest : window_score quals threshold (best_start st) (best_end st)
                  = max_sum st).
  { rewrite window_score_prefix by lia. symmetry. exact Hbs. }
  assert (Hin : forall s e, 0 <= s <= e -> e <= Py.len quals ->
                            window_score quals threshold s e <= max_sum st).
  { intros s e Hs He. rewrite window_score_prefix by lia. now apply Hbm. }
  split; [lia|]. split; [|split; [|split]].
  - intros s e. rewrite Hbest.
    destruct (slice_normal quals s e) as (s' & e' & Hs' & He' & Heq).
    unfold window_score at 1. rewrite Heq. now apply Hin.
  - intros s e Hs He Hpos Heq. rewrite Hbest in Heq.
    apply Hbf; try lia. rewrite <- window_score_prefix by lia. exact Heq.
  - intros Hnone.
    pose proof (Hnone (best_start st) (best_end st) ltac:(lia) ltac:(lia)) as Hle.
    pose proof (Hbm 0 0 ltac:(lia) ltac:(lia)) as Hge.
    destruct Hbn as [-> ->]; [lia | reflexivity].
  - intros ->. simpl in Hres. now inversion Hres.
Qed.

(** The theorem at the repository's first unit test. *)
Lemma trim_mott_max_window_witness :
  trim_mott [10; 10; 30; 30; 30; 10] 20 = (2, 5) /\
  (forall s e,
      window_score [10; 10; 30; 30; 30; 10] 20 s e
      <= window_score [10; 10; 30; 30; 30; 10] 20 2 5).
Proof.
  split; [reflexivity|].
  exact (proj1 (proj2 (trim_mott_max_window
                         [10; 10; 30; 30; 30; 10] 20 2 5 eq_refl))).
Defined.

End MottSpec.

(** ** Clipping the ends *)

Module EndsFacts.
Import Trim PyFacts.

Lemma index_nonneg {A : Type} (l : list A) (i : Z) :
  0 <= i -> Py.index l i = nth_error l (Z.to_nat i).
Proof.
  intros Hi. unfold Py.index.
  destruct (Z.ltb_spec i 0); [lia|].
  destruct (Z.ltb_spec i 0); [lia|reflexivity].
Qed.

(** The forward search stops at the first qualifying element. *)
Lemma first_at_least_spec (threshold n : Z) (l : list Z) :
  forall i,
    (first_at_least i l threshold n = n /\
     forall k q, nth_error l k = Some q -> q < threshold)
    \/
    (exists k q,
        first_at_least i l threshold n = i + Z.of_nat k /\
        nth_error l k = Some q /\ threshold <= q /\
        forall j q', (j < k)%nat -> nth_error l j = Some q' -> q' < threshold).
Proof.
  induction l as [|x l IH]; intros i; simpl.
  - left. split; [reflexivity|]. intros [|k] q H; discriminate.
  - destruct (Z.leb_spec threshold x) as [Hx|Hx].
    + right. exists 0%nat, x. repeat split; intros; try lia; reflexivity.
    + destruct (IH (i + 1)) as [[Hr Hall]|(k & q & Hr & Hk & Hq & Hbelow)].
      * left. split; [exact Hr|].
        intros [|k] q H; simpl in H; [inversion H; lia | eauto].
      * right. exists (S k), q. repeat split; try assumption; try lia.
        intros [|j] q' Hj H; simpl in H; [inversion H; lia|].
        apply (Hbelow j); [lia | exact H].
Qed.

(** The backward search, on the list read from its end. *)
Lemma last_at_least_spec (threshold : Z) (l : list Z) :
  forall i,
    (last_at_least i l threshold = -1 /\
     forall k q, nth_error l k = Some q -> q < threshold)
    \/
    (exists k q,
        last_at_least i l threshold = i - Z.of_nat k /\
        nth_error l k = Some q /\ threshold <= q /\
        forall j q', (j < k)%nat -> nth_error l j = Some q' -> q' < threshold).
Proof.
  induction l as [|x l IH]; intros i; simpl.
  - left. split; [reflexivity|]. intros [|k] q H; discriminate.
  - destruct (Z.leb_spec threshold x) as [Hx|Hx].
    + right. exists 0%nat, x. repeat split; intros; try lia; reflexivity.
    + destruct (IH (i - 1)) as [[Hr Hall]|(k & q & Hr & Hk & Hq & Hbelow)].
      * left. split; [exact Hr|].
        intros [|k] q H; simpl in H; [inversion H; lia | eauto].
      * right. exists (S k), q. repeat split; try assumption; try lia.
        intros [|j] q' Hj H; simpl in H; [inversion H; lia|].
        apply (Hbelow j); [lia | exact H].
Qed.

(** An element of a slice is the element of the list at the shifted
    index. *)
Lemma index_slice {A : Type} (l : list A) (s e k : Z) :
  0 <= s <= e -> e <= Py.len l -> 0 <= k < e - s ->
  Py.index (Py.slice l s e) k = Py.index l (s + k).
Proof.
  intros Hs He Hk.
  rewrite slice_in_range, !index_nonneg by lia.
  rewrite nth_error_firstn, nth_error_skipn.
  destruct (Nat.ltb_spec (Z.to_nat k) (Z.to_nat (e - s))); [|lia].
  f_equal. lia.
Qed.

Lemma len_slice {A : Type} (l : list A) (s e : Z) :
  0 <= s <= e -> e <= Py.len l -> Py.len (Py.slice l s e) = e - s.
Proof.
  intros Hs He. rewrite slice_in_range by lia.
  unfold Py.len in *. rewrite length_firstn, length_skipn. lia.
Qed.

(** Either nothing qualifies and the result is [(0, 0)], or the result runs
    from the first to the last qualifying index. *)
Lemma trim_ends_cases (quals : list Z) (threshold : Z) :
  (trim_ends quals threshold = (0, 0) /\
   forall k q, nth_error quals k = Some q -> q < threshold)
  \/
  (exists (a b : nat) (qa qb : Z),
      trim_ends quals threshold = (Z.of_nat a, Z.of_nat b + 1) /\
      (a <= b < List.length quals)%nat /\
      nth_error quals a = Some qa /\ threshold <= qa /\
      nth_error quals b = Some qb /\ threshold <= qb /\
      (forall j q, (j < a)%nat -> nth_error quals j = Some q -> q < threshold) /\
      (forall j q, (b < j)%nat -> nth_error quals j = Some q -> q < threshold)).
Proof.
  destruct quals as [|x quals].
  { left. split; [reflexivity|]. intros [|k] q H; discriminate. }
  set (l := x :: quals).
  assert (Hn : Py.len l = Z.of_nat (List.length l)) by reflexivity.
  unfold trim_ends. fold l.
  destruct (first_at_least_spec threshold (Py.len l) l 0)
    as [[Hf Hall]|(a & qa & Hf & Ha & Hqa & Hbefore)].
  - left. split; [|exact Hall].
    rewrite Hf, (proj2 (Z.leb_le _ _)) by lia. reflexivity.
  - right.
    assert (Halt : (a < List.length l)%nat).
    { apply nth_error_Some. congruence. }
    destruct (last_at_least_spec threshold (rev l) (Py.len l - 1))
      as [[_ Hall]|(k & qb & Hl & Hk & Hqb & Hafter)].
    + exfalso.
      assert (Hin : In qa (rev l)).
      { apply in_rev. rewrite rev_involutive. eapply nth_error_In; eauto. }
      apply In_nth_error in Hin. destruct Hin as [m Hm].
      specialize (Hall m qa Hm). lia.
    + rewrite nth_error_rev in Hk.
      destruct (Nat.ltb_spec k (List.length l)) as [Hklt|]; [|discriminate].
      set (b := (List.length l - S k)%nat) in *.
      assert (Hab : (a <= b)%nat).
      { destruct (Nat.le_gt_cases a b) as [|Hgt]; [assumption|exfalso].
        assert (Hm : nth_error (rev l) (List.length l - S a) = Some qa).
        { rewrite nth_error_rev.
          destruct (Nat.ltb_spec (List.length l - S a) (List.length l)); [|lia].
          replace (List.length l - S (List.length l - S a))%nat with a by lia.
          exact Ha. }
        specialize (Hafter (List.length l - S a)%nat qa
                            ltac:(unfold b in Hgt; lia) Hm). lia. }
      exists a, b, qa, qb.
      rewrite Hf, Hl.
      replace (0 + Z.of_nat a) with (Z.of_nat a) by lia.
      replace (Py.len l - 1 - Z.of_nat k) with (Z.of_nat b) by (unfold b; lia).
      destruct (Z.leb_spec (Py.len l) (Z.of_nat a)); [lia|].
      destruct (Z.ltb_spec (Z.of_nat b) 0); [lia|].
      destruct (Z.ltb_spec (Z.of_nat b) (Z.of_nat a)); [lia|].
      simpl orb. cbv iota.
      repeat split; try assumption; try lia.
      intros j q Hj Hq.
        assert (Hjlt : (j < List.length l)%nat).
        { apply nth_error_Some. congruence. }
        apply (Hafter (List.length l - S j)%nat q); [unfold b in Hj; lia|].
        rewrite nth_error_rev.
        destruct (Nat.ltb_spec (List.length l - S j) (List.length l)); [|lia].
        replace (List.length l - S (List.length l - S j))%nat with j by lia.
        exact Hq.
Qed.

End EndsFacts.

Module EndsSpec.
Import Trim PyFacts EndsFacts.

(** C7.  For the range [(s, e)] that [trim_ends] returns: when it is not
    empty, its first and last bases have quality at least the threshold; no
    position before [s] or from [e] on has quality at least the threshold;
    every position of [[s, e)] is kept in the slice, whatever its quality;
    and if no base reaches the threshold the result is [(0, 0)]. *)
Theorem trim_ends_clips_flanks (quals : list Z) (threshold s e : Z) :
  trim_ends quals threshold = (s, e) ->
  (0 <= s <= e /\ e <= Py.len quals) /\
  (s < e ->
   exists qs qe,
     Py.index quals s = Some qs /\ threshold <= qs /\
     Py.index quals (e - 1) = Some qe /\ threshold <= qe) /\
  (forall i q, 0 <= i -> Py.index quals i = Some q -> threshold <= q ->
               s <= i < e) /\
  (Py.len (Py.slice quals s e) = e - s /\
   forall k, 0 <= k < e - s ->
             Py.index (Py.slice quals s e) k = Py.index quals (s + k)) /\
  ((forall i q, 0 <= i -> Py.index quals i = Some q -> q < threshold) ->
   (s, e) = (0, 0)).
Proof.
  intros Hres.
  pose proof (len_nonneg quals) as Hlen.
  destruct (trim_ends_cases quals threshold)
    as [[H0 Hall]|(a & b & qa & qb & Hab & Hrange & Ha & Hqa & Hb & Hqb
                   & Hbefore & Hafter)].
  - rewrite H0 in Hres. injection Hres as <- <-.
    split; [lia|]. split; [lia|]. split; [|split].
    + intros i q Hi Hq Hge. rewrite index_nonneg in Hq by lia.
      specialize (Hall _ _ Hq). lia.
    + split; [apply len_slice; lia | intros k Hk; lia].
    + reflexivity.
  - rewrite Hab in Hres. injection Hres as <- <-.
    assert (Hbound : Z.of_nat b + 1 <= Py.len quals) by (unfold Py.len; lia).
    split; [lia|]. split; [|split; [|split]].
    + intros _. exists qa, qb.
      rewrite !index_nonneg by lia.
      replace (Z.to_nat (Z.of_nat b + 1 - 1)) with b by lia.
      rewrite Nat2Z.id. auto.
    + intros i q Hi Hq Hge. rewrite index_nonneg in Hq by lia.
      destruct (Z.lt_ge_cases i (Z.of_nat a)) as [Hlt|Hge1].
      { specialize (Hbefore (Z.to_nat i) q ltac:(lia) Hq). lia. }
      destruct (Z.lt_ge_cases (Z.of_nat b) i) as [Hgt|Hle].
      { specialize (Hafter (Z.to_nat i) q ltac:(lia) Hq). lia. }
      lia.
    + split; [apply len_slice; lia|].
      intros k Hk. apply index_slice; lia.
    + intros Hnone. exfalso.
      specialize (Hnone (Z.of_nat a) qa ltac:(lia)).
      rewrite index_nonneg, Nat2Z.id in Hnone by lia.
      specialize (Hnone Ha). lia.
Qed.

(** The theorem on a read whose two low bases lie between good ends. *)
Lemma trim_ends_clips_flanks_witness :
  trim_ends [15; 30; 10; 10; 30; 15] 20 = (1, 5) /\
  Py.slice [15; 30; 10; 10; 30; 15] 1 5 = [30; 10; 10; 30] /\
  (forall i q, 0 <= i -> Py.index [15; 30; 10; 10; 30; 15] i = Some q ->
               20 <= q -> 1 <= i < 5).
Proof.
  split; [reflexivity|]. split; [reflexivity|].
  exact (proj1 (proj2 (proj2 (trim_ends_clips_flanks
                                 [15; 30; 10; 10; 30; 15] 20 1 5 eq_refl)))).
Defined.

End EndsSpec.

(** ** Dispatch and slicing *)

Module ApplyFacts.
Import Trim PyFacts EndsFacts MottFacts.

Lemma len_string_of_list (l : list ascii) :
  Str.len (string_of_list_ascii l) = Py.len l.
Proof.
  unfold Str.len, Py.len. f_equal.
  induction l as [|c l IH]; simpl; [reflexivity | now rewrite IH].
Qed.

Lemma len_list_of_string (s : string) :
  Py.len (list_ascii_of_string s) = Str.len s.
Proof.
  unfold Str.len, Py.len. f_equal.
  induction s as [|c s IH]; simpl; [reflexivity | now rewrite IH].
Qed.

(** The length of a slice with ordered non-negative bounds: both bounds
    are clipped to the length of the list. *)
Lemma len_slice_clipped {A : Type} (l : list A) (s e : Z) :
  0 <= s <= e ->
  Py.len (Py.slice l s e) = Z.min e (Py.len l) - Z.min s (Py.len l).
Proof.
  intros Hs. unfold Py.slice, Py.adjust.
  destruct (Z.ltb_spec s 0); [lia|].
  destruct (Z.ltb_spec e 0); [lia|].
  unfold Py.len. rewrite length_firstn, length_skipn. lia.
Qed.

Lemma trim_mott_bounds (quals : list Z) (threshold : Z) :
  0 <= fst (trim_mott quals threshold) <= snd (trim_mott quals threshold)
  /\ snd (trim_mott quals threshold) <= Py.len quals.
Proof.
  destruct (trim_mott_inv quals threshold) as (st & -> & Hinv).
  destruct Hinv. simpl. lia.
Qed.

Lemma trim_ends_bounds (quals : list Z) (threshold : Z) :
  0 <= fst (trim_ends quals threshold) <= snd (trim_ends quals threshold)
  /\ snd (trim_ends quals threshold) <= Py.len quals.
Proof.
  pose proof (len_nonneg quals).
  destruct (trim_ends_cases quals threshold)
    as [[-> _]|(a & b & qa & qb & -> & Hrange & _)]; simpl; unfold Py.len in *; lia.
Qed.

(** [apply_trim] once the method has been resolved to a range. *)
Lemma apply_trim_mott (seq : string) (quals : list Z) (threshold : Z) :
  apply_trim seq quals "mott" threshold
  = inr (Py.str_slice seq (fst (trim_mott quals threshold))
                          (snd (trim_mott quals threshold)),
         Py.slice quals (fst (trim_mott quals threshold))
                        (snd (trim_mott quals threshold)),
         fst (trim_mott quals threshold), snd (trim_mott quals threshold)).
Proof.
  unfold apply_trim. simpl String.eqb. cbv iota.
  now destruct (trim_mott quals threshold).
Qed.

Lemma apply_trim_ends (seq : string) (quals : list Z) (threshold : Z) :
  apply_trim seq quals "ends" threshold
  = inr (Py.str_slice seq (fst (trim_ends quals threshold))
                          (snd (trim_ends quals threshold)),
         Py.slice quals (fst (trim_ends quals threshold))
                        (snd (trim_ends quals threshold)),
         fst (trim_ends quals threshold), snd (trim_ends quals threshold)).
Proof.
  unfold apply_trim. simpl String.eqb. cbv iota.
  now destruct (trim_ends quals threshold).
Qed.

End ApplyFacts.

Module ApplySpec.
Import Trim PyFacts ApplyFacts.

(** C2, as the claim states it, fails: the method string the code accepts
    for the maximum-score window is [mott]; [max-window] is rejected like
    any other unknown name. *)
Lemma apply_trim_max_window_rejected :
  apply_trim "ACGT" [30; 30; 30; 30] "max-window" 20
  = inl (Py.ValueError "Unknown trimming method: max-window")
  /\ apply_trim "ACGT" [30; 30; 30; 30] "mott" 20
     = inr ("ACGT"%string, [30; 30; 30; 30], 0, 4).
Proof. split; reflexivity. Qed.

(** C2, amended.  [apply_trim] fails with the unknown-method [ValueError]
    for every method string other than [mott] and [ends]; for exactly those
    two it succeeds, with the range of [trim_mott], respectively
    [trim_ends], and the sequence and the qualities sliced by that
    half-open range. *)
Theorem apply_trim_dispatch (seq : string) (quals : list Z) (method : string)
    (threshold : Z) :
  (method = "mott"%string ->
   exists s e, trim_mott quals threshold = (s, e) /\
               apply_trim seq quals method threshold
               = inr (Py.str_slice seq s e, Py.slice quals s e, s, e)) /\
  (method = "ends"%string ->
   exists s e, trim_ends quals threshold = (s, e) /\
               apply_trim seq quals method threshold
               = inr (Py.str_slice seq s e, Py.slice quals s e, s, e)) /\
  (method <> "mott"%string -> method <> "ends"%string ->
   apply_trim seq quals method threshold
   = inl (Py.ValueError ("Unknown trimming method: " ++ method))) /\
  ((exists r, apply_trim seq quals method threshold = inr r) <->
   method = "mott"%string \/ method = "ends"%string).
Proof.
  assert (Hbad : method <> "mott"%string -> method <> "ends"%string ->
                 apply_trim seq quals method threshold
                 = inl (Py.ValueError ("Unknown trimming method: " ++ method))).
  { intros Hm He. unfold apply_trim.
    destruct (String.eqb_spec method "mott"); [contradiction|].
    destruct (String.eqb_spec method "ends"); [contradiction|].
    reflexivity. }
  split; [|split; [|split; [exact Hbad|]]].
  - intros ->. rewrite apply_trim_mott.
    destruct (trim_mott quals threshold) as [s e]. eauto.
  - intros ->. rewrite apply_trim_ends.
    destruct (trim_ends quals threshold) as [s e]. eauto.
  - split.
    + intros [r Hr].
      destruct (string_dec method "mott") as [|Hm]; [now left|].
      destruct (string_dec method "ends") as [|He]; [now right|].
      rewrite (Hbad Hm He) in Hr. discriminate.
    + intros [->| ->]; [rewrite apply_trim_mott | rewrite apply_trim_ends];
        eauto.
Qed.

(** The repository's [test_invalid_method], obtained from the theorem. *)
Lemma apply_trim_dispatch_witness :
  apply_trim "ACGT" [20; 20; 20; 20] "invalid" 20
  = inl (Py.ValueError "Unknown trimming method: invalid").
Proof.
  apply (proj1 (proj2 (proj2 (apply_trim_dispatch
                                "ACGT" [20; 20; 20; 20] "invalid" 20))));
    discriminate.
Defined.




End ApplySpec.

(** ** The ordered rule table *)

Module RuleFacts.
Import Num Calling.

Lemma Qltb_lt (x y : Q) : Qltb x y = true <-> (x < y)%Q.
Proof.
  unfold Qltb. rewrite negb_true_iff.
  split.
  - intros H. apply Qnot_le_lt. intros Hle.
    apply Qle_bool_iff in Hle. congruence.
  - intros H. destruct (Qle_bool y x) eqn:E; [|reflexivity].
    apply Qle_bool_iff in E. exfalso. apply (Qlt_not_le _ _ H E).
Qed.

Lemma Qltb_ge (x y : Q) : Qltb x y = false <-> (y <= x)%Q.
Proof.
  unfold Qltb. rewrite negb_false_iff. apply Qle_bool_iff.
Qed.

Lemma Qle_bool_gt (x y : Q) : Qle_bool x y = false <-> (y < x)%Q.
Proof.
  rewrite <- Qltb_lt. unfold Qltb. now rewrite negb_true_iff.
Qed.

(** The unit tests of [TestCallingCriteria], with the intensities, ratios
    and qualities the test file passes. *)
Example test_rule1_low_quality_returns_n :
  _apply_calling_criteria default_config "A" "G" 100 20 (20 # 100) 5 10
  = ("N"%string, "N"%string, allele_frac 100 20, ["low_quality"%string]).
Proof. reflexivity. Qed.

Example test_rule4_heterozygous_balanced :
  _apply_calling_criteria default_config "A" "G" 100 50 (50 # 100) 10 25
  = ("R"%string, "ambiguous"%string, allele_frac 100 50,
     ["heterozygous"%string]).
Proof. reflexivity. Qed.

Example test_rule6_very_high_spr_returns_n :
  _apply_calling_criteria default_config "A" "G" 100 90 (90 # 100) 10 25
  = ("N"%string, "N"%string, allele_frac 100 90, ["unclear_primary"%string]).
Proof. reflexivity. Qed.

Lemma same_pair_spec (x y a b : string) :
  same_pair x y a b = true <-> two_base_set x y a b.
Proof.
  unfold same_pair, two_base_set.
  rewrite orb_true_iff, !andb_true_iff, !String.eqb_eq. reflexivity.
Qed.

(** The lookup of [_get_iupac_code] against the nomenclature table: the six
    two-base sets have the codes R, Y, S, W, K and M, and every other pair
    of (upper-cased) bases has the code N. *)
Lemma get_iupac_code_table (b1 b2 : string) :
  let u1 := Str.upper b1 in
  let u2 := Str.upper b2 in
  (two_base_set u1 u2 "A" "G" -> _get_iupac_code b1 b2 = "R"%string) /\
  (two_base_set u1 u2 "C" "T" -> _get_iupac_code b1 b2 = "Y"%string) /\
  (two_base_set u1 u2 "G" "C" -> _get_iupac_code b1 b2 = "S"%string) /\
  (two_base_set u1 u2 "A" "T" -> _get_iupac_code b1 b2 = "W"%string) /\
  (two_base_set u1 u2 "G" "T" -> _get_iupac_code b1 b2 = "K"%string) /\
  (two_base_set u1 u2 "A" "C" -> _get_iupac_code b1 b2 = "M"%string) /\
  (~ two_base_set u1 u2 "A" "G" -> ~ two_base_set u1 u2 "C" "T" ->
   ~ two_base_set u1 u2 "G" "C" -> ~ two_base_set u1 u2 "A" "T" ->
   ~ two_base_set u1 u2 "G" "T" -> ~ two_base_set u1 u2 "A" "C" ->
   _get_iupac_code b1 b2 = "N"%string).
Proof.
  intros u1 u2. unfold _get_iupac_code. fold u1 u2.
  repeat split.
  1-6: intros [[-> ->]|[-> ->]]; reflexivity.
  intros N1 N2 N3 N4 N5 N6.
  unfold IUPAC_CODES, lookup_pair.
  rewrite <- same_pair_spec in N1, N2, N3, N4, N5, N6.
  apply not_true_is_false in N1, N2, N3, N4, N5, N6.
  now rewrite N1, N2, N3, N4, N5, N6.
Qed.

Example iupac_code_examples :
  _get_iupac_code "A" "G" = "R"%string /\ _get_iupac_code "G" "A" = "R"%string
  /\ _get_iupac_code "a" "g" = "R"%string /\ _get_iupac_code "A" "A" = "N"%string.
Proof. repeat split; reflexivity. Qed.

End RuleFacts.

Module RuleSpec.
Import Num Calling RuleFacts.

Lemma rule1_fires (cfg : AmbiguousCallingConfig) (snr_ : Q) (quality_ : Z) :
  rule1 cfg snr_ quality_ = true <->
  (quality_ < q_min_noise cfg)%Z \/ (snr_ < snr_min cfg)%Q.
Proof.
  unfold rule1. rewrite orb_true_iff, Z.ltb_lt, Qltb_lt. reflexivity.
Qed.

Lemma rule1_silent (cfg : AmbiguousCallingConfig) (snr_ : Q) (quality_ : Z) :
  rule1 cfg snr_ quality_ = false <->
  (q_min_noise cfg <= quality_)%Z /\ (snr_min cfg <= snr_)%Q.
Proof.
  unfold rule1. rewrite orb_false_iff, Z.ltb_ge, Qltb_ge. reflexivity.
Qed.

Lemma rule4_fires (cfg : AmbiguousCallingConfig) (spr_ snr_ : Q) (quality_ : Z) :
  rule4 cfg spr_ snr_ quality_ = true <->
  ((spr_het_low cfg <= spr_)%Q /\ (spr_ <= spr_het_high cfg)%Q)
  /\ (q_ambig cfg <= quality_)%Z /\ (snr_min cfg <= snr_)%Q.
Proof.
  unfold rule4. rewrite !andb_true_iff, !Qle_bool_iff, Z.leb_le. tauto.
Qed.

(** C4, as the claim states it, fails on the call mode: for the scenario of
    the claim the mode string is [N], the same as the called base, and not
    [no-call]. *)
Lemma unclear_primary_mode_is_N :
  let '(called, mode, _, flags_) :=
    _apply_calling_criteria default_config "A" "G" 100 90 (spr_of 100 90) 10 25
  in called = "N"%string /\ flags_ = ["unclear_primary"%string]
     /\ mode = "N"%string /\ mode <> "no-call"%string.
Proof. vm_compute. repeat split; discriminate. Qed.

(** C4, amended.  Whenever rule 1 fires (quality below [q_min_noise] or SNR
    below [snr_min]) the result is base [N], mode [N], flag [low_quality];
    whenever no earlier rule matched and the SPR is at least
    [spr_unbalanced], the result is base [N], mode [N], flag
    [unclear_primary].  In particular, with the default thresholds, for
    [b1 = A], [b2 = G], [H1 = 100], [H2 = 90], quality 25 and any SNR of at
    least [snr_min], the call is [N] with mode [N] and flag
    [unclear_primary]. *)
Theorem noisy_and_unclear_are_N (cfg : AmbiguousCallingConfig) (b1 b2 : string)
    (H1 H2 spr_ snr_ : Q) (quality_ : Z) :
  ((quality_ < q_min_noise cfg)%Z \/ (snr_ < snr_min cfg)%Q ->
   _apply_calling_criteria cfg b1 b2 H1 H2 spr_ snr_ quality_
   = ("N"%string, "N"%string, allele_frac H1 H2, ["low_quality"%string]))
  /\
  (rule1 cfg snr_ quality_ = false -> rule2 cfg spr_ quality_ = false ->
   rule3 cfg spr_ quality_ = false -> rule4 cfg spr_ snr_ quality_ = false ->
   rule5 cfg spr_ quality_ = false -> (spr_unbalanced cfg <= spr_)%Q ->
   _apply_calling_criteria cfg b1 b2 H1 H2 spr_ snr_ quality_
   = ("N"%string, "N"%string, allele_frac H1 H2, ["unclear_primary"%string]))
  /\
  ((snr_min default_config <= snr_)%Q ->
   _apply_calling_criteria default_config "A" "G" 100 90 (spr_of 100 90) snr_ 25
   = ("N"%string, "N"%string, allele_frac 100 90, ["unclear_primary"%string])).
Proof.
  split; [|split].
  - intros Hfire. apply rule1_fires in Hfire.
    unfold _apply_calling_criteria. now rewrite Hfire.
  - intros R1 R2 R3 R4 R5 Hspr. apply Qle_bool_iff in Hspr.
    unfold _apply_calling_criteria.
    rewrite R1, R2, R3, R4, R5. fold (rule6 cfg spr_). unfold rule6.
    now rewrite Hspr.
  - intros Hsnr.
    assert (R1 : rule1 default_config snr_ 25 = false).
    { apply rule1_silent. split; [simpl; lia | exact Hsnr]. }
    unfold _apply_calling_criteria. rewrite R1. reflexivity.
Qed.

(** The theorem at the values of the repository's rule 6 unit test. *)
Lemma noisy_and_unclear_are_N_witness :
  _apply_calling_criteria default_config "A" "G" 100 90 (spr_of 100 90) 10 25
  = ("N"%string, "N"%string, allele_frac 100 90, ["unclear_primary"%string]).
Proof.
  apply (proj2 (proj2 (noisy_and_unclear_are_N
                         default_config "A" "G" 100 90 (spr_of 100 90) 10 25))).
  vm_compute. discriminate.
Defined.

(** C5.  Whenever no earlier rule matched, the SPR lies in
    [[spr_het_low, spr_het_high]], the quality is at least [q_ambig] and the
    SNR at least [snr_min], the call is the IUPAC code of the two bases with
    mode [ambiguous] and flag [heterozygous]; the IUPAC code is R for the
    two bases A and G, Y for C and T, S for G and C, W for A and T, K for G
    and T, M for A and C, in either order and in either case, and N for
    every other pair.  In particular, with the default thresholds (clonal
    context), for [b1 = A], [b2 = G], [H1 = 100], [H2 = 50], quality 25 and
    any SNR of at least [snr_min], the call is [R], mode [ambiguous], flag
    [heterozygous], and the allele fraction is 100/150, within 0.001 of
    0.667. *)
Theorem heterozygous_is_iupac (cfg : AmbiguousCallingConfig) (b1 b2 : string)
    (H1 H2 spr_ snr_ : Q) (quality_ : Z) :
  (rule1 cfg snr_ quality_ = false -> rule2 cfg spr_ quality_ = false ->
   rule3 cfg spr_ quality_ = false ->
   (spr_het_low cfg <= spr_)%Q -> (spr_ <= spr_het_high cfg)%Q ->
   (q_ambig cfg <= quality_)%Z -> (snr_min cfg <= snr_)%Q ->
   exists code : string,
     _apply_calling_criteria cfg b1 b2 H1 H2 spr_ snr_ quality_
     = (code, "ambiguous"%string, allele_frac H1 H2, ["heterozygous"%string])
     /\ code = _get_iupac_code b1 b2
     /\ (two_base_set (Str.upper b1) (Str.upper b2) "A" "G" ->
         code = "R"%string)
     /\ (two_base_set (Str.upper b1) (Str.upper b2) "C" "T" ->
         code = "Y"%string)
     /\ (two_base_set (Str.upper b1) (Str.upper b2) "G" "C" ->
         code = "S"%string)
     /\ (two_base_set (Str.upper b1) (Str.upper b2) "A" "T" ->
         code = "W"%string)
     /\ (two_base_set (Str.upper b1) (Str.upper b2) "G" "T" ->
         code = "K"%string)
     /\ (two_base_set (Str.upper b1) (Str.upper b2) "A" "C" ->
         code = "M"%string)
     /\ (~ two_base_set (Str.upper b1) (Str.upper b2) "A" "G" ->
         ~ two_base_set (Str.upper b1) (Str.upper b2) "C" "T" ->
         ~ two_base_set (Str.upper b1) (Str.upper b2) "G" "C" ->
         ~ two_base_set (Str.upper b1) (Str.upper b2) "A" "T" ->
         ~ two_base_set (Str.upper b1) (Str.upper b2) "G" "T" ->
         ~ two_base_set (Str.upper b1) (Str.upper b2) "A" "C" ->
         code = "N"%string))
  /\
  ((snr_min default_config <= snr_)%Q ->
   clonal_context default_config = true /\
   _apply_calling_criteria default_config "A" "G" 100 50 (spr_of 100 50) snr_ 25
   = ("R"%string, "ambiguous"%string, allele_frac 100 50,
      ["heterozygous"%string]) /\
   (allele_frac 100 50 == 100 # 150)%Q /\
   (Qabs (allele_frac 100 50 - (667 # 1000)) < 1 # 1000)%Q).
Proof.
  split.
  - intros R1 R2 R3 Hlo Hhi Hq Hsnr.
    assert (R4 : rule4 cfg spr_ snr_ quality_ = true).
    { apply rule4_fires. auto. }
    exists (_get_iupac_code b1 b2). split.
    { unfold _apply_calling_criteria. now rewrite R1, R2, R3, R4. }
    split; [reflexivity|]. exact (get_iupac_code_table b1 b2).
  - intros Hsnr.
    assert (R1 : rule1 default_config snr_ 25 = false).
    { apply rule1_silent. split; [simpl; lia | exact Hsnr]. }
    assert (R4 : rule4 default_config (spr_of 100 50) snr_ 25 = true).
    { apply rule4_fires. repeat split; try exact Hsnr; vm_compute; discriminate. }
    split; [reflexivity|]. split; [|split].
    + unfold _apply_calling_criteria. rewrite R1.
      change (rule2 default_config (spr_of 100 50) 25) with false.
      change (rule3 default_config (spr_of 100 50) 25) with false.
      cbv iota. rewrite R4. reflexivity.
    + vm_compute. reflexivity.
    + vm_compute. reflexivity.
Qed.

(** The theorem at the values of the repository's rule 4 unit test, through
    the general rule and through the scenario: the code of A and G is R. *)
Lemma heterozygous_is_iupac_witness :
  (exists code : string,
     _apply_calling_criteria default_config "A" "G" 100 50 (spr_of 100 50)
                             10 25
     = (code, "ambiguous"%string, allele_frac 100 50,
        ["heterozygous"%string])
     /\ code = "R"%string)
  /\ _apply_calling_criteria default_config "A" "G" 100 50 (spr_of 100 50) 10 25
     = ("R"%string, "ambiguous"%string, allele_frac 100 50,
        ["heterozygous"%string]).
Proof.
  split.
  - destruct (proj1 (heterozygous_is_iupac default_config "A" "G" 100 50
                       (spr_of 100 50) 10 25))
      as [code [Hcall [_ [HR _]]]].
    + reflexivity.
    + reflexivity.
    + reflexivity.
    + vm_compute. discriminate.
    + vm_compute. discriminate.
    + simpl. lia.
    + vm_compute. discriminate.
    + exists code. split; [exact Hcall|].
      apply HR. left. split; reflexivity.
  - refine (proj1 (proj2 (proj2 (heterozygous_is_iupac
                                   default_config "A" "G" 100 50 (spr_of 100 50)
                                   10 25) _))).
    vm_compute. discriminate.
Defined.

End RuleSpec.

(** ** Calling without trace data *)

Module FallbackFacts.
Import Calling EndsFacts.

(** Reading a quality at a non-negative position never fails: past the end
    of the vector the quality is 0. *)
Lemma quality_at_total (qualities : list Z) (pos : Z) :
  (0 <= pos)%Z ->
  quality_at qualities pos
  = Some (if (pos <? Py.len qualities)%Z
          then nth (Z.to_nat pos) qualities 0%Z else 0%Z).
Proof.
  intros Hpos. unfold quality_at.
  destruct (Z.ltb_spec pos (Py.len qualities)) as [Hlt|Hge]; [|reflexivity].
  rewrite index_nonneg by lia.
  apply nth_error_nth'. unfold Py.len in Hlt. lia.
Qed.

(** The loop yields one call per base, each the loop body at its position. *)
Lemma fallback_from_spec (cfg : AmbiguousCallingConfig) (qualities : list Z) :
  forall (bases : list string) (pos : Z),
    (0 <= pos)%Z ->
    exists calls,
      fallback_from cfg pos bases qualities = Some calls /\
      List.length calls = List.length bases /\
      forall k bc,
        nth_error calls k = Some bc ->
        exists base qual,
          nth_error bases k = Some base /\
          quality_at qualities (pos + Z.of_nat k) = Some qual /\
          bc = fallback_call cfg (pos + Z.of_nat k) base qual.
Proof.
  induction bases as [|base rest IH]; intros pos Hpos; simpl.
  - exists []. repeat split. intros [|k] bc H; discriminate.
  - rewrite (quality_at_total qualities pos Hpos).
    destruct (IH (pos + 1)%Z ltac:(lia)) as (calls & -> & Hlen & Hnth).
    eexists. split; [reflexivity|]. split; [simpl; now rewrite Hlen|].
    intros [|k] bc H; simpl in H.
    + injection H as <-. eexists _, _.
      rewrite Z.add_0_r. split; [reflexivity|].
      split; [apply quality_at_total; lia | reflexivity].
    + destruct (Hnth k bc H) as (b & q & Hb & Hq & ->).
      exists b, q.
      replace (pos + Z.of_nat (S k))%Z with (pos + 1 + Z.of_nat k)%Z by lia.
      auto.
Qed.

Lemma length_chars (s : string) : List.length (Str.chars s) = String.length s.
Proof. induction s as [|c s IH]; simpl; [reflexivity | now rewrite IH]. Qed.

(** What the loop body decides, by the quality alone. *)
Lemma fallback_call_low (cfg : AmbiguousCallingConfig) (pos : Z) (base : string)
    (qual : Z) :
  (qual < q_min_noise cfg)%Z ->
  fallback_call cfg pos base qual
  = MkBaseCall pos "N" base "N" 0 0 0 0 qual "N" 1
               ["low_quality"; "no_trace_data"]%string.
Proof.
  intros H. unfold fallback_call.
  now rewrite (proj2 (Z.ltb_lt _ _) H).
Qed.

Lemma fallback_call_readable (cfg : AmbiguousCallingConfig) (pos : Z)
    (base : string) (qual : Z) :
  (q_min_noise cfg <= qual)%Z ->
  fallback_call cfg pos base qual
  = MkBaseCall pos base base "N" 0 0 0 0 qual "single" 1
               (if (qual <? q_confident cfg)%Z
                then ["moderate_quality"; "no_trace_data"]%string
                else ["no_trace_data"%string]).
Proof.
  intros H. unfold fallback_call.
  rewrite (proj2 (Z.ltb_ge _ _) H).
  rewrite Z.leb_antisym. now destruct (qual <? q_confident cfg)%Z.
Qed.

End FallbackFacts.

Module FallbackSpec.
Import Calling FallbackFacts.

(** C6, as the claim states it, fails on the call mode: a base of quality 5
    read without trace data is called [N] with mode [N], not [no-call]. *)
Lemma fallback_mode_is_N :
  exists bc,
    call_bases default_config None "A" [5%Z] = Some [bc] /\
    called_base bc = "N"%string /\
    flags bc = ["low_quality"; "no_trace_data"]%string /\
    call_mode bc = "N"%string /\ call_mode bc <> "no-call"%string.
Proof.
  eexists. split; [reflexivity|]. simpl. repeat split. discriminate.
Qed.

(** C6, amended.  Without trace data classification does not fail and
    yields one call per base.  The call at position [k] carries that
    position, the original base as primary base and the quality at [k] (0
    past the end of the quality vector).  If the quality is below
    [q_min_noise] the call is [N] with mode [N] and flags [low_quality],
    [no_trace_data]; otherwise the original base is called with mode
    [single] and flag [no_trace_data], preceded by [moderate_quality] when
    the quality is below [q_confident].  Every call has allele fraction 1
    and carries the [no_trace_data] flag. *)
Theorem fallback_calling_total (cfg : AmbiguousCallingConfig)
    (sequence : string) (qualities : list Z) :
  exists calls,
    call_bases cfg None sequence qualities = Some calls /\
    List.length calls = String.length sequence /\
    forall k bc,
      nth_error calls k = Some bc ->
      (position bc = Z.of_nat k /\
       nth_error (Str.chars sequence) k = Some (primary_base bc) /\
       quality bc = nth k qualities 0%Z) /\
      (allele_fraction bc = 1%Q /\ In "no_trace_data"%string (flags bc)) /\
      ((quality bc < q_min_noise cfg)%Z ->
       called_base bc = "N"%string /\ call_mode bc = "N"%string /\
       flags bc = ["low_quality"; "no_trace_data"]%string) /\
      ((q_min_noise cfg <= quality bc)%Z ->
       called_base bc = primary_base bc /\ call_mode bc = "single"%string /\
       flags bc = if (quality bc <? q_confident cfg)%Z
                  then ["moderate_quality"; "no_trace_data"]%string
                  else ["no_trace_data"%string]).
Proof.
  destruct (fallback_from_spec cfg qualities (Str.chars sequence) 0 ltac:(lia))
    as (calls & Hcalls & Hlen & Hnth).
  exists calls. split; [exact Hcalls|].
  split; [now rewrite Hlen, length_chars|].
  intros k bc Hk.
  destruct (Hnth k bc Hk) as (base & qual & Hbase & Hqual & ->).
  rewrite quality_at_total in Hqual by lia. injection Hqual as Hqual.
  assert (Hq : qual = nth k qualities 0%Z).
  { rewrite <- Hqual. simpl. rewrite Nat2Z.id.
    destruct (Z.ltb_spec (Z.of_nat k) (Py.len qualities)) as [|Hge];
      [reflexivity|].
    symmetry. apply nth_overflow. unfold Py.len in Hge. lia. }
  clear Hqual.
  destruct (Z.lt_ge_cases qual (q_min_noise cfg)) as [Hlow|Hok].
  - rewrite (fallback_call_low cfg _ base qual Hlow). simpl.
    repeat split; auto; intros; lia.
  - rewrite (fallback_call_readable cfg _ base qual Hok). simpl.
    repeat split; auto; try (intros; lia).
    destruct (qual <? q_confident cfg)%Z; simpl; auto.
Qed.

(** The theorem on a three-base read with one quality missing. *)
Lemma fallback_calling_total_witness :
  exists calls,
    call_bases default_config None "ACG" [5%Z; 35%Z] = Some calls /\
    List.length calls = 3%nat.
Proof.
  destruct (fallback_calling_total default_config "ACG" [5%Z; 35%Z])
    as (calls & Hcalls & Hlen & _).
  exists calls. split; assumption.
Defined.

End FallbackSpec.

(** ** Intensities and their ratios *)

Module IntensityFacts.
Import Num Calling RuleFacts EndsFacts FallbackFacts.

Lemma qsum_nonneg (l : list Q) :
  Forall (fun x => 0 <= x)%Q l -> (0 <= qsum l)%Q.
Proof.
  induction 1 as [|x l Hx _ IH]; simpl; [apply Qle_refl|].
  replace 0%Q with (0 + 0)%Q by reflexivity. now apply Qplus_le_compat.
Qed.

Lemma Forall_firstn {A : Type} (P : A -> Prop) (n : nat) (l : list A) :
  Forall P l -> Forall P (firstn n l).
Proof.
  intros H. revert n. induction H as [|x l Hx _ IH]; intros [|n]; simpl;
    constructor; auto.
Qed.

Lemma Forall_skipn {A : Type} (P : A -> Prop) (n : nat) (l : list A) :
  Forall P l -> Forall P (skipn n l).
Proof.
  intros H. revert n. induction H as [|x l Hx Hl IH]; intros [|n]; simpl;
    auto.
Qed.

Lemma Forall_slice {A : Type} (P : A -> Prop) (l : list A) (s e : Z) :
  Forall P l -> Forall P (Py.slice l s e).
Proof.
  intros H. unfold Py.slice. now apply Forall_firstn, Forall_skipn.
Qed.

(** With non-negative samples every channel intensity is non-negative. *)
Lemma intensities_nonneg (traces : Traces) (position_ window : Z)
    (ints : list (string * Q)) :
  nonneg_samples traces ->
  get_intensities_at_position traces position_ window = Some ints ->
  Forall (fun p => 0 <= snd p)%Q ints.
Proof.
  intros Hnn. unfold get_intensities_at_position.
  destruct ((Py.len (peak_locations traces) =? 0)%Z
            || (Py.len (peak_locations traces) <=? position_)%Z).
  - intros [= <-]. repeat constructor; simpl; apply Qle_refl.
  - destruct (Py.index (peak_locations traces) position_) as [trace_pos|];
      [|discriminate].
    intros [= <-]. unfold nonneg_samples, channels in Hnn. simpl in *.
    repeat match goal with
           | H : Forall _ (_ :: _) |- _ => inversion H; clear H; subst
           end.
    repeat constructor; simpl; apply qsum_nonneg, Forall_slice; assumption.
Qed.

Lemma intensities_length (traces : Traces) (position_ window : Z)
    (ints : list (string * Q)) :
  get_intensities_at_position traces position_ window = Some ints ->
  List.length ints = 4%nat.
Proof.
  unfold get_intensities_at_position.
  destruct ((Py.len (peak_locations traces) =? 0)%Z
            || (Py.len (peak_locations traces) <=? position_)%Z).
  - now intros [= <-].
  - destruct (Py.index (peak_locations traces) position_); [|discriminate].
    intros [= <-]. reflexivity.
Qed.

(** Both readers of the peak locations succeed at a position of the
    sequence. *)
Lemma peak_index_total (traces : Traces) (position_ : Z) :
  (0 <= position_)%Z ->
  ((Py.len (peak_locations traces) =? 0)%Z
   || (Py.len (peak_locations traces) <=? position_)%Z) = false ->
  exists trace_pos, Py.index (peak_locations traces) position_ = Some trace_pos.
Proof.
  intros Hpos Hcond. apply orb_false_iff in Hcond. destruct Hcond as [_ Hlt].
  apply Z.leb_gt in Hlt. rewrite index_nonneg by lia.
  destruct (nth_error (peak_locations traces) (Z.to_nat position_)) eqn:E;
    [eauto|].
  apply nth_error_None in E. unfold Py.len in Hlt. lia.
Qed.

Lemma intensities_total (traces : Traces) (position_ window : Z) :
  (0 <= position_)%Z ->
  exists ints, get_intensities_at_position traces position_ window = Some ints.
Proof.
  intros Hpos. unfold get_intensities_at_position.
  destruct ((Py.len (peak_locations traces) =? 0)%Z
            || (Py.len (peak_locations traces) <=? position_)%Z) eqn:E;
    [eauto|].
  destruct (peak_index_total traces position_ Hpos E) as [tp ->]. eauto.
Qed.

Lemma snr_total (traces : Traces) (position_ : Z) (signal : Q) :
  (0 <= position_)%Z ->
  exists snr_, _calculate_snr traces position_ signal = Some snr_.
Proof.
  intros Hpos. unfold _calculate_snr.
  destruct ((Py.len (peak_locations traces) =? 0)%Z
            || (Py.len (peak_locations traces) <=? position_)%Z) eqn:E;
    [eauto|].
  destruct (peak_index_total traces position_ Hpos E) as [tp ->].
  destruct (flat_map _ _); eauto.
Qed.

(** *** The descending sort *)

Lemma insert_desc_length (x : string * Q) (l : list (string * Q)) :
  List.length (insert_desc x l) = S (List.length l).
Proof.
  induction l as [|y l IH]; simpl; [reflexivity|].
  destruct (Qltb (snd x) (snd y)); simpl; [now rewrite IH | reflexivity].
Qed.

Lemma sorted_desc_length (l : list (string * Q)) :
  List.length (sorted_desc l) = List.length l.
Proof.
  induction l as [|x l IH]; simpl; [reflexivity|].
  now rewrite insert_desc_length, IH.
Qed.

Lemma insert_desc_Forall (P : string * Q -> Prop) (x : string * Q)
    (l : list (string * Q)) :
  P x -> Forall P l -> Forall P (insert_desc x l).
Proof.
  intros Hx H. induction H as [|y l Hy Hl IH]; simpl.
  - now constructor.
  - destruct (Qltb (snd x) (snd y)); repeat constructor; auto.
Qed.

Lemma sorted_desc_Forall (P : string * Q -> Prop) (l : list (string * Q)) :
  Forall P l -> Forall P (sorted_desc l).
Proof.
  induction 1 as [|x l Hx _ IH]; simpl; [constructor|].
  now apply insert_desc_Forall.
Qed.

Lemma insert_desc_descending (x : string * Q) (l : list (string * Q)) :
  descending l -> descending (insert_desc x l).
Proof.
  induction 1 as [|y|y z l Hyz Hzl IH]; simpl.
  - constructor.
  - destruct (Qltb (snd x) (snd y)) eqn:E.
    + apply Qltb_lt in E. constructor; [now apply Qlt_le_weak | constructor].
    + apply Qltb_ge in E. constructor; [exact E | constructor].
  - destruct (Qltb (snd x) (snd y)) eqn:E.
    + apply Qltb_lt in E. simpl in IH.
      destruct (Qltb (snd x) (snd z)) eqn:E'.
      * constructor; assumption.
      * constructor; [now apply Qlt_le_weak | exact IH].
    + apply Qltb_ge in E. constructor; [exact E|]. now constructor.
Qed.

Lemma sorted_desc_descending (l : list (string * Q)) :
  descending (sorted_desc l).
Proof.
  induction l as [|x l IH]; simpl; [constructor|].
  now apply insert_desc_descending.
Qed.

End IntensityFacts.

Module RatioFacts.
Import Num Calling RuleFacts IntensityFacts FallbackFacts.

Lemma spr_of_bounded (H1 H2 : Q) :
  (0 <= H2)%Q -> (H2 <= H1)%Q ->
  ((0 < H1)%Q -> (0 <= spr_of H1 H2 <= 1)%Q) /\
  (~ (0 < H1)%Q -> spr_of H1 H2 = 0%Q).
Proof.
  intros H2pos Hle. unfold spr_of. split.
  - intros Hpos. rewrite (proj2 (Qltb_lt 0 H1) Hpos). split.
    + apply Qle_shift_div_l; [exact Hpos | lra].
    + apply Qle_shift_div_r; [exact Hpos | lra].
  - intros Hneg. destruct (Qltb 0 H1) eqn:E; [|reflexivity].
    apply Qltb_lt in E. contradiction.
Qed.

Lemma allele_frac_bounded (H1 H2 : Q) :
  (0 <= H2)%Q -> (0 <= H1)%Q ->
  (0 <= allele_frac H1 H2 <= 1)%Q /\
  (~ (0 < H1 + H2)%Q -> allele_frac H1 H2 = 0%Q).
Proof.
  intros H2pos H1pos. unfold allele_frac.
  destruct (Qltb 0 (H1 + H2)) eqn:E.
  - apply Qltb_lt in E. split; [split|contradiction].
    + apply Qle_shift_div_l; [exact E | lra].
    + apply Qle_shift_div_r; [exact E | lra].
  - split; [split; lra | reflexivity].
Qed.

(** Whichever rule fires, the allele fraction reported is the one computed
    before the rules. *)
Lemma criteria_allele (cfg : AmbiguousCallingConfig) (b1 b2 : string)
    (H1 H2 spr_ snr_ : Q) (quality_ : Z) :
  snd (fst (_apply_calling_criteria cfg b1 b2 H1 H2 spr_ snr_ quality_))
  = allele_frac H1 H2.
Proof.
  unfold _apply_calling_criteria.
  repeat match goal with
         | |- context [if ?c then _ else _] => destruct c
         end; reflexivity.
Qed.

(** The fields of a call in terms of the two largest intensities. *)
Lemma call_position_fields (cfg : AmbiguousCallingConfig) (position_ : Z)
    (base : string) (quality_ : Z) (traces : Traces) (bc : BaseCall) :
  _call_position cfg position_ base quality_ traces = Some bc ->
  exists ints b1 H1 b2 H2 rest,
    get_intensities_at_position traces position_ (peak_window cfg) = Some ints /\
    sorted_desc ints = (b1, H1) :: (b2, H2) :: rest /\
    primary_intensity bc = H1 /\ secondary_intensity bc = H2 /\
    spr bc = spr_of H1 H2 /\ allele_fraction bc = allele_frac H1 H2.
Proof.
  unfold _call_position.
  destruct (get_intensities_at_position traces position_ (peak_window cfg))
    as [ints|]; [|discriminate].
  destruct (sorted_desc ints) as [|[b1 H1] [|[b2 H2] rest]] eqn:Hsorted;
    try discriminate.
  destruct (_calculate_snr traces position_ H1) as [snr_|]; [|discriminate].
  pose proof (criteria_allele cfg b1 b2 H1 H2 (spr_of H1 H2) snr_ quality_)
    as Hallele.
  destruct (_apply_calling_criteria cfg b1 b2 H1 H2 (spr_of H1 H2) snr_ quality_)
    as [[[called mode] allele] flags_].
  simpl in Hallele. subst allele.
  intros [= <-]. exists ints, b1, H1, b2, H2, rest. simpl. auto 10.
Qed.

(** The call, its mode, its allele fraction and its flags are what the rule
    table returns for the recorded intensities, ratios and quality. *)
Lemma call_position_applies_rules (cfg : AmbiguousCallingConfig)
    (position_ : Z) (base : string) (quality_ : Z) (traces : Traces)
    (bc : BaseCall) :
  _call_position cfg position_ base quality_ traces = Some bc ->
  (called_base bc, call_mode bc, allele_fraction bc, flags bc)
  = _apply_calling_criteria cfg (primary_base bc) (secondary_base bc)
      (primary_intensity bc) (secondary_intensity bc) (spr bc) (snr bc)
      (quality bc)
  /\ position bc = position_ /\ quality bc = quality_.
Proof.
  unfold _call_position.
  destruct (get_intensities_at_position traces position_ (peak_window cfg))
    as [ints|]; [|discriminate].
  destruct (sorted_desc ints) as [|[b1 H1] [|[b2 H2] rest]]; try discriminate.
  destruct (_calculate_snr traces position_ H1) as [snr_|]; [|discriminate].
  destruct (_apply_calling_criteria cfg b1 b2 H1 H2 (spr_of H1 H2) snr_ quality_)
    as [[[called mode] allele] flags_] eqn:Hrules.
  intros [= <-]. simpl. rewrite Hrules. auto.
Qed.

Lemma call_position_total (cfg : AmbiguousCallingConfig) (position_ : Z)
    (base : string) (quality_ : Z) (traces : Traces) :
  (0 <= position_)%Z ->
  exists bc, _call_position cfg position_ base quality_ traces = Some bc.
Proof.
  intros Hpos. unfold _call_position.
  destruct (intensities_total traces position_ (peak_window cfg) Hpos)
    as [ints Hints].
  rewrite Hints.
  pose proof (sorted_desc_length ints) as Hlen.
  rewrite (intensities_length _ _ _ _ Hints) in Hlen.
  destruct (sorted_desc ints) as [|[b1 H1] [|[b2 H2] rest]];
    try discriminate.
  destruct (snr_total traces position_ H1 Hpos) as [snr_ ->].
  destruct (_apply_calling_criteria cfg b1 b2 H1 H2 (spr_of H1 H2) snr_ quality_)
    as [[[called mode] allele] flags_].
  eauto.
Qed.

(** With non-negative samples a call has bounded ratios. *)
Lemma call_position_bounded (cfg : AmbiguousCallingConfig) (position_ : Z)
    (base : string) (quality_ : Z) (traces : Traces) (bc : BaseCall) :
  nonneg_samples traces ->
  _call_position cfg position_ base quality_ traces = Some bc ->
  ratios_bounded bc.
Proof.
  intros Hnn Hcall.
  destruct (call_position_fields _ _ _ _ _ _ Hcall)
    as (ints & b1 & H1 & b2 & H2 & rest & Hints & Hsorted & Hp & Hs & Hspr & Haf).
  pose proof (sorted_desc_Forall _ _ (intensities_nonneg _ _ _ _ Hnn Hints))
    as Hpos.
  pose proof (sorted_desc_descending ints) as Hdesc.
  rewrite Hsorted in Hpos, Hdesc.
  inversion Hpos as [|? ? H1pos Hpos']. inversion Hpos' as [|? ? H2pos _].
  inversion Hdesc as [| |? ? ? Hle _]. simpl in H1pos, H2pos, Hle.
  destruct (spr_of_bounded H1 H2 H2pos Hle) as [Hs1 Hs2].
  destruct (allele_frac_bounded H1 H2 H2pos H1pos) as [Ha1 Ha2].
  unfold ratios_bounded. rewrite Hp, Hs, Hspr, Haf. auto.
Qed.

(** The loop of [call_bases] never fails and keeps the bound. *)
Lemma call_from_bounded (cfg : AmbiguousCallingConfig) (traces : Traces)
    (qualities : list Z) :
  nonneg_samples traces ->
  forall (bases : list string) (pos : Z),
    (0 <= pos)%Z ->
    exists calls,
      call_from cfg traces pos bases qualities = Some calls /\
      List.length calls = List.length bases /\
      Forall ratios_bounded calls.
Proof.
  intros Hnn. induction bases as [|base rest IH]; intros pos Hpos; simpl.
  - exists []. repeat split. constructor.
  - rewrite (quality_at_total qualities pos Hpos).
    destruct (call_position_total cfg pos base
                (if (pos <? Py.len qualities)%Z
                 then nth (Z.to_nat pos) qualities 0%Z else 0%Z) traces Hpos)
      as [bc Hbc].
    rewrite Hbc.
    destruct (IH (pos + 1)%Z ltac:(lia)) as (calls & -> & Hlen & Hall).
    exists (bc :: calls). split; [reflexivity|].
    split; [simpl; now rewrite Hlen|].
    constructor; [|exact Hall].
    eapply call_position_bounded; eauto.
Qed.

End RatioFacts.

Module RatioSpec.
Import Num Calling RatioFacts.

(** C8, as the claim states it, fails: nothing keeps trace samples
    non-negative.  With one sample of 100 in channel A and -50 in the three
    others, the call at position 0 has primary intensity 100, secondary
    intensity -50, SPR -1/2 and allele fraction 2. *)
Lemma negative_samples_escape_bounds :
  exists bc,
    _call_position default_config 0 "A" 30
      (MkTraces [100] [-(50)] [-(50)] [-(50)] [0%Z])%Q = Some bc /\
    (0 < primary_intensity bc)%Q /\
    (spr bc == -(1 # 2))%Q /\ ~ (0 <= spr bc)%Q /\
    (allele_fraction bc == 2)%Q /\ ~ (allele_fraction bc <= 1)%Q.
Proof.
  eexists. split; [vm_compute; reflexivity|].
  simpl. repeat split; try (intros H; vm_compute in H; congruence).
Qed.

(** C8, amended.  For every trace bundle whose samples are all non-negative
    (peak locations arbitrary), trace-based classification returns one call
    per base, and every call it returns has its allele fraction
    [H1 / (H1 + H2)] in [[0, 1]] (0 when [H1 + H2] is not positive) and its
    SPR [H2 / H1] in [[0, 1]] when the primary intensity is positive, the SPR
    being 0 when it is not. *)
Theorem nonneg_traces_bound_ratios (cfg : AmbiguousCallingConfig)
    (traces : Traces) :
  nonneg_samples traces ->
  (forall sequence qualities,
      exists calls,
        call_bases cfg (Some traces) sequence qualities = Some calls /\
        List.length calls = String.length sequence /\
        Forall ratios_bounded calls) /\
  (forall position_ base quality_ bc,
      _call_position cfg position_ base quality_ traces = Some bc ->
      (0 <= allele_fraction bc <= 1)%Q /\
      (~ (0 < primary_intensity bc + secondary_intensity bc)%Q ->
       allele_fraction bc = 0%Q) /\
      ((0 < primary_intensity bc)%Q -> (0 <= spr bc <= 1)%Q) /\
      (~ (0 < primary_intensity bc)%Q -> spr bc = 0%Q)).
Proof.
  intros Hnn. split.
  - intros sequence qualities. simpl.
    destruct (call_from_bounded cfg traces qualities Hnn
                (Str.chars sequence) 0 ltac:(lia))
      as (calls & Hcalls & Hlen & Hall).
    exists calls. rewrite <- FallbackFacts.length_chars. auto.
  - intros position_ base quality_ bc Hcall.
    exact (call_position_bounded cfg position_ base quality_ traces bc
             Hnn Hcall).
Qed.

(** The theorem on a one-base read with a mixed A/C peak. *)
Lemma nonneg_traces_bound_ratios_witness :
  exists calls,
    call_bases default_config
      (Some (MkTraces [10; 100; 10] [1; 50; 1] [0; 0; 0] [0; 0; 0] [1%Z])%Q)
      "A" [25%Z] = Some calls /\
    List.length calls = 1%nat /\
    Forall ratios_bounded calls.
Proof.
  refine (proj1 (nonneg_traces_bound_ratios default_config _ _) "A"%string _).
  unfold nonneg_samples. simpl.
  repeat constructor; vm_compute; discriminate.
Defined.

End RatioSpec.

(** ** QC metrics *)

Module RoundFacts.
Import Num RuleFacts.

(** Rounding half to even moves a number by at most one half. *)
Lemma round_half_even_close (x : Q) :
  (Qabs (inject_Z (round_half_even x) - x) <= 1 # 2)%Q.
Proof.
  pose proof (Qfloor_le x) as Hlo.
  pose proof (Qlt_floor x) as Hhi.
  rewrite inject_Z_plus in Hhi. change (inject_Z 1) with 1%Q in Hhi.
  apply Qabs_Qle_condition. unfold round_half_even.
  destruct (Qltb (x - inject_Z (Qfloor x)) (1 # 2)) eqn:E1.
  - apply Qltb_lt in E1. split; lra.
  - apply Qltb_ge in E1.
    assert (Hup : (-(1 # 2) <= inject_Z (Qfloor x + 1) - x <= 1 # 2)%Q).
    { rewrite inject_Z_plus. change (inject_Z 1) with 1%Q. split; lra. }
    destruct (Qltb (1 # 2) (x - inject_Z (Qfloor x))) eqn:E2; [exact Hup|].
    apply Qltb_ge in E2.
    destruct (Z.even (Qfloor x)); [split; lra | exact Hup].
Qed.

(** Which way [round_half_even] goes. *)
Lemma round_half_even_cases (x : Q) :
  (round_half_even x = Qfloor x /\ (x - inject_Z (Qfloor x) <= 1 # 2)%Q) \/
  (round_half_even x = (Qfloor x + 1)%Z /\ (1 # 2 <= x - inject_Z (Qfloor x))%Q).
Proof.
  unfold round_half_even.
  destruct (Qltb (x - inject_Z (Qfloor x)) (1 # 2)) eqn:E1.
  - apply Qltb_lt in E1. left. split; [reflexivity | lra].
  - apply Qltb_ge in E1.
    destruct (Qltb (1 # 2) (x - inject_Z (Qfloor x))) eqn:E2.
    + right. split; [reflexivity | exact E1].
    + apply Qltb_ge in E2.
      destruct (Z.even (Qfloor x)); [left | right]; split;
        try reflexivity; assumption.
Qed.

(** At one floor, the larger number does not round lower. *)
Lemma round_half_even_same_floor (x y : Q) :
  (x <= y)%Q -> Qfloor x = Qfloor y ->
  (round_half_even x <= round_half_even y)%Z.
Proof.
  intros Hxy Hf. unfold round_half_even. rewrite <- Hf.
  set (f := Qfloor x).
  destruct (Qltb (x - inject_Z f) (1 # 2)) eqn:X1;
    destruct (Qltb (y - inject_Z f) (1 # 2)) eqn:Y1;
    try apply Qltb_lt in X1; try apply Qltb_ge in X1;
    try apply Qltb_lt in Y1; try apply Qltb_ge in Y1;
    try lia; try (exfalso; lra).
  - destruct (Qltb (1 # 2) (y - inject_Z f)); [lia|].
    destruct (Z.even f); lia.
  - destruct (Qltb (1 # 2) (x - inject_Z f)) eqn:X2;
      destruct (Qltb (1 # 2) (y - inject_Z f)) eqn:Y2;
      try apply Qltb_lt in X2; try apply Qltb_ge in X2;
      try apply Qltb_lt in Y2; try apply Qltb_ge in Y2;
      try lia; try (exfalso; lra);
      destruct (Z.even f); lia.
Qed.

Lemma round_half_even_mono (x y : Q) :
  (x <= y)%Q -> (round_half_even x <= round_half_even y)%Z.
Proof.
  intros Hxy.
  pose proof (Qfloor_resp_le x y Hxy) as Hf.
  destruct (Z.eq_dec (Qfloor x) (Qfloor y)) as [E|E].
  - now apply round_half_even_same_floor.
  - destruct (round_half_even_cases x) as [[-> _]|[-> _]];
      destruct (round_half_even_cases y) as [[-> _]|[-> _]]; lia.
Qed.

Lemma round_half_even_Z (k : Z) : round_half_even (inject_Z k) = k.
Proof.
  unfold round_half_even. rewrite Qfloor_Z.
  assert (H : Qltb (inject_Z k - inject_Z k) (1 # 2) = true).
  { apply Qltb_lt. lra. }
  now rewrite H.
Qed.

End RoundFacts.

(** ** Binary64 rounding *)

Module FloatFacts.
Import Num Float RuleFacts RoundFacts.
Local Open Scope Q_scope.

Lemma pow2_pos (e : Z) : 0 < pow2 e.
Proof. apply Qpower_0_lt. reflexivity. Qed.

Lemma pow2_le (a b : Z) : (a <= b)%Z -> pow2 a <= pow2 b.
Proof. intros H. apply Qpower_le_compat_l; [exact H | discriminate]. Qed.

Lemma pow2_lt (a b : Z) : (a < b)%Z -> pow2 a < pow2 b.
Proof. intros H. apply Qpower_lt_compat_l; [exact H | reflexivity]. Qed.

Lemma pow2_plus (a b : Z) : pow2 (a + b) == pow2 a * pow2 b.
Proof. apply Qpower_plus. discriminate. Qed.

Lemma pow2_Z (k : Z) : (0 <= k)%Z -> pow2 k == inject_Z (2 ^ k).
Proof. intros H. unfold pow2. now rewrite Zpower_Qpower. Qed.

Lemma pow2_minus (a b : Z) : pow2 (a - b) == pow2 a / pow2 b.
Proof. apply Qpower_minus. discriminate. Qed.

(** Comparing two quotients of integers by cross multiplication. *)
Lemma Zquot_lt (n d a b : Z) :
  (0 < d)%Z -> (0 < b)%Z -> (n * b < a * d)%Z ->
  inject_Z n / inject_Z d < inject_Z a / inject_Z b.
Proof.
  intros Hd Hb H.
  assert (Hd' : 0 < inject_Z d).
  { change 0 with (inject_Z 0). now rewrite <- Zlt_Qlt. }
  assert (Hb' : 0 < inject_Z b).
  { change 0 with (inject_Z 0). now rewrite <- Zlt_Qlt. }
  apply Qlt_shift_div_l; [exact Hb'|].
  unfold Qdiv. rewrite <- Qmult_assoc, (Qmult_comm (/ _)), Qmult_assoc.
  apply Qlt_shift_div_r; [exact Hd'|].
  rewrite <- !inject_Z_mult, <- Zlt_Qlt. exact H.
Qed.

Lemma Zquot_le (n d a b : Z) :
  (0 < d)%Z -> (0 < b)%Z -> (n * b <= a * d)%Z ->
  inject_Z n / inject_Z d <= inject_Z a / inject_Z b.
Proof.
  intros Hd Hb H.
  assert (Hd' : 0 < inject_Z d).
  { change 0 with (inject_Z 0). now rewrite <- Zlt_Qlt. }
  assert (Hb' : 0 < inject_Z b).
  { change 0 with (inject_Z 0). now rewrite <- Zlt_Qlt. }
  apply Qle_shift_div_l; [exact Hb'|].
  unfold Qdiv. rewrite <- Qmult_assoc, (Qmult_comm (/ _)), Qmult_assoc.
  apply Qle_shift_div_r; [exact Hd'|].
  rewrite <- !inject_Z_mult, <- Zle_Qle. exact H.
Qed.

(** A positive rational lies between two consecutive powers of two, and
    [ilog2] finds the lower one. *)
Lemma ilog2_spec (x : Q) :
  0 < x -> pow2 (ilog2 x) <= x /\ x < pow2 (ilog2 x + 1).
Proof.
  intros Hx. unfold ilog2.
  destruct x as [n d]. cbn [Qnum Qden].
  assert (Hn : (0 < n)%Z).
  { unfold Qlt in Hx. simpl in Hx. lia. }
  set (a := Z.log2 n). set (b := Z.log2 (Z.pos d)).
  destruct (Z.log2_spec n Hn) as [Ha1 Ha2]. fold a in Ha1, Ha2.
  destruct (Z.log2_spec (Z.pos d) ltac:(lia)) as [Hb1 Hb2]. fold b in Hb1, Hb2.
  assert (Ha0 : (0 <= a)%Z) by apply Z.log2_nonneg.
  assert (Hb0 : (0 <= b)%Z) by apply Z.log2_nonneg.
  rewrite <- Z.add_1_r in Ha2, Hb2.
  assert (Hnd : n # d == inject_Z n / inject_Z (Z.pos d)) by apply Qmake_Qdiv.
  assert (Hpa : (0 < 2 ^ a)%Z) by (apply Z.pow_pos_nonneg; lia).
  assert (Hpb : (0 < 2 ^ b)%Z) by (apply Z.pow_pos_nonneg; lia).
  assert (Hpa1 : (2 ^ (a + 1) = 2 * 2 ^ a)%Z) by (rewrite Z.pow_add_r; lia).
  assert (Hpb1 : (2 ^ (b + 1) = 2 * 2 ^ b)%Z) by (rewrite Z.pow_add_r; lia).
  destruct (Qle_bool (pow2 (a - b)) (n # d)) eqn:E.
  - apply Qle_bool_iff in E. split; [exact E|].
    replace (a - b + 1)%Z with ((a + 1) - b)%Z by lia.
    rewrite pow2_minus, (pow2_Z (a + 1)), (pow2_Z b), Hnd by lia.
    apply Zquot_lt; nia.
  - apply Qle_bool_gt in E. split.
    + replace (a - b - 1)%Z with (a - (b + 1))%Z by lia.
      rewrite pow2_minus, (pow2_Z a), (pow2_Z (b + 1)), Hnd by lia.
      apply Zquot_le; nia.
    + replace (a - b - 1 + 1)%Z with (a - b)%Z by lia. exact E.
Qed.

Lemma ilog2_ge (x : Q) (k : Z) : pow2 k <= x -> (k <= ilog2 x)%Z.
Proof.
  intros Hk.
  assert (Hx : 0 < x) by (pose proof (pow2_pos k); lra).
  destruct (ilog2_spec x Hx) as [_ Hhi].
  destruct (Z_le_gt_dec k (ilog2 x)) as [H|H]; [exact H|].
  exfalso. pose proof (pow2_le (ilog2 x + 1) k ltac:(lia)). lra.
Qed.

Lemma ilog2_lt (x : Q) (k : Z) : 0 < x -> x < pow2 k -> (ilog2 x < k)%Z.
Proof.
  intros Hx Hk.
  destruct (ilog2_spec x Hx) as [Hlo _].
  destruct (Z_lt_ge_dec (ilog2 x) k) as [H|H]; [exact H|].
  exfalso. pose proof (pow2_le k (ilog2 x) ltac:(lia)). lra.
Qed.

Lemma ilog2_mono (x y : Q) : 0 < x -> x <= y -> (ilog2 x <= ilog2 y)%Z.
Proof.
  intros Hx Hxy. apply ilog2_ge.
  destruct (ilog2_spec x Hx) as [Hlo _]. lra.
Qed.


(** *** Rounding a positive number *)

Lemma round_half_even_ge (x : Q) (k : Z) :
  inject_Z k <= x -> (k <= round_half_even x)%Z.
Proof.
  intros H. rewrite <- (round_half_even_Z k). now apply round_half_even_mono.
Qed.

Lemma round_half_even_le (x : Q) (k : Z) :
  x <= inject_Z k -> (round_half_even x <= k)%Z.
Proof.
  intros H. rewrite <- (round_half_even_Z k). now apply round_half_even_mono.
Qed.

Lemma scaled_back (x q : Q) : 0 < q -> x / q * q == x.
Proof. intros H. field. lra. Qed.

(** The result is off by at most half a quantum. *)
Lemma rnd_pos_err (x : Q) :
  Qabs (rnd_pos x - x) <= pow2 (quantum x) * (1 # 2).
Proof.
  unfold rnd_pos. set (q := pow2 (quantum x)).
  assert (Hq : 0 < q) by apply pow2_pos.
  pose proof (round_half_even_close (x / q)) as H.
  apply Qabs_Qle_condition in H. destruct H as [H1 H2].
  set (m := inject_Z (round_half_even (x / q))) in *.
  pose proof (scaled_back x q Hq) as Hx.
  apply Qabs_Qle_condition.
  assert (E : m * q - x == (m - x / q) * q) by (rewrite <- Hx at 1; ring).
  rewrite E. split.
  - assert (G : - (1 # 2) * q <= (m - x / q) * q).
    { apply Qmult_le_compat_r; lra. }
    lra.
  - assert (G : (m - x / q) * q <= (1 # 2) * q).
    { apply Qmult_le_compat_r; lra. }
    lra.
Qed.

(** A power of two that is a multiple of the quantum is not crossed. *)
Lemma rnd_pos_ge (x : Q) (k : Z) :
  (quantum x <= k)%Z -> pow2 k <= x -> pow2 k <= rnd_pos x.
Proof.
  intros Hk Hx. unfold rnd_pos. set (q := pow2 (quantum x)).
  assert (Hq : 0 < q) by apply pow2_pos.
  assert (E : pow2 k == inject_Z (2 ^ (k - quantum x)) * q).
  { rewrite <- pow2_Z by lia. unfold q. rewrite <- pow2_plus.
    now replace (k - quantum x + quantum x)%Z with k by lia. }
  rewrite E. apply Qmult_le_compat_r; [|lra].
  rewrite <- Zle_Qle. apply round_half_even_ge.
  apply Qle_shift_div_l; [exact Hq|]. now rewrite <- E.
Qed.

Lemma rnd_pos_le (x : Q) (k : Z) :
  (quantum x <= k)%Z -> x <= pow2 k -> rnd_pos x <= pow2 k.
Proof.
  intros Hk Hx. unfold rnd_pos. set (q := pow2 (quantum x)).
  assert (Hq : 0 < q) by apply pow2_pos.
  assert (E : pow2 k == inject_Z (2 ^ (k - quantum x)) * q).
  { rewrite <- pow2_Z by lia. unfold q. rewrite <- pow2_plus.
    now replace (k - quantum x + quantum x)%Z with k by lia. }
  rewrite E. apply Qmult_le_compat_r; [|lra].
  rewrite <- Zle_Qle. apply round_half_even_le.
  apply Qle_shift_div_r; [exact Hq|]. now rewrite <- E.
Qed.

Lemma rnd_pos_nonneg (x : Q) : 0 <= x -> 0 <= rnd_pos x.
Proof.
  intros Hx. unfold rnd_pos. set (q := pow2 (quantum x)).
  assert (Hq : 0 < q) by apply pow2_pos.
  apply Qmult_le_0_compat; [|lra].
  change 0 with (inject_Z 0). rewrite <- Zle_Qle.
  apply round_half_even_ge. change (inject_Z 0) with 0.
  apply Qle_shift_div_l; [exact Hq | lra].
Qed.

Lemma quantum_mono (x y : Q) : 0 < x -> x <= y -> (quantum x <= quantum y)%Z.
Proof.
  intros Hx Hxy. unfold quantum.
  pose proof (ilog2_mono x y Hx Hxy). lia.
Qed.

(** Rounding keeps the order of positive numbers. *)
Lemma rnd_pos_mono (x y : Q) : 0 < x -> x <= y -> rnd_pos x <= rnd_pos y.
Proof.
  intros Hx Hxy.
  assert (Hy : 0 < y) by lra.
  pose proof (quantum_mono x y Hx Hxy) as Hq.
  destruct (Z.eq_dec (quantum x) (quantum y)) as [E|E].
  - unfold rnd_pos. rewrite E. set (q := pow2 (quantum y)).
    assert (Hq0 : 0 < q) by apply pow2_pos.
    apply Qmult_le_compat_r; [|lra].
    rewrite <- Zle_Qle. apply round_half_even_mono.
    apply Qle_shift_div_l; [exact Hq0|]. rewrite scaled_back by exact Hq0.
    exact Hxy.
  - destruct (ilog2_spec x Hx) as [_ Hxhi].
    destruct (ilog2_spec y Hy) as [Hylo _].
    assert (Hlt : (quantum x < quantum y)%Z) by lia.
    unfold quantum in Hlt, Hq.
    assert (Hey : (ilog2 x + 1 <= ilog2 y)%Z) by lia.
    apply Qle_trans with (pow2 (ilog2 y)).
    + apply rnd_pos_le; [unfold quantum; lia|].
      pose proof (pow2_le _ _ Hey). lra.
    + apply rnd_pos_ge; [unfold quantum; lia | exact Hylo].
Qed.

(** *** Rounding any number *)

Lemma Qnum_pos (x : Q) : 0 < x <-> (0 < Qnum x)%Z.
Proof. unfold Qlt. simpl. lia. Qed.

Lemma Qnum_neg (x : Q) : x < 0 <-> (Qnum x < 0)%Z.
Proof. unfold Qlt. simpl. lia. Qed.

Lemma Qnum_zero (x : Q) : x == 0 <-> Qnum x = 0%Z.
Proof. unfold Qeq. simpl. lia. Qed.

Lemma rnd_comp (x y : Q) : x == y -> rnd x = rnd y.
Proof. intros H. unfold rnd. now rewrite (Qred_complete x y H). Qed.

Lemma rnd_of_pos (x : Q) : 0 < x -> rnd x == rnd_pos (Qred x).
Proof.
  intros Hx. unfold rnd. rewrite Qred_correct.
  assert (H : 0 < Qred x) by now rewrite Qred_correct.
  apply Qnum_pos in H. destruct (Qnum (Qred x)); try lia. reflexivity.
Qed.

Lemma rnd_of_neg (x : Q) : x < 0 -> rnd x == - rnd_pos (- Qred x).
Proof.
  intros Hx. unfold rnd. rewrite Qred_correct.
  assert (H : Qred x < 0) by now rewrite Qred_correct.
  apply Qnum_neg in H. destruct (Qnum (Qred x)); try lia. reflexivity.
Qed.

Lemma rnd_of_zero (x : Q) : x == 0 -> rnd x == 0.
Proof.
  intros Hx. rewrite (rnd_comp x 0 Hx). reflexivity.
Qed.

Lemma rnd_nonneg (x : Q) : 0 <= x -> 0 <= rnd x.
Proof.
  intros Hx. destruct (Qlt_le_dec 0 x) as [H|H].
  - rewrite (rnd_of_pos x H). apply rnd_pos_nonneg. rewrite Qred_correct. lra.
  - rewrite (rnd_of_zero x); [lra | apply Qle_antisym; assumption].
Qed.

Lemma rnd_nonpos (x : Q) : x <= 0 -> rnd x <= 0.
Proof.
  intros Hx. destruct (Qlt_le_dec x 0) as [H|H].
  - rewrite (rnd_of_neg x H).
    assert (G : 0 <= rnd_pos (- Qred x)).
    { apply rnd_pos_nonneg. rewrite Qred_correct. lra. }
    lra.
  - rewrite (rnd_of_zero x); [lra | apply Qle_antisym; assumption].
Qed.

(** Rounding to the nearest double keeps the order. *)
Lemma rnd_mono (x y : Q) : x <= y -> rnd x <= rnd y.
Proof.
  intros Hxy.
  destruct (Qlt_le_dec 0 x) as [Hx|Hx].
  - rewrite (rnd_of_pos x Hx), (rnd_of_pos y) by lra.
    apply rnd_pos_mono; rewrite !Qred_correct; assumption.
  - destruct (Qlt_le_dec y 0) as [Hy|Hy].
    + rewrite (rnd_of_neg y Hy), (rnd_of_neg x) by lra.
      apply Qopp_le_compat.
      apply rnd_pos_mono; rewrite !Qred_correct; lra.
    + apply Qle_trans with 0; [now apply rnd_nonpos | now apply rnd_nonneg].
Qed.

(** The error of one rounding. *)
Lemma rnd_err (x : Q) :
  0 < x -> Qabs (rnd x - x) <= pow2 (quantum x) * (1 # 2).
Proof.
  intros Hx. rewrite (rnd_of_pos x Hx).
  pose proof (rnd_pos_err (Qred x)) as H.
  pose proof (Qred_correct x) as Hr.
  assert (E : quantum (Qred x) = quantum x).
  { unfold quantum. f_equal. f_equal.
    apply Z.le_antisymm; apply ilog2_mono; lra. }
  rewrite E in H.
  apply Qabs_Qle_condition in H. apply Qabs_Qle_condition. lra.
Qed.


(** *** Error bounds *)

(** In the normal range one rounding changes a number by at most the
    fraction 2^-53 of it. *)
Lemma rnd_rel (x : Q) :
  pow2 (-1022) <= x ->
  x * (1 - unit_roundoff) <= rnd x /\ rnd x <= x * (1 + unit_roundoff).
Proof.
  intros Hx.
  assert (Hpos : 0 < x) by (pose proof (pow2_pos (-1022)); lra).
  pose proof (ilog2_ge x _ Hx) as He.
  destruct (ilog2_spec x Hpos) as [Hlo _].
  pose proof (rnd_err x Hpos) as H.
  assert (Eq : quantum x = (ilog2 x + (-52))%Z) by (unfold quantum, emin; lia).
  rewrite Eq, pow2_plus in H.
  assert (Eu : pow2 (-52) * (1 # 2) == unit_roundoff) by reflexivity.
  apply Qabs_Qle_condition in H.
  set (p := pow2 (ilog2 x)) in *.
  assert (Hp : 0 < p) by apply pow2_pos.
  assert (G : p * pow2 (-52) * (1 # 2) <= x * unit_roundoff).
  { rewrite <- Qmult_assoc, Eu. apply Qmult_le_compat_r; [exact Hlo|].
    discriminate. }
  split; lra.
Qed.

(** Below 128 one rounding changes a number by at most 2^-47. *)
Lemma rnd_abs_128 (x : Q) :
  0 <= x -> x < 128 -> Qabs (rnd x - x) <= 1 # 140737488355328.
Proof.
  intros H0 H128. destruct (Qlt_le_dec 0 x) as [Hpos|Hz].
  - pose proof (rnd_err x Hpos) as H.
    assert (He : (ilog2 x < 7)%Z).
    { apply ilog2_lt; [exact Hpos|]. exact H128. }
    assert (Hq : (quantum x <= -46)%Z) by (unfold quantum, emin; lia).
    pose proof (pow2_le _ _ Hq) as Hp.
    assert (E : pow2 (-46) * (1 # 2) == 1 # 140737488355328) by reflexivity.
    apply Qabs_Qle_condition in H. apply Qabs_Qle_condition.
    pose proof (pow2_pos (quantum x)). lra.
  - assert (E : x == 0) by (apply Qle_antisym; assumption).
    rewrite (rnd_of_zero x E). apply Qabs_Qle_condition. lra.
Qed.

(** Integers below 2^53 are doubles. *)
Lemma rnd_pos_int (k : Z) :
  (0 < k < 2 ^ 53)%Z -> rnd_pos (inject_Z k) == inject_Z k.
Proof.
  intros Hk.
  assert (Hpos : 0 < inject_Z k).
  { change 0 with (inject_Z 0). rewrite <- Zlt_Qlt. lia. }
  assert (He : (ilog2 (inject_Z k) < 53)%Z).
  { apply ilog2_lt; [exact Hpos|]. rewrite pow2_Z by lia.
    rewrite <- Zlt_Qlt. lia. }
  assert (Hq : (quantum (inject_Z k) <= 0)%Z) by (unfold quantum, emin; lia).
  unfold rnd_pos. set (q := quantum (inject_Z k)) in *.
  assert (Hq0 : 0 < pow2 q) by apply pow2_pos.
  assert (E : inject_Z k / pow2 q == inject_Z (k * 2 ^ (- q))).
  { rewrite inject_Z_mult, <- pow2_Z by lia.
    unfold Qdiv, pow2. now rewrite Qpower_opp. }
  assert (R : round_half_even (inject_Z k / pow2 q) = (k * 2 ^ (- q))%Z).
  { rewrite <- (round_half_even_Z (k * 2 ^ (- q))).
    apply Z.le_antisymm; apply round_half_even_mono; rewrite E; apply Qle_refl. }
  rewrite R, inject_Z_mult, <- pow2_Z by lia.
  rewrite <- Qmult_assoc, <- pow2_plus.
  replace (- q + q)%Z with 0%Z by lia. change (pow2 0) with 1. ring.
Qed.

Lemma Qred_inject_Z (k : Z) : Qred (inject_Z k) = inject_Z k.
Proof.
  unfold Qred, inject_Z.
  pose proof (Z.ggcd_gcd k 1) as Hg.
  pose proof (Z.ggcd_correct_divisors k 1) as Hd.
  destruct (Z.ggcd k 1) as [g [aa bb]]. simpl in Hg. simpl snd.
  rewrite Z.gcd_1_r in Hg. subst g. destruct Hd as [Ha Hb].
  assert (Ea : aa = k) by lia. assert (Eb : bb = 1%Z) by lia.
  rewrite Ea, Eb. reflexivity.
Qed.

Lemma of_int_exact (k : Z) : (Z.abs k < 2 ^ 53)%Z -> of_int k == inject_Z k.
Proof.
  intros Hk. unfold of_int.
  destruct (Z.lt_trichotomy k 0) as [H|[H|H]].
  - assert (Hneg : inject_Z k < 0).
    { change 0 with (inject_Z 0). now rewrite <- Zlt_Qlt. }
    rewrite (rnd_of_neg _ Hneg).
    assert (E : - Qred (inject_Z k) = inject_Z (- k)).
    { rewrite Qred_inject_Z. reflexivity. }
    rewrite E, rnd_pos_int by lia. rewrite inject_Z_opp. ring.
  - subst k. reflexivity.
  - assert (Hpos : 0 < inject_Z k).
    { change 0 with (inject_Z 0). now rewrite <- Zlt_Qlt. }
    rewrite (rnd_of_pos _ Hpos).
    rewrite Qred_inject_Z. apply rnd_pos_int. lia.
Qed.


(** *** Python's [round] on doubles *)

Lemma scale_pos (ndigits : Z) :
  (0 <= ndigits)%Z -> 0 < inject_Z (10 ^ ndigits).
Proof.
  intros H. change 0 with (inject_Z 0). rewrite <- Zlt_Qlt.
  apply Z.pow_pos_nonneg; lia.
Qed.

(** [round] is monotone. *)
Lemma round_mono (x y : Q) (ndigits : Z) :
  (0 <= ndigits)%Z -> x <= y -> round x ndigits <= round y ndigits.
Proof.
  intros Hn Hxy. unfold round. apply rnd_mono.
  pose proof (scale_pos ndigits Hn) as Hs.
  set (sc := inject_Z (10 ^ ndigits)) in *.
  assert (Hm : x * sc <= y * sc) by (apply Qmult_le_compat_r; lra).
  apply round_half_even_mono in Hm. rewrite Zle_Qle in Hm.
  apply Qle_shift_div_l; [exact Hs|].
  unfold Qdiv. rewrite <- Qmult_assoc, (Qmult_comm (/ sc)), Qmult_inv_r by lra.
  lra.
Qed.

Lemma round_comp (x y : Q) (ndigits : Z) :
  (0 <= ndigits)%Z -> x == y -> round x ndigits == round y ndigits.
Proof.
  intros Hn Hxy. apply Qle_antisym; apply round_mono; try exact Hn;
    rewrite Hxy; apply Qle_refl.
Qed.

(** A whole number rounds to the double next to it, which is the number
    itself below 2^53. *)
Lemma round_of_int (k ndigits : Z) :
  (0 <= ndigits)%Z -> round (inject_Z k) ndigits = of_int k.
Proof.
  intros Hn. unfold round, of_int. apply rnd_comp.
  pose proof (scale_pos ndigits Hn) as Hs.
  rewrite <- inject_Z_mult, round_half_even_Z, inject_Z_mult.
  field. lra.
Qed.

Lemma round_Z (k ndigits : Z) :
  (0 <= ndigits)%Z -> (Z.abs k < 2 ^ 53)%Z ->
  round (inject_Z k) ndigits == inject_Z k.
Proof.
  intros Hn Hk. rewrite round_of_int by exact Hn. now apply of_int_exact.
Qed.

(** Rounding keeps a value between two whole bounds. *)
Lemma round_between (x : Q) (a b ndigits : Z) :
  (0 <= ndigits)%Z -> (Z.abs a < 2 ^ 53)%Z -> (Z.abs b < 2 ^ 53)%Z ->
  inject_Z a <= x <= inject_Z b ->
  inject_Z a <= round x ndigits <= inject_Z b.
Proof.
  intros Hn Ha Hb [Hlo Hhi]. split.
  - rewrite <- (round_Z a ndigits Hn Ha). now apply round_mono.
  - rewrite <- (round_Z b ndigits Hn Hb). now apply round_mono.
Qed.

(** Below 127, [round(x, 2)] is within 0.005 of [x], up to the last
    rounding to a double. *)
Lemma round2_close (x : Q) :
  0 <= x -> x <= 127 ->
  Qabs (round x 2 - x) <= (1 # 200) + (1 # 140737488355328).
Proof.
  intros H0 H1. unfold round. change (inject_Z (10 ^ 2)) with 100.
  pose proof (round_half_even_close (x * 100)) as H.
  apply Qabs_Qle_condition in H.
  assert (Hk0 : 0 <= inject_Z (round_half_even (x * 100))).
  { change 0 with (inject_Z 0). rewrite <- Zle_Qle.
    apply round_half_even_ge. change (inject_Z 0) with 0. lra. }
  set (k := inject_Z (round_half_even (x * 100))) in *.
  assert (Hk : k / 100 == k * (1 # 100)) by (unfold Qdiv; reflexivity).
  assert (Hr : Qabs (rnd (k / 100) - k / 100) <= 1 # 140737488355328).
  { apply rnd_abs_128; rewrite Hk; lra. }
  set (r := rnd (k / 100)) in *.
  apply Qabs_Qle_condition in Hr. apply Qabs_Qle_condition.
  rewrite Hk in Hr. split; lra.
Qed.

(** *** Percentages: [100.0 * a / b] for two counts *)

Lemma of_int_mono (a b : Z) : (a <= b)%Z -> of_int a <= of_int b.
Proof. intros H. apply rnd_mono. now rewrite <- Zle_Qle. Qed.

Lemma of_int_ge_1 (b : Z) : (1 <= b)%Z -> 1 <= of_int b.
Proof. intros H. apply (of_int_mono 1 b H). Qed.

Lemma of_int_nonneg (a : Z) : (0 <= a)%Z -> 0 <= of_int a.
Proof. intros H. apply (of_int_mono 0 a H). Qed.

Lemma normal_of_ge_1 (x : Q) : 1 <= x -> pow2 (-1022) <= x.
Proof.
  intros H. apply Qle_trans with 1; [|exact H].
  change 1 with (pow2 0). apply pow2_le. lia.
Qed.

(** The quotient the percentage is rounded from. *)
Lemma percent_raw_bounds (a b : Z) :
  (0 <= a <= b)%Z -> (1 <= b)%Z ->
  0 <= mul 100 (of_int a) / of_int b <= 100 * (1 + unit_roundoff).
Proof.
  intros Ha Hb.
  pose proof (of_int_nonneg a ltac:(lia)) as HA.
  pose proof (of_int_mono a b ltac:(lia)) as HAB.
  pose proof (of_int_ge_1 b Hb) as HB.
  set (A := of_int a) in *. set (B := of_int b) in *.
  assert (HP0 : 0 <= mul 100 A).
  { apply rnd_nonneg. lra. }
  assert (HP1 : mul 100 A <= 100 * B * (1 + unit_roundoff)).
  { apply Qle_trans with (rnd (100 * B)).
    - apply rnd_mono. lra.
    - apply rnd_rel. apply normal_of_ge_1. lra. }
  split.
  - apply Qle_shift_div_l; lra.
  - apply Qle_shift_div_r; [lra|].
    unfold unit_roundoff in *. lra.
Qed.

Lemma percent_range (a b : Z) :
  (0 <= a <= b)%Z -> (1 <= b)%Z ->
  0 <= round (div (mul 100 (of_int a)) (of_int b)) 2 <= 100.
Proof.
  intros Ha Hb.
  destruct (percent_raw_bounds a b Ha Hb) as [H0 H1].
  split.
  - apply Qle_trans with (round (rnd 0) 2); [vm_compute; discriminate|].
    apply round_mono; [lia|]. apply rnd_mono. exact H0.
  - apply Qle_trans with (round (rnd (100 * (1 + unit_roundoff))) 2);
      [|vm_compute; discriminate].
    apply round_mono; [lia|]. apply rnd_mono. exact H1.
Qed.

(** All of them: exactly 100. *)
Lemma percent_all (b : Z) :
  (1 <= b)%Z -> round (div (mul 100 (of_int b)) (of_int b)) 2 == 100.
Proof.
  intros Hb.
  pose proof (of_int_ge_1 b Hb) as HB.
  set (B := of_int b) in *.
  destruct (rnd_rel (100 * B)) as [HP0 HP1].
  { apply normal_of_ge_1. lra. }
  fold (mul 100 B) in HP0, HP1.
  assert (H0 : 100 * (1 - unit_roundoff) <= mul 100 B / B).
  { apply Qle_shift_div_l; [lra|]. unfold unit_roundoff in *. lra. }
  assert (H1 : mul 100 B / B <= 100 * (1 + unit_roundoff)).
  { apply Qle_shift_div_r; [lra|]. unfold unit_roundoff in *. lra. }
  apply Qle_antisym.
  - apply Qle_trans with (round (rnd (100 * (1 + unit_roundoff))) 2);
      [|vm_compute; discriminate].
    apply round_mono; [lia|]. apply rnd_mono. exact H1.
  - apply Qle_trans with (round (rnd (100 * (1 - unit_roundoff))) 2);
      [vm_compute; discriminate|].
    apply round_mono; [lia|]. apply rnd_mono. exact H0.
Qed.

(** None of them: exactly 0. *)
Lemma percent_none (b : Z) :
  round (div (mul 100 (of_int 0)) (of_int b)) 2 == 0.
Proof.
  assert (E : mul 100 (of_int 0) / of_int b == 0).
  { change (mul 100 (of_int 0)) with 0. unfold Qdiv. ring. }
  unfold div. rewrite (rnd_comp _ _ E). reflexivity.
Qed.


(** How far the double quotient is from the exact one. *)
Lemma percent_raw_close (a b : Z) :
  (0 <= a <= b)%Z -> (1 <= b)%Z ->
  Qabs (mul 100 (of_int a) / of_int b - 100 * inject_Z a / inject_Z b)
  <= 1 # 10000000000000.
Proof.
  intros Ha Hb.
  assert (Hb' : 1 <= inject_Z b).
  { change 1 with (inject_Z 1). rewrite <- Zle_Qle. lia. }
  destruct (Z.eq_dec a 0) as [Ez|Ez].
  - subst a. change (mul 100 (of_int 0)) with 0.
    apply Qabs_Qle_condition.
    assert (E1 : 0 / of_int b == 0) by (unfold Qdiv; ring).
    assert (E2 : 100 * inject_Z 0 / inject_Z b == 0).
    { change (inject_Z 0) with 0. unfold Qdiv. ring. }
    rewrite E1, E2. split; discriminate.
  - assert (Ha' : 1 <= inject_Z a).
    { change 1 with (inject_Z 1). rewrite <- Zle_Qle. lia. }
    assert (Hab : inject_Z a <= inject_Z b) by (rewrite <- Zle_Qle; lia).
    destruct (rnd_rel (inject_Z a) (normal_of_ge_1 _ Ha')) as [HA0 HA1].
    destruct (rnd_rel (inject_Z b) (normal_of_ge_1 _ Hb')) as [HB0 HB1].
    fold (of_int a) in HA0, HA1. fold (of_int b) in HB0, HB1.
    pose proof (of_int_ge_1 a ltac:(lia)) as HA.
    pose proof (of_int_ge_1 b Hb) as HB.
    set (A := of_int a) in *. set (B := of_int b) in *.
    destruct (rnd_rel (100 * A)) as [HP0 HP1].
    { apply normal_of_ge_1. lra. }
    fold (mul 100 A) in HP0, HP1.
    set (P := mul 100 A) in *.
    set (x := inject_Z a) in *. set (y := inject_Z b) in *.
    set (E := 100 * x / y).
    assert (HE : E * y == 100 * x) by (unfold E; field; lra).
    assert (HE0 : 0 <= E).
    { unfold E. apply Qle_shift_div_l; lra. }
    assert (HE1 : E <= 100).
    { unfold E. apply Qle_shift_div_r; lra. }
    unfold unit_roundoff in *.
    (* E * B lies between E * y * (1 - u) and E * y * (1 + u) *)
    assert (HEB0 : E * (y * (1 - (1 # 9007199254740992))) <= E * B).
    { rewrite !(Qmult_comm E). apply Qmult_le_compat_r; assumption. }
    assert (HEB1 : E * B <= E * (y * (1 + (1 # 9007199254740992)))).
    { rewrite !(Qmult_comm E). apply Qmult_le_compat_r; assumption. }
    assert (HEB2 : E * B <= 100 * B).
    { apply Qmult_le_compat_r; lra. }
    apply Qabs_Qle_condition. split.
    + apply Qplus_le_l with E. ring_simplify.
      apply Qle_shift_div_l; [lra|].
      lra.
    + apply Qplus_le_l with E. ring_simplify.
      apply Qle_shift_div_r; [lra|].
      lra.
Qed.


(** The reported percentage is within 0.005 of the exact quotient, up to
    the rounding of the double arithmetic (below 1e-12). *)
Lemma percent_close (a b : Z) :
  (0 <= a <= b)%Z -> (1 <= b)%Z ->
  Qabs (round (div (mul 100 (of_int a)) (of_int b)) 2
        - 100 * inject_Z a / inject_Z b)
  <= (1 # 200) + (1 # 1000000000000).
Proof.
  intros Ha Hb.
  pose proof (percent_raw_close a b Ha Hb) as Hraw.
  destruct (percent_raw_bounds a b Ha Hb) as [HY0 HY1].
  unfold div. set (Y := mul 100 (of_int a) / of_int b) in *.
  set (E := 100 * inject_Z a / inject_Z b) in *.
  unfold unit_roundoff in HY1.
  pose proof (rnd_abs_128 Y HY0 ltac:(lra)) as HX.
  pose proof (rnd_nonneg Y HY0) as HX0.
  set (X := rnd Y) in *.
  apply Qabs_Qle_condition in Hraw. apply Qabs_Qle_condition in HX.
  pose proof (round2_close X HX0 ltac:(lra)) as HR.
  apply Qabs_Qle_condition in HR. apply Qabs_Qle_condition.
  split; lra.
Qed.


(** *** Fractions of a count *)

Lemma mask_count_bounds (mask : list bool) :
  (0 <= Py.sum (map (fun b : bool => if b then 1 else 0) mask)
   <= Py.len mask)%Z.
Proof.
  unfold Py.len.
  induction mask as [|b l IH]; simpl Py.sum; simpl List.length; [lia|].
  destruct b; lia.
Qed.

Lemma mask_count_le {A : Type} (p q : A -> bool) (l : list A) :
  (forall x, p x = true -> q x = true) ->
  (Py.sum (map (fun b : bool => if b then 1 else 0) (map p l))
   <= Py.sum (map (fun b : bool => if b then 1 else 0) (map q l)))%Z.
Proof.
  intros Hpq. induction l as [|x l IH]; simpl; [lia|].
  specialize (Hpq x). destruct (p x), (q x); lia.
Qed.

(** The mean of a mask is a double between 0 and 1. *)
Lemma np_mean_mask_unit (mask : list bool) :
  (0 < Py.len mask)%Z -> 0 <= np_mean_mask mask <= 1.
Proof.
  intros Hlen. unfold np_mean_mask, div.
  pose proof (mask_count_bounds mask) as Hc.
  set (c := Py.sum _) in *.
  pose proof (of_int_nonneg c ltac:(lia)) as HC.
  pose proof (of_int_mono c (Py.len mask) ltac:(lia)) as HCN.
  pose proof (of_int_ge_1 (Py.len mask) ltac:(lia)) as HN.
  split.
  - apply rnd_nonneg. apply Qle_shift_div_l; lra.
  - change 1 with (rnd 1). apply rnd_mono.
    apply Qle_shift_div_r; lra.
Qed.

(** A larger count over the same length gives a larger mean. *)
Lemma count_fraction_mono (c1 c2 n : Z) :
  (c1 <= c2)%Z -> (0 < n)%Z ->
  div (of_int c1) (of_int n) <= div (of_int c2) (of_int n).
Proof.
  intros Hc Hn. unfold div. apply rnd_mono.
  pose proof (of_int_mono c1 c2 Hc) as H.
  pose proof (of_int_ge_1 n ltac:(lia)) as HN.
  apply Qle_shift_div_l; [lra|].
  unfold Qdiv. rewrite <- Qmult_assoc, (Qmult_comm (/ _)), Qmult_inv_r by lra.
  lra.
Qed.

(** *** The pairwise sum *)

Lemma pairwise_sum_eq (fuel : nat) (a : list Q) :
  pairwise_sum fuel a
  = let n := List.length a in
    if (n <? 8)%nat then sum_loop 0 a
    else if (n <=? 128)%nat then
      let '(r, rest) := unrolled (n / 8 - 1) (firstn 8 a) (skipn 8 a) in
      let r_ i := nth i r 0 in
      sum_loop (add (add (add (r_ 0%nat) (r_ 1%nat)) (add (r_ 2%nat) (r_ 3%nat)))
                    (add (add (r_ 4%nat) (r_ 5%nat)) (add (r_ 6%nat) (r_ 7%nat))))
               rest
    else
      match fuel with
      | O => 0
      | S fuel' =>
          let n2 := (n / 2 - (n / 2) mod 8)%nat in
          add (pairwise_sum fuel' (firstn n2 a))
              (pairwise_sum fuel' (skipn n2 a))
      end.
Proof. destruct fuel; reflexivity. Qed.

(** The fuel [np_sum] gives is enough: any larger amount gives the same
    sum, so the fuel never runs out. *)
Lemma pairwise_sum_fuel (f1 f2 : nat) (a : list Q) :
  (List.length a <= f1)%nat -> (List.length a <= f2)%nat ->
  pairwise_sum f1 a = pairwise_sum f2 a.
Proof.
  revert f2 a. induction f1 as [|f1 IH]; intros f2 a H1 H2;
    rewrite (pairwise_sum_eq _ a), (pairwise_sum_eq f2 a); cbv zeta.
  - assert (E : List.length a = 0%nat) by lia. rewrite E. reflexivity.
  - destruct (Nat.ltb_spec (List.length a) 8) as [H8|H8]; [reflexivity|].
    destruct (Nat.leb_spec (List.length a) 128) as [H128|H128]; [reflexivity|].
    destruct f2 as [|f2]; [lia|].
    set (n := List.length a) in *.
    assert (Hdiv : (64 <= n / 2 /\ n / 2 < n)%nat).
    { split; [apply Nat.div_le_lower_bound; lia|].
      apply Nat.div_lt; lia. }
    assert (Hmod : ((n / 2) mod 8 < 8)%nat) by (apply Nat.mod_upper_bound; lia).
    assert (Hle : ((n / 2) mod 8 <= n / 2)%nat) by (apply Nat.Div0.mod_le).
    set (n2 := (n / 2 - (n / 2) mod 8)%nat) in *.
    assert (Hn2 : (0 < n2 < n)%nat) by (unfold n2; lia).
    f_equal; apply IH;
      rewrite ?length_firstn, ?length_skipn; fold n; lia.
Qed.

End FloatFacts.

Module QCFacts.
Import Num Float QC.

Lemma count_bounds (c : ascii) (s : string) :
  (0 <= Str.count c s <= Str.len s)%Z.
Proof.
  unfold Str.len. induction s as [|d s IH]; simpl String.length; simpl Str.count.
  - lia.
  - destruct (Ascii.eqb d c); lia.
Qed.

Lemma len_upper (s : string) : Str.len (Str.upper s) = Str.len s.
Proof.
  unfold Str.len. f_equal.
  induction s as [|c s IH]; simpl; [reflexivity | now rewrite IH].
Qed.

(** Three different letters cannot be counted more often than the string
    is long. *)
Lemma count_three (a b c : ascii) (s : string) :
  a <> b -> a <> c -> b <> c ->
  (Str.count a s + Str.count b s + Str.count c s <= Str.len s)%Z.
Proof.
  intros Hab Hac Hbc. unfold Str.len.
  induction s as [|d s IH]; simpl Str.count; simpl String.length; [lia|].
  destruct (Ascii.eqb_spec d a), (Ascii.eqb_spec d b), (Ascii.eqb_spec d c);
    subst; try contradiction; try congruence; lia.
Qed.

(** The tests of [TestComputeQCMetrics] that fix the composition fields. *)
Example test_gc_content :
  gc_percent (compute_qc_metrics (fun _ => 0%Q) "test" "test.ab1" "ab1"
                "ACGT" [30; 30; 30; 30]%Z 0 4 20 2) == 50.
Proof. vm_compute. reflexivity. Qed.

Example gc_percent_all_n :
  gc_percent (compute_qc_metrics (fun _ => 0%Q) "test" "test.ab1" "ab1"
                "NNNN" [5; 5; 5; 5]%Z 0 0 20 2) == 0
  /\ n_count (compute_qc_metrics (fun _ => 0%Q) "test" "test.ab1" "ab1"
                "NNNN" [5; 5; 5; 5]%Z 0 0 20 2) = 4%Z.
Proof. split; vm_compute; reflexivity. Qed.

Example test_q20_q30_percentages :
  pct_q20 (compute_qc_metrics (fun _ => 0%Q) "test" "test.ab1" "ab1"
             "ACGT" [20; 20; 10; 30]%Z 0 4 20 2) == 75 # 100
  /\ pct_q30 (compute_qc_metrics (fun _ => 0%Q) "test" "test.ab1" "ab1"
                "ACGT" [20; 20; 10; 30]%Z 0 4 20 2) == 25 # 100.
Proof. split; vm_compute; reflexivity. Qed.

(** Which way a percentage rounds is decided on the double: one G among
    4000 bases is 0.025 as a fraction, the double of the quotient lies just
    above it, and the field is 0.03.  One G among three bases gives the
    double next to 33.33. *)
Example gc_percent_on_doubles :
  gc_percent (compute_qc_metrics (fun _ => 0%Q) "s1" "s1.ab1" "ab1"
                (String "G" (Str.times "A" 3999)) [30]%Z 0 1 20 1)
  = rnd (3 # 100)
  /\ gc_percent (compute_qc_metrics (fun _ => 0%Q) "s1" "s1.ab1" "ab1"
                   "GAA" [30; 30; 30]%Z 0 3 20 1)
     = rnd (3333 # 100).
Proof. split; vm_compute; reflexivity. Qed.

(** Forty qualities with sum 1203: the mean 30.075 is the double just
    below it, and is reported as 30.07. *)
Example mean_q_on_doubles :
  mean_q (compute_qc_metrics (fun _ => 0%Q) "s1" "s1.ab1" "ab1" "A"
            (List.repeat 30 37 ++ [31; 31; 31])%Z 0 1 20 1)
  = rnd (3007 # 100).
Proof. vm_compute. reflexivity. Qed.

End QCFacts.

Module QCSpec.
Import Num Float QC QCFacts RoundFacts FloatFacts.

(** C9.  The GC percentage of the returned metrics is 100 times (count of G
    plus count of C) divided by (length minus count of N), the counts
    ignoring case, as the metrics report it: the quotient is computed on
    doubles as [100.0 * gc / non_n] and rounded to two decimals.  So the
    field is the double of a whole number of hundredths, it lies within
    0.005 of the exact quotient (up to 1e-12 for the roundings of the double
    arithmetic), and between 0 and 100.  It is 0 when the sequence has no
    non-N base, the empty sequence included. *)
Theorem gc_percent_rounded (phred_error : Q -> Q)
    (sample source fmt seq : string) (quals : list Z)
    (start end_ qthreshold min_length : Z) :
  let m := compute_qc_metrics phred_error sample source fmt seq quals
             start end_ qthreshold min_length in
  let gc := (Str.count "G" (Str.upper seq) + Str.count "C" (Str.upper seq))%Z in
  let non_n := (Str.len seq - Str.count "N" (Str.upper seq))%Z in
  (0 <= gc <= non_n)%Z /\
  ((0 < non_n)%Z ->
   gc_percent m = round (div (mul 100 (of_int gc)) (of_int non_n)) 2 /\
   (exists k : Z, gc_percent m = rnd (inject_Z k / 100)) /\
   (Qabs (gc_percent m - 100 * inject_Z gc / inject_Z non_n)
    <= (1 # 200) + (1 # 1000000000000))%Q /\
   (0 <= gc_percent m <= 100)%Q) /\
  (non_n = 0%Z -> (gc_percent m == 0)%Q).
Proof.
  intros m gc non_n.
  pose proof (count_bounds "G" (Str.upper seq)) as HG.
  pose proof (count_bounds "C" (Str.upper seq)) as HC.
  pose proof (count_three "G" "C" "N" (Str.upper seq) ltac:(discriminate)
                ltac:(discriminate) ltac:(discriminate)) as H3.
  rewrite len_upper in H3.
  split; [unfold gc, non_n; lia|].
  assert (Hgc : (0 <= gc <= non_n)%Z) by (unfold gc, non_n; lia).
  unfold m, compute_qc_metrics, gc_percent, gc_percent_raw.
  fold gc non_n. split.
  - intros Hpos. rewrite (proj2 (Z.ltb_lt 0 non_n) Hpos).
    split; [reflexivity|]. split; [|split].
    + exists (round_half_even
                (div (mul 100 (of_int gc)) (of_int non_n) * inject_Z (10 ^ 2))).
      reflexivity.
    + apply percent_close; lia.
    + apply percent_range; lia.
  - intros Hzero. rewrite Hzero. reflexivity.
Qed.

(** The theorem on the read [GAA], one G among three non-N bases, and on the
    read [NN], which has none. *)
Lemma gc_percent_rounded_witness :
  (Qabs (gc_percent (compute_qc_metrics (fun _ => 0%Q) "s1" "s1.ab1" "ab1"
                       "GAA" [30; 30; 30]%Z 0 3 20 1)
         - 100 * inject_Z 1 / inject_Z 3)
   <= (1 # 200) + (1 # 1000000000000))%Q
  /\ (gc_percent (compute_qc_metrics (fun _ => 0%Q) "s2" "s2.ab1" "ab1"
                    "NN" [5; 5]%Z 0 0 20 1) == 0)%Q.
Proof.
  split.
  - refine (proj1 (proj2 (proj2 (proj1 (proj2
              (gc_percent_rounded (fun _ => 0%Q) "s1" "s1.ab1" "ab1" "GAA"
                 [30; 30; 30]%Z 0 3 20 1)) _)))).
    reflexivity.
  - refine (proj2 (proj2 (gc_percent_rounded (fun _ => 0%Q) "s2" "s2.ab1"
                            "ab1" "NN" [5; 5]%Z 0 0 20 1)) _).
    reflexivity.
Defined.

(** C10.  For fixed identifiers, sequence, qualities, threshold and minimum
    length, the metrics computed for two trim ranges agree on every field
    other than [trim_start], [trim_end], [trimmed_length] and
    [passed_minlen]: those fields are computed from the whole read. *)
Theorem metrics_frame (phred_error : Q -> Q)
    (sample source fmt seq : string) (quals : list Z)
    (qthreshold min_length s1 e1 s2 e2 : Z) :
  let m1 := compute_qc_metrics phred_error sample source fmt seq quals
              s1 e1 qthreshold min_length in
  let m2 := compute_qc_metrics phred_error sample source fmt seq quals
              s2 e2 qthreshold min_length in
  sample_id m1 = sample_id m2 /\ source_file m1 = source_file m2 /\
  format m1 = format m2 /\ raw_length m1 = raw_length m2 /\
  mean_q m1 = mean_q m2 /\ median_q m1 = median_q m2 /\
  pct_q20 m1 = pct_q20 m2 /\ pct_q30 m1 = pct_q30 m2 /\
  gc_percent m1 = gc_percent m2 /\ n_count m1 = n_count m2 /\
  expected_errors m1 = expected_errors m2 /\
  hq_longest_stretch_len m1 = hq_longest_stretch_len m2.
Proof.
  intros m1 m2. unfold m1, m2, compute_qc_metrics. simpl.
  repeat split; reflexivity.
Qed.

(** The four remaining fields do follow the trim range. *)
Example metrics_trim_fields :
  let m1 := compute_qc_metrics (fun _ => 0%Q) "s1" "s1.ab1" "ab1"
              "ACGT" [30; 30; 30; 30]%Z 0 4 20 2 in
  let m2 := compute_qc_metrics (fun _ => 0%Q) "s1" "s1.ab1" "ab1"
              "ACGT" [30; 30; 30; 30]%Z 1 2 20 2 in
  trim_start m1 <> trim_start m2 /\ trim_end m1 <> trim_end m2 /\
  trimmed_length m1 <> trimmed_length m2 /\
  passed_minlen m1 = "yes"%string /\ passed_minlen m2 = "no"%string.
Proof. simpl. repeat split; discriminate. Qed.

End QCSpec.

(** ** More on the two trimming algorithms *)

Module TrimMoreFacts.
Import Trim TrimInv PyFacts MottFacts EndsFacts.

Lemma mott_ends_inv_init (wt : Z -> Z) : mott_ends_inv wt mott_init 0.
Proof. constructor; simpl; lia. Qed.

Lemma mott_ends_inv_step (pre wt : Z -> Z) (st : mott_state) (i val : Z) :
  0 <= i -> pre (i + 1) = pre i + val -> wt i = val ->
  mott_inv pre st i -> mott_ends_inv wt st i ->
  mott_ends_inv wt (mott_step st i val) (i + 1).
Proof.
  intros Hi Hpre Hwt [Hcb Hcs Hcm Hcst Hbb Hbs Hbm Hbf Hbn] [Hec Heb].
  assert (Hle : cur_sum st <= max_sum st).
  { rewrite Hcs. apply Hbm; lia. }
  assert (Hzero : cur_start st = i -> cur_sum st = 0).
  { intros E. rewrite Hcs, E. lia. }
  assert (Hfirst : 0 < cur_sum st + val -> 0 < wt (cur_start st)).
  { intros Hpos. destruct (Z.eq_dec (cur_start st) i) as [E|E].
    - rewrite E, Hwt. specialize (Hzero E). lia.
    - apply Hec. lia. }
  unfold mott_step.
  destruct (Z.leb_spec (cur_sum st + val) 0) as [Hreset|Hpos];
    [|destruct (Z.ltb_spec (max_sum st) (cur_sum st + val)) as [Hbetter|Hsame]];
    constructor; simpl; intros; auto; try lia.
  split; [apply Hfirst; lia|].
  replace (i + 1 - 1) with i by lia. rewrite Hwt. lia.
Qed.

Lemma nth_middle_Z (done rest : list Z) (v : Z) :
  nth (Z.to_nat (Py.len done)) (done ++ v :: rest) 0 = v.
Proof.
  unfold Py.len. rewrite Nat2Z.id. apply nth_middle.
Qed.

(** Both invariants hold when the loop ends. *)
Lemma mott_both_inv_loop (w : list Z) :
  forall (rest done : list Z) (st : mott_state),
    w = done ++ rest ->
    mott_inv (Py.prefix w) st (Py.len done) ->
    mott_ends_inv (fun k => nth (Z.to_nat k) w 0) st (Py.len done) ->
    mott_ends_inv (fun k => nth (Z.to_nat k) w 0)
                  (mott_loop st (Py.len done) rest) (Py.len w).
Proof.
  induction rest as [|v rest IH]; intros done st Hw Hinv Hends; simpl.
  - rewrite app_nil_r in Hw. subst done. exact Hends.
  - replace (Py.len done + 1) with (Py.len (done ++ [v])).
    2:{ rewrite len_app. reflexivity. }
    assert (Hpre : Py.prefix w (Py.len done + 1) = Py.prefix w (Py.len done) + v).
    { subst w. apply prefix_snoc. }
    assert (Hwt : nth (Z.to_nat (Py.len done)) w 0 = v).
    { subst w. apply nth_middle_Z. }
    apply IH.
    + rewrite <- app_assoc. exact Hw.
    + rewrite len_app. change (Py.len [v]) with 1.
      apply mott_inv_step; [apply len_nonneg | exact Hpre | exact Hinv].
    + rewrite len_app. change (Py.len [v]) with 1.
      apply (mott_ends_inv_step (Py.prefix w)); auto using len_nonneg.
Qed.

(** What [trim_mott] returns, with both invariants. *)
Lemma trim_mott_both_inv (quals : list Z) (threshold : Z) :
  exists st,
    trim_mott quals threshold = (best_start st, best_end st) /\
    mott_inv (Py.prefix (map (fun q => q - threshold) quals)) st (Py.len quals) /\
    mott_ends_inv (fun k => nth (Z.to_nat k)
                              (map (fun q => q - threshold) quals) 0)
                  st (Py.len quals).
Proof.
  destruct quals as [|q quals].
  - exists mott_init. split; [reflexivity|].
    split; [apply mott_inv_init | apply mott_ends_inv_init].
  - exists (mott_loop mott_init 0 (map (fun q => q - threshold) (q :: quals))).
    split; [reflexivity|].
    rewrite <- (len_map (fun q => q - threshold)).
    split.
    + apply (mott_inv_loop _ _ []); [reflexivity | apply mott_inv_init].
    + apply (mott_both_inv_loop _ _ []);
        [reflexivity | apply mott_inv_init | apply mott_ends_inv_init].
Qed.

(** The weight at an index of the list, read back as a quality. *)
Lemma weight_at (quals : list Z) (threshold k : Z) :
  0 <= k < Py.len quals ->
  exists q, Py.index quals k = Some q /\
            nth (Z.to_nat k) (map (fun q => q - threshold) quals) 0
            = q - threshold.
Proof.
  intros Hk. rewrite index_nonneg by lia.
  assert (Hlt : (Z.to_nat k < List.length quals)%nat)
    by (unfold Py.len in Hk; lia).
  exists (nth (Z.to_nat k) quals 0). split.
  - now apply nth_error_nth'.
  - rewrite (nth_indep _ 0 ((fun q => q - threshold) 0))
      by (rewrite length_map; exact Hlt).
    exact (map_nth (fun q => q - threshold) quals 0 (Z.to_nat k)).
Qed.

(** A non-empty window returned by [trim_mott] starts and ends on a base
    whose quality is above the threshold. *)
Lemma trim_mott_end_quals (quals : list Z) (threshold s e : Z) :
  trim_mott quals threshold = (s, e) -> s < e ->
  (0 <= s /\ e <= Py.len quals) /\
  exists qs qe,
    Py.index quals s = Some qs /\ threshold < qs /\
    Py.index quals (e - 1) = Some qe /\ threshold < qe.
Proof.
  intros Hres Hlt.
  destruct (trim_mott_both_inv quals threshold) as (st & Hst & Hinv & Hends).
  rewrite Hres in Hst. injection Hst as -> ->.
  destruct Hinv as [_ _ _ _ Hbb _ _ _ _].
  destruct Hends as [_ Heb].
  destruct (Heb Hlt) as [Hfirst Hlast].
  destruct (weight_at quals threshold (best_start st) ltac:(lia))
    as (qs & Hqs & Hws).
  destruct (weight_at quals threshold (best_end st - 1) ltac:(lia))
    as (qe & Hqe & Hwe).
  split; [lia|]. exists qs, qe. repeat split; auto; lia.
Qed.

End TrimMoreFacts.

Module TrimCompose.
Import Trim TrimInv PyFacts MottFacts EndsFacts TrimMoreFacts ApplyFacts.

Lemma nth_error_slice {A : Type} (l : list A) (s e : Z) (k : nat) :
  0 <= s <= e -> e <= Py.len l -> (k < Z.to_nat (e - s))%nat ->
  nth_error (Py.slice l s e) k = nth_error l (Z.to_nat s + k).
Proof.
  intros Hs He Hk. rewrite slice_in_range by lia.
  rewrite nth_error_firstn, nth_error_skipn.
  now destruct (Nat.ltb_spec k (Z.to_nat (e - s))); [|lia].
Qed.

Lemma length_slice {A : Type} (l : list A) (s e : Z) :
  0 <= s <= e -> e <= Py.len l ->
  List.length (Py.slice l s e) = Z.to_nat (e - s).
Proof.
  intros Hs He. pose proof (len_slice l s e Hs He) as H.
  unfold Py.len in H. lia.
Qed.

(** A slice that covers the whole list is the list. *)
Lemma slice_all {A : Type} (l : list A) (n : Z) :
  Py.len l = n -> Py.slice l 0 n = l.
Proof.
  intros <-. rewrite slice_in_range by (pose proof (len_nonneg l); lia).
  simpl skipn. rewrite Z.sub_0_r. unfold Py.len. rewrite Nat2Z.id.
  apply firstn_all.
Qed.

(** So is a slice from 0 whose end reaches past the list. *)
Lemma slice_whole {A : Type} (l : list A) (n : Z) :
  Py.len l <= n -> Py.slice l 0 n = l.
Proof.
  intros Hn. pose proof (len_nonneg l) as H0.
  unfold Py.slice, Py.adjust.
  destruct (Z.ltb_spec 0 0); [lia|].
  destruct (Z.ltb_spec n 0); [lia|].
  rewrite (Z.min_l 0), (Z.min_r n) by lia. simpl skipn.
  rewrite Z.sub_0_r. unfold Py.len. rewrite Nat2Z.id. apply firstn_all.
Qed.

Lemma str_slice_all (s : string) (n : Z) :
  Str.len s = n -> Py.str_slice s 0 n = s.
Proof.
  intros H. unfold Py.str_slice.
  rewrite slice_all by (now rewrite len_list_of_string).
  apply string_of_list_ascii_of_string.
Qed.

Lemma slice_empty {A : Type} (l : list A) : Py.slice l 0 0 = [].
Proof.
  rewrite slice_in_range by (pose proof (len_nonneg l); lia). reflexivity.
Qed.

(** Prefix sums of the weights of a slice. *)
Lemma prefix_slice (w : list Z) (s e k : Z) :
  0 <= s <= e -> e <= Py.len w -> 0 <= k <= e - s ->
  Py.prefix (Py.slice w s e) k = Py.prefix w (s + k) - Py.prefix w s.
Proof.
  intros Hs He Hk. unfold Py.prefix at 1.
  rewrite slice_in_range by lia.
  rewrite firstn_firstn.
  replace (Nat.min (Z.to_nat k) (Z.to_nat (e - s))) with (Z.to_nat (s + k - s))
    by lia.
  apply sum_segment; lia.
Qed.

(** Ends clipping is idempotent. *)
Lemma trim_ends_again (quals : list Z) (threshold s e : Z) :
  trim_ends quals threshold = (s, e) ->
  trim_ends (Py.slice quals s e) threshold = (0, e - s).
Proof.
  intros Hres.
  destruct (trim_ends_cases quals threshold)
    as [[H0 _]|(a & b & qa & qb & Hab & Hrange & Ha & Hqa & Hb & Hqb & _)].
  - rewrite H0 in Hres. injection Hres as <- <-.
    now rewrite slice_empty.
  - rewrite Hab in Hres. injection Hres as <- <-.
    assert (Hbound : Z.of_nat b + 1 <= Py.len quals) by (unfold Py.len; lia).
    set (l' := Py.slice quals (Z.of_nat a) (Z.of_nat b + 1)).
    assert (Hlen : List.length l' = (b + 1 - a)%nat).
    { unfold l'. rewrite length_slice by lia. lia. }
    assert (Hfirst : nth_error l' 0 = Some qa).
    { unfold l'. rewrite nth_error_slice by lia.
      rewrite Nat2Z.id, Nat.add_0_r. exact Ha. }
    assert (Hlast : nth_error l' (b - a) = Some qb).
    { unfold l'. rewrite nth_error_slice by lia.
      rewrite Nat2Z.id. replace (a + (b - a))%nat with b by lia. exact Hb. }
    destruct (trim_ends_cases l' threshold)
      as [[_ Hall]|(a' & b' & qa' & qb' & Hab' & Hrange' & _ & _ & _ & _
                    & Hbefore & Hafter)].
    + specialize (Hall _ _ Hfirst). lia.
    + rewrite Hab'. f_equal.
      * destruct a' as [|a']; [reflexivity|].
        specialize (Hbefore 0%nat qa ltac:(lia) Hfirst). lia.
      * destruct (Nat.eq_dec b' (b - a)) as [->|Hne]; [lia|].
        specialize (Hafter (b - a)%nat qb ltac:(lia) Hlast). lia.
Qed.

(** Maximum-window trimming is idempotent. *)
Lemma trim_mott_again (quals : list Z) (threshold s e : Z) :
  trim_mott quals threshold = (s, e) ->
  trim_mott (Py.slice quals s e) threshold = (0, e - s).
Proof.
  intros Hres.
  destruct (trim_mott_inv quals threshold) as (st & Hst & Hinv).
  rewrite Hres in Hst. injection Hst as -> ->.
  destruct Hinv as [_ _ _ _ Hbb Hbs Hbm Hbf Hbn].
  set (s := best_start st) in *. set (e := best_end st) in *.
  set (w := map (fun q => q - threshold) quals) in *.
  destruct (Z.eq_dec s e) as [Heq|Hne].
  { assert (Hz : max_sum st = 0) by (rewrite Hbs, Heq; lia).
    destruct (Hbn Hz) as [Hs0 He0]. rewrite Hs0, He0.
    now rewrite slice_empty. }
  assert (Hlen : Py.len (Py.slice quals s e) = e - s) by (apply len_slice; lia).
  destruct (trim_mott_inv (Py.slice quals s e) threshold) as (st' & Hst' & Hinv').
  rewrite Hlen in Hinv'. rewrite <- slice_map in Hinv'. fold w in Hinv'.
  destruct Hinv' as [_ _ _ _ Hbb' Hbs' Hbm' _ _].
  assert (Hw : Py.len w = Py.len quals) by apply len_map.
  assert (Hpre : forall k, 0 <= k <= e - s ->
                           Py.prefix (Py.slice w s e) k
                           = Py.prefix w (s + k) - Py.prefix w s).
  { intros k Hk. apply prefix_slice; lia. }
  pose proof (Hbm' 0 (e - s) ltac:(lia) ltac:(lia)) as Hge.
  rewrite !Hpre in Hge by lia.
  rewrite !Hpre in Hbs' by lia.
  pose proof (Hbm (s + best_start st') (s + best_end st') ltac:(lia) ltac:(lia))
    as Hle.
  replace (s + (e - s)) with e in Hge by lia.
  replace (s + 0) with s in Hge by lia.
  assert (Hpos : 0 < max_sum st).
  { destruct (Z.eq_dec (max_sum st) 0) as [Hz|Hz].
    - destruct (Hbn Hz). lia.
    - pose proof (Hbm 0 0 ltac:(lia) ltac:(lia)). lia. }
  destruct (Hbf (s + best_start st') (s + best_end st')
              ltac:(lia) ltac:(lia) Hpos ltac:(lia)) as [Hend Hstart].
  rewrite Hst'. f_equal; lia.
Qed.

End TrimCompose.

Module TrimMore.
Import Trim TrimInv PyFacts MottFacts EndsFacts TrimMoreFacts ApplyFacts.
Import TrimCompose.

(** X1.  The window [trim_mott] returns is empty only as [(0, 0)];
    otherwise its score is positive and its first and last bases both have
    quality strictly above the threshold. *)
Theorem trim_mott_window_ends (quals : list Z) (threshold s e : Z) :
  trim_mott quals threshold = (s, e) ->
  (s = e -> (s, e) = (0, 0)) /\
  (s < e ->
   0 < window_score quals threshold s e /\
   exists qs qe,
     Py.index quals s = Some qs /\ threshold < qs /\
     Py.index quals (e - 1) = Some qe /\ threshold < qe).
Proof.
  intros Hres.
  destruct (trim_mott_inv quals threshold) as (st & Hst & Hinv).
  rewrite Hres in Hst. injection Hst as Hs He.
  destruct Hinv as [_ _ _ _ Hbb Hbs Hbm _ Hbn].
  rewrite <- Hs, <- He in Hbb, Hbs, Hbn.
  assert (Hmax : 0 <= max_sum st).
  { pose proof (Hbm 0 0 ltac:(lia) ltac:(lia)). lia. }
  split.
  - intros E. rewrite E in Hbs. destruct Hbn as [H1 H2]; [lia|].
    now rewrite H1, H2.
  - intros Hlt. split.
    + rewrite window_score_prefix by lia. rewrite <- Hbs.
      destruct (Z.eq_dec (max_sum st) 0) as [E|E]; [|lia].
      destruct (Hbn E). lia.
    + apply (trim_mott_end_quals quals threshold s e Hres Hlt).
Qed.

(** The theorem on the repository's mixed-quality test read. *)
Lemma trim_mott_window_ends_witness :
  trim_mott [30; 30; 10; 10; 35; 35; 35] 20 = (4, 7) /\
  0 < window_score [30; 30; 10; 10; 35; 35; 35] 20 4 7.
Proof.
  split; [reflexivity|].
  refine (proj1 (proj2 (trim_mott_window_ends
                          [30; 30; 10; 10; 35; 35; 35] 20 4 7 eq_refl) _)).
  lia.
Defined.

(** X2.  The maximum-score window lies inside the ends-clip range: a base
    that [trim_ends] clips is never kept by [trim_mott], and whenever
    [trim_mott] keeps something, so does [trim_ends]. *)
Theorem trim_mott_within_trim_ends (quals : list Z) (threshold sm em se ee : Z) :
  trim_mott quals threshold = (sm, em) ->
  trim_ends quals threshold = (se, ee) ->
  sm < em ->
  se <= sm /\ em <= ee /\ se < ee.
Proof.
  intros Hm He Hlt.
  destruct (trim_mott_end_quals quals threshold sm em Hm Hlt)
    as (Hb & qs & qe & Hqs & Hgs & Hqe & Hge).
  rewrite index_nonneg in Hqs, Hqe by lia.
  destruct (trim_ends_cases quals threshold)
    as [[_ Hall]|(a & b & qa & qb & Hab & Hrange & _ & _ & _ & _
                  & Hbefore & Hafter)].
  - specialize (Hall _ _ Hqs). lia.
  - rewrite Hab in He. injection He as <- <-.
    assert (H1 : Z.of_nat a <= sm).
    { destruct (Z.le_gt_cases (Z.of_nat a) sm) as [|Hgt]; [assumption|].
      specialize (Hbefore (Z.to_nat sm) qs ltac:(lia) Hqs). lia. }
    assert (H2 : em - 1 <= Z.of_nat b).
    { destruct (Z.le_gt_cases (em - 1) (Z.of_nat b)) as [|Hgt]; [assumption|].
      specialize (Hafter (Z.to_nat (em - 1)) qe ltac:(lia) Hqe). lia. }
    lia.
Qed.

(** The theorem on a read with a weak base inside the good region. *)
Lemma trim_mott_within_trim_ends_witness :
  trim_mott [10; 20; 30; 5; 30; 20; 10] 20 = (2, 3) /\
  trim_ends [10; 20; 30; 5; 30; 20; 10] 20 = (1, 6) /\
  (1 <= 2 /\ 3 <= 6 /\ 1 < 6).
Proof.
  split; [reflexivity|]. split; [reflexivity|].
  apply (trim_mott_within_trim_ends [10; 20; 30; 5; 30; 20; 10] 20 2 3 1 6);
    [reflexivity | reflexivity | lia].
Defined.

(** X3.  Trimming is idempotent: applying [apply_trim] with the same
    method and threshold to its own output keeps all of it, with the range
    [(0, end - start)].  This holds for both methods and whatever the
    lengths of the two inputs. *)
Theorem apply_trim_idempotent (seq : string) (quals : list Z) (method : string)
    (threshold : Z) (tseq : string) (tquals : list Z) (s e : Z) :
  apply_trim seq quals method threshold = inr (tseq, tquals, s, e) ->
  apply_trim tseq tquals method threshold = inr (tseq, tquals, 0, e - s).
Proof.
  intros Happ.
  assert (Hm : method = "mott"%string \/ method = "ends"%string).
  { unfold apply_trim in Happ.
    destruct (String.eqb_spec method "mott"); [now left|].
    destruct (String.eqb_spec method "ends"); [now right|discriminate]. }
  assert (Hshape :
            (0 <= s <= e /\ e <= Py.len quals) /\
            tquals = Py.slice quals s e /\ tseq = Py.str_slice seq s e /\
            (method = "mott"%string -> trim_mott quals threshold = (s, e)) /\
            (method = "ends"%string -> trim_ends quals threshold = (s, e))).
  { destruct Hm as [-> | ->].
    - rewrite apply_trim_mott in Happ.
      pose proof (trim_mott_bounds quals threshold) as Hb.
      destruct (trim_mott quals threshold) as [s0 e0]. simpl in *.
      injection Happ as <- <- <- <-.
      repeat split; auto; try lia; discriminate.
    - rewrite apply_trim_ends in Happ.
      pose proof (trim_ends_bounds quals threshold) as Hb.
      destruct (trim_ends quals threshold) as [s0 e0]. simpl in *.
      injection Happ as <- <- <- <-.
      repeat split; auto; try lia; discriminate. }
  destruct Hshape as (Hb & Htq & Hts & Hmott & Hends).
  assert (Hlen : Py.len tquals = e - s).
  { rewrite Htq. apply len_slice; lia. }
  assert (Hslen : Str.len tseq <= e - s).
  { rewrite Hts. unfold Py.str_slice.
    rewrite len_string_of_list, len_slice_clipped, len_list_of_string by lia.
    pose proof (len_nonneg (list_ascii_of_string seq)).
    rewrite len_list_of_string in H. lia. }
  assert (Hagain : (method = "mott"%string ->
                    trim_mott tquals threshold = (0, e - s)) /\
                   (method = "ends"%string ->
                    trim_ends tquals threshold = (0, e - s))).
  { rewrite Htq. split; intros E.
    - now apply trim_mott_again, Hmott.
    - now apply trim_ends_again, Hends. }
  assert (Hq : Py.slice tquals 0 (e - s) = tquals) by now apply slice_all.
  assert (Hs : Py.str_slice tseq 0 (e - s) = tseq).
  { unfold Py.str_slice.
    assert (Hl : Py.slice (list_ascii_of_string tseq) 0 (e - s)
                 = list_ascii_of_string tseq).
    { apply slice_whole. now rewrite len_list_of_string. }
    rewrite Hl. apply string_of_list_ascii_of_string. }
  destruct Hm as [-> | ->].
  - rewrite apply_trim_mott, (proj1 Hagain eq_refl). simpl. now rewrite Hq, Hs.
  - rewrite apply_trim_ends, (proj2 Hagain eq_refl). simpl. now rewrite Hq, Hs.
Qed.

(** The theorem on the repository's [test_apply_mott] read. *)
Lemma apply_trim_idempotent_witness :
  apply_trim "GTA" [30; 30; 30] "mott" 20
  = inr ("GTA"%string, [30; 30; 30], 0, 5 - 2).
Proof.
  apply (apply_trim_idempotent "ACGTACGT" [10; 10; 30; 30; 30; 10; 10; 10]
           "mott" 20 "GTA" [30; 30; 30] 2 5).
  reflexivity.
Defined.

End TrimMore.

Module TrimWhole.
Import Trim PyFacts MottFacts EndsFacts IntensityFacts.

Lemma sum_at_least_length (l : list Z) :
  Forall (fun x => 1 <= x) l -> Py.len l <= Py.sum l.
Proof.
  unfold Py.len. induction 1 as [|x l Hx _ IH]; simpl Py.sum;
    simpl List.length; lia.
Qed.

(** With positive weights the prefix sums grow by at least one per step. *)
Lemma prefix_grows (w : list Z) (a b : Z) :
  Forall (fun x => 1 <= x) w ->
  0 <= a <= b -> b <= Py.len w ->
  b - a <= Py.prefix w b - Py.prefix w a.
Proof.
  intros Hall Ha Hb. rewrite <- sum_segment by lia.
  etransitivity; [|apply sum_at_least_length].
  - unfold Py.len. rewrite length_firstn, length_skipn.
    unfold Py.len in Hb. lia.
  - now apply Forall_firstn, Forall_skipn.
Qed.

(** X4.  A read none of whose bases is below the threshold is not clipped
    by [trim_ends], and a read all of whose bases are above the threshold
    is returned whole by [trim_mott]. *)
Theorem good_read_kept_whole (quals : list Z) (threshold : Z) :
  ((forall q, In q quals -> threshold <= q) ->
   trim_ends quals threshold = (0, Py.len quals)) /\
  ((forall q, In q quals -> threshold < q) ->
   trim_mott quals threshold = (0, Py.len quals)).
Proof.
  split; intros Hall.
  - destruct (trim_ends_cases quals threshold)
      as [[H0 Hnone]|(a & b & qa & qb & Hab & Hrange & _ & _ & _ & _
                      & Hbefore & Hafter)].
    + destruct quals as [|q quals]; [exact H0|].
      specialize (Hnone 0%nat q eq_refl).
      specialize (Hall q (or_introl eq_refl)). lia.
    + rewrite Hab. unfold Py.len. f_equal.
      * destruct a as [|a]; [reflexivity|].
        destruct quals as [|q quals]; [simpl in Hrange; lia|].
        specialize (Hbefore 0%nat q ltac:(lia) eq_refl).
        specialize (Hall q (or_introl eq_refl)). lia.
      * destruct (Nat.eq_dec (S b) (List.length quals)) as [E|E]; [lia|].
        destruct (nth_error quals (S b)) as [q|] eqn:Hq.
        -- specialize (Hafter (S b) q ltac:(lia) Hq).
           specialize (Hall q (nth_error_In _ _ Hq)). lia.
        -- apply nth_error_None in Hq. lia.
  - destruct (trim_mott_inv quals threshold) as (st & -> & Hinv).
    destruct Hinv as [_ _ _ _ Hbb Hbs Hbm _ _].
    set (w := map (fun q => q - threshold) quals) in *.
    assert (Hw : Forall (fun x => 1 <= x) w).
    { unfold w. apply Forall_map, Forall_forall. intros q Hq.
      specialize (Hall q Hq). lia. }
    assert (Hlen : Py.len w = Py.len quals) by apply len_map.
    pose proof (len_nonneg quals) as Hn.
    pose proof (Hbm 0 (Py.len quals) ltac:(lia) ltac:(lia)) as Htot.
    pose proof (prefix_grows w 0 (best_start st) Hw ltac:(lia) ltac:(lia)) as H1.
    pose proof (prefix_grows w (best_end st) (Py.len quals) Hw ltac:(lia)
                  ltac:(lia)) as H2.
    f_equal; lia.
Qed.

(** The theorem on the repository's all-high-quality test read. *)
Lemma good_read_kept_whole_witness :
  trim_ends [30; 30; 30; 30] 20 = (0, 4) /\ trim_mott [30; 30; 30; 30] 20 = (0, 4).
Proof.
  split.
  - apply (proj1 (good_read_kept_whole [30; 30; 30; 30] 20)).
    simpl. intros q Hq. repeat destruct Hq as [<-|Hq]; lia.
  - apply (proj2 (good_read_kept_whole [30; 30; 30; 30] 20)).
    simpl. intros q Hq. repeat destruct Hq as [<-|Hq]; lia.
Defined.

End TrimWhole.

(** ** The longest high-quality stretch *)

Module StretchFacts.
Import QC QCInv PyFacts.

Lemma hq_inv_init (quals : list Z) (threshold : Z) :
  hq_inv quals threshold 0 0 0.
Proof.
  constructor; simpl; try lia.
  - intros k Hk. lia.
  - exists 0%nat. split; [lia|]. intros k Hk. lia.
Qed.

Lemma hq_inv_step (done rest : list Z) (v threshold m c : Z) :
  hq_inv (done ++ v :: rest) threshold (List.length done) m c ->
  hq_inv (done ++ v :: rest) threshold (S (List.length done))
         (if threshold <=? v then Z.max m (c + 1) else m)
         (if threshold <=? v then c + 1 else 0).
Proof.
  set (quals := done ++ v :: rest). set (i := List.length done).
  intros [Hb Hcur Hstop [s0 [Hs0 Hrun0]] Hmax].
  assert (Hv : nth_error quals i = Some v).
  { unfold quals, i. rewrite nth_error_app2, Nat.sub_diag by lia. reflexivity. }
  destruct (Z.leb_spec threshold v) as [Hgood|Hbad].
  - assert (Hnew : hq_run quals threshold (S i - Z.to_nat (c + 1)) (S i)).
    { intros k Hk. destruct (Nat.eq_dec k i) as [->|Hne]; [eauto|].
      apply Hcur. lia. }
    constructor.
    + lia.
    + exact Hnew.
    + intros q Hlt Hq. apply Hstop; [lia|].
      replace (i - Z.to_nat c - 1)%nat
        with (S i - Z.to_nat (c + 1) - 1)%nat by lia.
      exact Hq.
    + destruct (Z.max_spec m (c + 1)) as [[_ ->]|[_ ->]].
      * exists (S i - Z.to_nat (c + 1))%nat. split; [lia|].
        replace (S i - Z.to_nat (c + 1) + Z.to_nat (c + 1))%nat with (S i) by lia.
        exact Hnew.
      * exists s0. split; [lia | exact Hrun0].
    + intros s e Hse Hrun.
      destruct (Nat.eq_dec e (S i)) as [->|Hne].
      * destruct (Nat.le_gt_cases (i - Z.to_nat c) s) as [Hs|Hs]; [lia|].
        destruct (Hrun (i - Z.to_nat c - 1)%nat ltac:(lia)) as (q & Hq & Hge).
        specialize (Hstop q ltac:(lia) Hq). lia.
      * specialize (Hmax s e ltac:(lia) Hrun). lia.
  - constructor.
    + lia.
    + intros k Hk. simpl in Hk. lia.
    + intros q _ Hq.
      replace (S i - Z.to_nat 0 - 1)%nat with i in Hq by lia.
      rewrite Hv in Hq. injection Hq as <-. exact Hbad.
    + exists s0. split; [lia | exact Hrun0].
    + intros s e Hse Hrun.
      destruct (Nat.eq_dec e (S i)) as [->|Hne].
      * destruct (Nat.eq_dec s (S i)) as [->|Hs]; [lia|].
        destruct (Hrun i ltac:(lia)) as (q & Hq & Hge).
        rewrite Hv in Hq. injection Hq as <-. lia.
      * apply Hmax; [lia | exact Hrun].
Qed.

(** The loop establishes the invariant for the whole vector. *)
Lemma hq_loop_inv (quals : list Z) (threshold : Z) :
  forall (rest done : list Z) (m c : Z),
    quals = done ++ rest ->
    hq_inv quals threshold (List.length done) m c ->
    exists c', hq_inv quals threshold (List.length quals)
                      (hq_loop m c rest threshold) c'.
Proof.
  induction rest as [|v rest IH]; intros done m c Hq Hinv.
  - rewrite app_nil_r in Hq. subst done. simpl. eauto.
  - simpl. subst quals.
    pose proof (hq_inv_step done rest v threshold m c Hinv) as Hstep.
    replace (S (List.length done)) with (List.length (done ++ [v])) in Hstep
      by (rewrite length_app; simpl; lia).
    destruct (Z.leb_spec threshold v);
      (eapply IH; [|exact Hstep]; now rewrite <- app_assoc).
Qed.

(** The invariant at the result of [_longest_hq_stretch]. *)
Lemma longest_hq_stretch_inv (quals : list Z) (threshold : Z) :
  exists c, hq_inv quals threshold (List.length quals)
                   (_longest_hq_stretch quals threshold) c.
Proof.
  destruct quals as [|q quals].
  - exists 0. apply hq_inv_init.
  - unfold _longest_hq_stretch.
    apply (hq_loop_inv _ _ _ []); [reflexivity | apply hq_inv_init].
Qed.

End StretchFacts.

Module StretchSpec.
Import QC QCInv StretchFacts.

(** X5.  [_longest_hq_stretch] returns the length of a longest run of
    consecutive bases with quality at least the threshold: the vector has a
    run of that length and no longer one, and the result lies between 0 and
    the length of the vector. *)
Theorem longest_hq_stretch_is_longest (quals : list Z) (threshold : Z) :
  let r := _longest_hq_stretch quals threshold in
  (0 <= r <= Py.len quals) /\
  (exists s, (s + Z.to_nat r <= List.length quals)%nat /\
             hq_run quals threshold s (s + Z.to_nat r)) /\
  (forall s e, (s <= e <= List.length quals)%nat ->
               hq_run quals threshold s e -> Z.of_nat (e - s) <= r).
Proof.
  destruct (longest_hq_stretch_inv quals threshold) as [c [Hb _ _ Hatt Hmax]].
  simpl. unfold Py.len. repeat split; try lia; assumption.
Qed.

(** The stretch tests of the repository. *)
Example test_multiple_stretches :
  _longest_hq_stretch [30; 30; 10; 30; 30; 30; 30] 20 = 4.
Proof. reflexivity. Qed.

Example test_no_high_quality : _longest_hq_stretch [10; 10; 10; 10] 20 = 0.
Proof. reflexivity. Qed.

End StretchSpec.

(** ** Ranges of the QC metrics *)

Module RangeSpec.
Import Num Float QC QCFacts RoundFacts FloatFacts RuleFacts.

Lemma gc_percent_range (seq : string) :
  (0 <= round (gc_percent_raw seq) 2 <= 100)%Q.
Proof.
  unfold gc_percent_raw.
  set (u := Str.upper seq).
  pose proof (count_bounds "G" u) as HG.
  pose proof (count_bounds "C" u) as HC.
  pose proof (count_three "G" "C" "N" u ltac:(discriminate) ltac:(discriminate)
                ltac:(discriminate)) as H3.
  unfold u in H3. rewrite len_upper in H3. fold u in H3.
  set (gc := (Str.count "G" u + Str.count "C" u)%Z) in *.
  set (non_n := (Str.len seq - Str.count "N" u)%Z) in *.
  destruct (Z.ltb_spec 0 non_n) as [Hpos|Hle].
  - apply percent_range; unfold gc, non_n; lia.
  - vm_compute. split; discriminate.
Qed.

(** X6.  In the metrics of a read, the N count lies between 0 and the raw
    length, the GC percentage between 0 and 100, the longest high-quality
    stretch between 0 and the number of qualities, the trimmed length is
    [trim_end - trim_start], and the read passes exactly when its trimmed
    length is at least the minimum length. *)
Theorem metrics_in_range (phred_error : Q -> Q)
    (sample source fmt seq : string) (quals : list Z)
    (start end_ qthreshold min_length : Z) :
  let m := compute_qc_metrics phred_error sample source fmt seq quals
             start end_ qthreshold min_length in
  raw_length m = Str.len seq /\
  (0 <= n_count m <= raw_length m)%Z /\
  (0 <= gc_percent m <= 100)%Q /\
  (0 <= hq_longest_stretch_len m <= Py.len quals)%Z /\
  trimmed_length m = (end_ - start)%Z /\
  (passed_minlen m = "yes"%string <-> (min_length <= trimmed_length m)%Z) /\
  (passed_minlen m = "no"%string <-> (trimmed_length m < min_length)%Z).
Proof.
  intros m. unfold m, compute_qc_metrics.
  cbn [raw_length n_count gc_percent hq_longest_stretch_len trimmed_length
       passed_minlen].
  pose proof (count_bounds "N" (Str.upper seq)) as Hn.
  rewrite len_upper in Hn.
  split; [reflexivity|]. split; [exact Hn|]. split.
  - apply gc_percent_range.
  - split.
    { destruct (StretchFacts.longest_hq_stretch_inv quals qthreshold)
        as [c [Hb _ _ _ _]].
      unfold Py.len. lia. }
    split; [reflexivity|].
    destruct (Z.leb_spec min_length (end_ - start)); split; split;
      intros; try lia; try reflexivity; discriminate.
Qed.

End RangeSpec.

Module FractionSpec.
Import Num Float QC QCFacts RoundFacts FloatFacts RuleFacts PyFacts.

Lemma fraction_in_unit (k : Z) (l : list Q) :
  (0 < Py.len l)%Z -> (0 <= fraction_at_least k l <= 1)%Q.
Proof.
  intros Hlen. unfold fraction_at_least. apply np_mean_mask_unit.
  now rewrite len_map.
Qed.

(** A higher cut-off is met by a smaller fraction of the bases. *)
Lemma fraction_antitone (k1 k2 : Z) (l : list Q) :
  (k1 <= k2)%Z -> (0 < Py.len l)%Z ->
  (fraction_at_least k2 l <= fraction_at_least k1 l)%Q.
Proof.
  intros Hk Hlen. unfold fraction_at_least, np_mean_mask. rewrite !len_map.
  apply count_fraction_mono; [|exact Hlen].
  apply mask_count_le. intros x Hx.
  apply Qle_bool_iff in Hx. apply Qle_bool_iff.
  pose proof (of_int_mono k1 k2 Hk). lra.
Qed.

(** X7.  In the metrics of a read the Q30 fraction never exceeds the Q20
    fraction, and both lie between 0 and 1. *)
Theorem q_fractions_ordered (phred_error : Q -> Q)
    (sample source fmt seq : string) (quals : list Z)
    (start end_ qthreshold min_length : Z) :
  let m := compute_qc_metrics phred_error sample source fmt seq quals
             start end_ qthreshold min_length in
  (0 <= pct_q30 m)%Q /\ (pct_q30 m <= pct_q20 m)%Q /\ (pct_q20 m <= 1)%Q.
Proof.
  intros m. subst m. unfold compute_qc_metrics. cbn [pct_q30 pct_q20].
  set (q_array := map of_int quals).
  assert (Hunit : forall x, (0 <= x <= 1)%Q -> (0 <= round x 4 <= 1)%Q).
  { intros x Hx. apply (round_between x 0 1 4); [lia | simpl; lia .. | exact Hx]. }
  destruct (Z.ltb_spec 0 (Py.len q_array)) as [Hlen|Hlen].
  - pose proof (Hunit _ (fraction_in_unit 30 q_array Hlen)) as [H30 _].
    pose proof (Hunit _ (fraction_in_unit 20 q_array Hlen)) as [_ H20].
    pose proof (fraction_antitone 20 30 q_array ltac:(lia) Hlen) as Hle.
    split; [exact H30|]. split; [|exact H20].
    apply round_mono; [lia | exact Hle].
  - pose proof (Hunit 0%Q ltac:(split; lra)) as [H0 H1].
    split; [exact H0|]. split; [apply Qle_refl | exact H1].
Qed.

End FractionSpec.

(** ** The batch summary *)

Module SummaryFacts.
Import Num Float QC Summary PyFacts.

Lemma count_true_bounds (l : list bool) :
  (0 <= count_true l <= Py.len l)%Z.
Proof.
  unfold count_true, Py.len.
  induction l as [|b l IH]; simpl Py.sum; simpl List.length; [lia|].
  destruct b; lia.
Qed.

Lemma count_true_all (l : list bool) :
  Forall (fun b => b = true) l -> count_true l = Py.len l.
Proof.
  unfold count_true, Py.len.
  induction 1 as [|b l Hb _ IH]; simpl Py.sum; simpl List.length; [lia|].
  subst b. lia.
Qed.

Lemma count_true_none (l : list bool) :
  Forall (fun b => b = false) l -> count_true l = 0%Z.
Proof.
  unfold count_true.
  induction 1 as [|b l Hb _ IH]; simpl Py.sum; [lia|].
  subst b. lia.
Qed.

(** The unit tests of [TestSummaryStats], on records that carry the fields
    the tests set. *)
Example test_summary_with_failures :
  let m1 := MkQCMetrics "a" "a.ab1" "ab1" 100 25 25 (8 # 10) (5 # 10) 50 0 1 0
                        0 80 80 "yes" in
  let m2 := MkQCMetrics "b" "b.ab1" "ab1" 100 15 15 (3 # 10) (1 # 10) 40 0 5 0
                        0 20 20 "no" in
  let s := compute_summary_stats [m1; m2] in
  total_reads s = 2%Z /\ reads_passed_minlen s = 1%Z /\
  reads_failed_minlen s = 1%Z /\ (pct_passed s == 50)%Q /\
  (mean_trimmed_length s == 50)%Q.
Proof. vm_compute. repeat split. Qed.

(** The mean of the two means 10.0 and 10.05 is the double just above
    10.025, and is reported as 10.03. *)
Example mean_mean_q_on_doubles :
  let m1 := MkQCMetrics "a" "a.ab1" "ab1" 100 (rnd 10) 10 1 1 50 0 1 0
                        0 80 80 "yes" in
  let m2 := MkQCMetrics "b" "b.ab1" "ab1" 100 (rnd (1005 # 100)) 10 1 1 50 0 1
                        0 0 80 80 "yes" in
  mean_mean_q (compute_summary_stats [m1; m2]) = rnd (1003 # 100).
Proof. vm_compute. reflexivity. Qed.

End SummaryFacts.

Module SummarySpec.
Import Num Float QC Summary PyFacts SummaryFacts FloatFacts.

(** X8.  In the summary of a batch, the reads that passed and the reads
    that failed add up to the total, which is the size of the batch; the
    number that passed lies between 0 and the total and the percentage
    passed between 0 and 100.  If every read passed, none failed and the
    percentage is 100 (for a non-empty batch); if none passed, the
    percentage is 0.  The empty batch gives the all-zero summary. *)
Theorem summary_counts (metrics_list : list QCMetrics) :
  let s := compute_summary_stats metrics_list in
  total_reads s = Py.len metrics_list /\
  (reads_passed_minlen s + reads_failed_minlen s = total_reads s)%Z /\
  (0 <= reads_passed_minlen s <= total_reads s)%Z /\
  (0 <= pct_passed s <= 100)%Q /\
  ((forall m, In m metrics_list -> passed_minlen m = "yes"%string) ->
   reads_failed_minlen s = 0%Z /\
   (metrics_list <> [] -> (pct_passed s == 100)%Q)) /\
  ((forall m, In m metrics_list -> passed_minlen m <> "yes"%string) ->
   reads_passed_minlen s = 0%Z /\ (pct_passed s == 0)%Q) /\
  (metrics_list = [] -> s = MkSummaryStats 0 0 0 0 0 0 0 0 0 0 0 0 0 0).
Proof.
  intros s. subst s.
  destruct metrics_list as [|m0 rest].
  { simpl. repeat split; try lia; try reflexivity; try discriminate.
    all: intros; exfalso; congruence. }
  unfold compute_summary_stats.
  cbn [total_reads reads_passed_minlen reads_failed_minlen pct_passed].
  set (ms := m0 :: rest).
  set (passed := map (fun m => String.eqb (passed_minlen m) "yes") ms).
  assert (Hlen : Py.len passed = Py.len ms) by apply len_map.
  pose proof (count_true_bounds passed) as Hc. rewrite Hlen in Hc.
  assert (Hpos : (0 < Py.len ms)%Z) by (unfold Py.len, ms; simpl; lia).
  split; [reflexivity|]. split; [lia|]. split; [lia|]. split; [|split; [|split]].
  - apply percent_range; lia.
  - intros Hall.
    assert (Hct : count_true passed = Py.len ms).
    { rewrite <- Hlen. apply count_true_all. unfold passed.
      apply Forall_map, Forall_forall. intros m Hm.
      rewrite (Hall m Hm). reflexivity. }
    rewrite Hct. split; [lia|]. intros _.
    apply percent_all. lia.
  - intros Hnone.
    assert (Hct : count_true passed = 0%Z).
    { apply count_true_none. unfold passed.
      apply Forall_map, Forall_forall. intros m Hm.
      apply String.eqb_neq. exact (Hnone m Hm). }
    rewrite Hct. split; [reflexivity|].
    apply percent_none.
  - discriminate.
Qed.

End SummarySpec.

(** ** More on the classifier *)

Module IupacSpec.
Import Calling.

Lemma same_pair_sym (x y a b : string) : same_pair x y a b = same_pair y x a b.
Proof.
  unfold same_pair.
  rewrite orb_comm, (andb_comm (String.eqb x b)), (andb_comm (String.eqb x a)).
  reflexivity.
Qed.

Lemma lookup_pair_sym (x y : string) (table : list ((string * string) * string)) :
  lookup_pair x y table = lookup_pair y x table.
Proof.
  induction table as [|[[a b] code] table IH]; simpl; [reflexivity|].
  now rewrite same_pair_sym, IH.
Qed.

Lemma upper_ascii_idem (c : ascii) :
  Str.upper_ascii (Str.upper_ascii c) = Str.upper_ascii c.
Proof. destruct c as [[] [] [] [] [] [] [] []]; reflexivity. Qed.

Lemma upper_idem (s : string) : Str.upper (Str.upper s) = Str.upper s.
Proof.
  induction s as [|c s IH]; simpl; [reflexivity|].
  now rewrite upper_ascii_idem, IH.
Qed.

(** A set of one base is none of the six keys. *)
Lemma same_pair_diag (x a b : string) : a <> b -> same_pair x x a b = false.
Proof.
  intros Hab. unfold same_pair.
  destruct (String.eqb_spec x a), (String.eqb_spec x b); subst;
    try reflexivity; contradiction.
Qed.

(** X9.  [_get_iupac_code] does not depend on the order or on the case of
    its two bases, it returns one of the codes R, Y, S, W, K, M or N, and
    for twice the same base it returns N. *)
Theorem iupac_code_symmetric (base1 base2 : string) :
  _get_iupac_code base1 base2 = _get_iupac_code base2 base1 /\
  _get_iupac_code (Str.upper base1) (Str.upper base2)
  = _get_iupac_code base1 base2 /\
  In (_get_iupac_code base1 base2) ["R"; "Y"; "S"; "W"; "K"; "M"; "N"]%string /\
  (Str.upper base1 = Str.upper base2 ->
   _get_iupac_code base1 base2 = "N"%string).
Proof.
  unfold _get_iupac_code. split; [|split; [|split]].
  - now rewrite lookup_pair_sym.
  - now rewrite !upper_idem.
  - unfold IUPAC_CODES, lookup_pair.
    repeat match goal with
           | |- context [if ?c then _ else _] => destruct c
           end; simpl; tauto.
  - intros ->. unfold IUPAC_CODES, lookup_pair.
    rewrite !same_pair_diag by discriminate. reflexivity.
Qed.

End IupacSpec.

Module RuleMore.
Import Num Calling RuleFacts.

(** X10.  Whatever the inputs, the rule table returns one of three shapes:
    mode [N] with base [N] and one of the flags [low_quality] and
    [unclear_primary]; mode [single] with the primary base; or mode
    [ambiguous] with the IUPAC code of the two bases.  In clonal context an
    ambiguous call is always flagged [heterozygous], and outside it a
    single call never carries a flag. *)
Theorem call_mode_determines_base (cfg : AmbiguousCallingConfig)
    (b1 b2 : string) (H1 H2 spr_ snr_ : Q) (quality_ : Z) :
  exists called mode flags_,
    _apply_calling_criteria cfg b1 b2 H1 H2 spr_ snr_ quality_
    = (called, mode, allele_frac H1 H2, flags_) /\
    ((mode = "N"%string /\ called = "N"%string /\
      (flags_ = ["low_quality"%string] \/ flags_ = ["unclear_primary"%string]))
     \/
     (mode = "single"%string /\ called = b1 /\
      (flags_ = [] \/
       clonal_context cfg = true /\
       (flags_ = ["minor_secondary"%string] \/
        flags_ = ["uncertain_mixture"%string])))
     \/
     (mode = "ambiguous"%string /\ called = _get_iupac_code b1 b2 /\
      (flags_ = ["heterozygous"%string] \/
       clonal_context cfg = false /\
       (flags_ = [] \/ flags_ = ["unbalanced_mixture"%string])))).
Proof.
  unfold _apply_calling_criteria.
  destruct (rule1 cfg snr_ quality_); [eexists _, _, _; split; [reflexivity|tauto]|].
  destruct (rule2 cfg spr_ quality_); [eexists _, _, _; split; [reflexivity|tauto]|].
  destruct (clonal_context cfg) eqn:Hclonal; simpl negb; cbv iota;
    repeat match goal with
           | |- context [if ?c then _ else _] => destruct c
           end;
    eexists _, _, _; (split; [reflexivity|]); tauto.
Qed.

(** X11.  A base whose quality is below both [q_ambig] and [q_confident],
    and that rule 1 does not reject, is called as the primary base with
    mode [single] and no flag whenever the SPR is below [spr_unbalanced]:
    rules 2 to 5 all ask for more quality, so a secondary peak in the
    heterozygous band goes unreported. *)
Theorem low_quality_hides_mixture (cfg : AmbiguousCallingConfig)
    (b1 b2 : string) (H1 H2 spr_ snr_ : Q) (quality_ : Z) :
  (q_min_noise cfg <= quality_)%Z -> (snr_min cfg <= snr_)%Q ->
  (quality_ < q_ambig cfg)%Z -> (quality_ < q_confident cfg)%Z ->
  (spr_ < spr_unbalanced cfg)%Q ->
  _apply_calling_criteria cfg b1 b2 H1 H2 spr_ snr_ quality_
  = (b1, "single"%string, allele_frac H1 H2, []).
Proof.
  intros Hq Hsnr Hamb Hconf Hspr.
  assert (R1 : rule1 cfg snr_ quality_ = false).
  { unfold rule1. rewrite orb_false_iff, Z.ltb_ge, Qltb_ge. auto. }
  assert (Ha : (q_ambig cfg <=? quality_)%Z = false) by (apply Z.leb_gt; lia).
  assert (Hc : (q_confident cfg <=? quality_)%Z = false) by (apply Z.leb_gt; lia).
  assert (R6 : rule6 cfg spr_ = false).
  { unfold rule6. now apply Qle_bool_gt. }
  unfold _apply_calling_criteria.
  rewrite R1, R6. unfold rule2, rule3, rule4, rule5. rewrite Ha, Hc.
  now rewrite !andb_false_r.
Qed.

(** The theorem with the default thresholds: quality 15 and an SPR of one
    half, in the middle of the heterozygous band. *)
Lemma low_quality_hides_mixture_witness :
  _apply_calling_criteria default_config "A" "G" 100 50 (50 # 100) 10 15
  = ("A"%string, "single"%string, allele_frac 100 50, []).
Proof.
  apply (low_quality_hides_mixture default_config "A" "G" 100 50 (50 # 100)
           10 15); simpl; try lia; vm_compute; congruence.
Defined.

End RuleMore.

Module PositionFacts.
Import Num Calling RuleFacts IntensityFacts RatioFacts.

Lemma insert_desc_In (x y : string * Q) (l : list (string * Q)) :
  In x (insert_desc y l) <-> x = y \/ In x l.
Proof.
  induction l as [|z l IH]; simpl; [intuition congruence|].
  destruct (Qltb (snd y) (snd z)); simpl; rewrite ?IH; intuition congruence.
Qed.

Lemma sorted_desc_In (x : string * Q) (l : list (string * Q)) :
  In x (sorted_desc l) <-> In x l.
Proof.
  induction l as [|y l IH]; simpl; [tauto|].
  rewrite insert_desc_In, IH. intuition congruence.
Qed.

(** The head of a descending list dominates the list. *)
Lemma descending_head (x : string * Q) (l : list (string * Q)) :
  descending (x :: l) -> Forall (fun y => snd y <= snd x)%Q l.
Proof.
  revert x. induction l as [|y l IH]; intros x H; [constructor|].
  inversion H as [| |? ? ? Hle Hrest]; subst.
  constructor; [exact Hle|].
  eapply Forall_impl; [|apply (IH y Hrest)].
  intros z Hz. simpl in Hz. eapply Qle_trans; eauto.
Qed.

(** Every intensity dictionary has the four channels as its keys. *)
Lemma intensities_keys (traces : Traces) (position_ window : Z)
    (ints : list (string * Q)) :
  get_intensities_at_position traces position_ window = Some ints ->
  map fst ints = ["A"; "C"; "G"; "T"]%string.
Proof.
  unfold get_intensities_at_position.
  destruct ((Py.len (peak_locations traces) =? 0)%Z
            || (Py.len (peak_locations traces) <=? position_)%Z).
  - now intros [= <-].
  - destruct (Py.index (peak_locations traces) position_); [|discriminate].
    now intros [= <-].
Qed.

End PositionFacts.

Module PositionSpec.
Import Num Calling RuleFacts IntensityFacts RatioFacts PositionFacts.

(** X12.  At a position that the peak-location table does not cover (the
    table is empty, or the position is at or past its end), and with a
    positive [snr_min], [_call_position] reports all intensities, the SPR,
    the SNR and the allele fraction as 0, names A and C as primary and
    secondary base, and calls [N] with mode [N] and flag [low_quality],
    whatever the quality. *)
Theorem uncovered_position_is_N (cfg : AmbiguousCallingConfig)
    (position_ : Z) (original_base : string) (quality_ : Z) (traces : Traces) :
  (Py.len (peak_locations traces) <= position_)%Z ->
  (0 < snr_min cfg)%Q ->
  _call_position cfg position_ original_base quality_ traces
  = Some (MkBaseCall position_ "N" "A" "C" 0 0 0 0 quality_ "N" 0
                     ["low_quality"%string]).
Proof.
  intros Hpos Hsnr.
  assert (Hcond : ((Py.len (peak_locations traces) =? 0)%Z
                   || (Py.len (peak_locations traces) <=? position_)%Z) = true).
  { apply orb_true_iff. right. now apply Z.leb_le. }
  unfold _call_position, get_intensities_at_position, _calculate_snr.
  rewrite Hcond. simpl sorted_desc. cbv iota beta.
  change (spr_of 0 0) with 0%Q.
  assert (R1 : rule1 cfg 0 quality_ = true).
  { unfold rule1. apply orb_true_iff. right. now apply Qltb_lt. }
  unfold _apply_calling_criteria. rewrite R1. reflexivity.
Qed.

(** The theorem on a two-base read with a one-entry peak table. *)
Lemma uncovered_position_is_N_witness :
  _call_position default_config 1 "G" 40
    (MkTraces [10; 90; 10] [0; 5; 0] [0; 0; 0] [0; 0; 0] [1%Z])%Q
  = Some (MkBaseCall 1 "N" "A" "C" 0 0 0 0 40 "N" 0 ["low_quality"%string]).
Proof.
  apply uncovered_position_is_N; [vm_compute; discriminate | reflexivity].
Defined.

(** X13.  For every trace bundle, the primary base of a call is one of A,
    C, G and T, its intensity is the largest of the four channel
    intensities at the position, and the secondary intensity is the
    intensity of another channel, not larger than the primary one. *)
Theorem primary_is_strongest (cfg : AmbiguousCallingConfig) (position_ : Z)
    (original_base : string) (quality_ : Z) (traces : Traces) (bc : BaseCall) :
  _call_position cfg position_ original_base quality_ traces = Some bc ->
  exists ints,
    get_intensities_at_position traces position_ (peak_window cfg) = Some ints /\
    In (primary_base bc, primary_intensity bc) ints /\
    In (secondary_base bc, secondary_intensity bc) ints /\
    In (primary_base bc) ["A"; "C"; "G"; "T"]%string /\
    In (secondary_base bc) ["A"; "C"; "G"; "T"]%string /\
    (secondary_intensity bc <= primary_intensity bc)%Q /\
    (forall b h, In (b, h) ints -> (h <= primary_intensity bc)%Q).
Proof.
  unfold _call_position.
  destruct (get_intensities_at_position traces position_ (peak_window cfg))
    as [ints|] eqn:Hints; [|discriminate].
  pose proof (sorted_desc_descending ints) as Hdesc.
  pose proof (intensities_keys _ _ _ _ Hints) as Hkeys.
  assert (Hin : forall x, In x (sorted_desc ints) -> In x ints)
    by (intros x; apply sorted_desc_In).
  assert (Hni : forall x, In x ints -> In x (sorted_desc ints))
    by (intros x; apply sorted_desc_In).
  assert (Hkey : forall b h, In (b, h) ints ->
                             In b ["A"; "C"; "G"; "T"]%string).
  { intros b h Hb. rewrite <- Hkeys. now apply (in_map fst) in Hb. }
  destruct (sorted_desc ints) as [|[b1 H1] [|[b2 H2] rest]]; try discriminate.
  destruct (_calculate_snr traces position_ H1) as [snr_|]; [|discriminate].
  destruct (_apply_calling_criteria cfg b1 b2 H1 H2 (spr_of H1 H2) snr_ quality_)
    as [[[called mode] allele] flags_].
  intros [= <-]. simpl.
  pose proof (descending_head _ _ Hdesc) as Hhead.
  assert (P1 : In (b1, H1) ints) by (apply Hin; simpl; auto).
  assert (P2 : In (b2, H2) ints) by (apply Hin; simpl; auto).
  exists ints. split; [reflexivity|]. split; [exact P1|]. split; [exact P2|].
  split; [exact (Hkey _ _ P1)|]. split; [exact (Hkey _ _ P2)|]. split.
  - inversion Hhead; assumption.
  - intros b h Hb. apply Hni in Hb. destruct Hb as [E|Hb].
    + injection E as _ <-. apply Qle_refl.
    + rewrite Forall_forall in Hhead. exact (Hhead _ Hb).
Qed.

(** The theorem on a one-base read with a mixed A/C peak. *)
Lemma primary_is_strongest_witness :
  exists bc ints,
    _call_position default_config 0 "A" 30
      (MkTraces [10; 100; 10] [1; 50; 1] [0; 0; 0] [0; 0; 0] [1%Z])%Q = Some bc /\
    get_intensities_at_position
      (MkTraces [10; 100; 10] [1; 50; 1] [0; 0; 0] [0; 0; 0] [1%Z])%Q 0
      (peak_window default_config) = Some ints /\
    (secondary_intensity bc <= primary_intensity bc)%Q.
Proof.
  assert (H : exists bc,
             _call_position default_config 0 "A" 30
               (MkTraces [10; 100; 10] [1; 50; 1] [0; 0; 0] [0; 0; 0] [1%Z])%Q
             = Some bc) by (vm_compute; eauto).
  destruct H as [bc Hbc].
  destruct (primary_is_strongest _ _ _ _ _ _ Hbc)
    as (ints & Hi & _ & _ & _ & _ & Hle & _).
  exists bc, ints. auto.
Defined.

End PositionSpec.

(** ** Recalled sequences *)

Module RecallFacts.
Import Num Calling Recall RuleFacts IntensityFacts RatioFacts PositionFacts.
Import FallbackFacts.

Lemma iupac_code_length (b1 b2 : string) :
  String.length (_get_iupac_code b1 b2) = 1%nat.
Proof.
  unfold _get_iupac_code, IUPAC_CODES, lookup_pair.
  repeat match goal with
         | |- context [if ?c then _ else _] => destruct c
         end; reflexivity.
Qed.

(** The rule table calls one character when the primary base is one. *)
Lemma criteria_called_length (cfg : AmbiguousCallingConfig) (b1 b2 : string)
    (H1 H2 spr_ snr_ : Q) (quality_ : Z) :
  String.length b1 = 1%nat ->
  String.length
    (fst (fst (fst (_apply_calling_criteria cfg b1 b2 H1 H2 spr_ snr_
                      quality_)))) = 1%nat.
Proof.
  intros Hb. unfold _apply_calling_criteria.
  repeat match goal with
         | |- context [if ?c then _ else _] => destruct c
         end; simpl; auto using iupac_code_length.
Qed.

Lemma call_position_called_length (cfg : AmbiguousCallingConfig)
    (position_ : Z) (base : string) (quality_ : Z) (traces : Traces)
    (bc : BaseCall) :
  _call_position cfg position_ base quality_ traces = Some bc ->
  String.length (called_base bc) = 1%nat.
Proof.
  unfold _call_position.
  destruct (get_intensities_at_position traces position_ (peak_window cfg))
    as [ints|] eqn:Hints; [|discriminate].
  pose proof (intensities_keys _ _ _ _ Hints) as Hkeys.
  assert (Hin : forall x, In x (sorted_desc ints) -> In x ints)
    by (intros x; apply sorted_desc_In).
  destruct (sorted_desc ints) as [|[b1 H1] [|[b2 H2] rest]]; try discriminate.
  assert (Hb1 : String.length b1 = 1%nat).
  { assert (Hk : In b1 (map fst ints)).
    { apply (in_map fst _ (b1, H1)), Hin. simpl. auto. }
    rewrite Hkeys in Hk. simpl in Hk.
    repeat destruct Hk as [<-|Hk]; try reflexivity. contradiction. }
  destruct (_calculate_snr traces position_ H1) as [snr_|]; [|discriminate].
  pose proof (criteria_called_length cfg b1 b2 H1 H2 (spr_of H1 H2) snr_
                quality_ Hb1) as Hlen.
  destruct (_apply_calling_criteria cfg b1 b2 H1 H2 (spr_of H1 H2) snr_ quality_)
    as [[[called mode] allele] flags_].
  intros [= <-]. exact Hlen.
Qed.

(** The loop of [call_bases] returns one one-character call per base,
    whatever the traces. *)
Lemma call_from_total (cfg : AmbiguousCallingConfig) (traces : Traces)
    (qualities : list Z) :
  forall (bases : list string) (pos : Z),
    (0 <= pos)%Z ->
    exists calls,
      call_from cfg traces pos bases qualities = Some calls /\
      List.length calls = List.length bases /\
      Forall (fun bc => String.length (called_base bc) = 1%nat) calls.
Proof.
  induction bases as [|base rest IH]; intros pos Hpos; simpl.
  - exists []. repeat split. constructor.
  - rewrite (quality_at_total qualities pos Hpos).
    destruct (call_position_total cfg pos base
                (if (pos <? Py.len qualities)%Z
                 then nth (Z.to_nat pos) qualities 0%Z else 0%Z) traces Hpos)
      as [bc Hbc].
    rewrite Hbc.
    destruct (IH (pos + 1)%Z ltac:(lia)) as (calls & -> & Hlen & Hall).
    exists (bc :: calls). split; [reflexivity|].
    split; [simpl; now rewrite Hlen|].
    constructor; [|exact Hall].
    eapply call_position_called_length; eauto.
Qed.

Lemma chars_length_one (s : string) :
  Forall (fun c => String.length c = 1%nat) (Str.chars s).
Proof. induction s as [|c s IH]; simpl; constructor; auto. Qed.

Lemma fallback_call_called_length (cfg : AmbiguousCallingConfig) (pos : Z)
    (base : string) (qual : Z) :
  String.length base = 1%nat ->
  String.length (called_base (fallback_call cfg pos base qual)) = 1%nat.
Proof.
  intros Hb. unfold fallback_call.
  destruct (qual <? q_min_noise cfg)%Z; [reflexivity|].
  destruct (q_confident cfg <=? qual)%Z; exact Hb.
Qed.

Lemma length_append (s t : string) :
  String.length (s ++ t) = (String.length s + String.length t)%nat.
Proof. induction s as [|c s IH]; simpl; [reflexivity | now rewrite IH]. Qed.

(** Joining one-character strings gives as many characters. *)
Lemma concat_length_one (l : list string) :
  Forall (fun c => String.length c = 1%nat) l ->
  String.length (String.concat "" l) = List.length l.
Proof.
  induction 1 as [|c l Hc Hl IH]; [reflexivity|].
  destruct l as [|d l]; [exact Hc|].
  change (String.concat "" (c :: d :: l))
    with (c ++ "" ++ String.concat "" (d :: l))%string.
  rewrite !length_append, IH, Hc. reflexivity.
Qed.

Lemma concat_chars (s : string) : String.concat "" (Str.chars s) = s.
Proof.
  induction s as [|c s IH]; [reflexivity|].
  simpl Str.chars. destruct s as [|d s]; [reflexivity|].
  change (String.concat "" (String c "" :: Str.chars (String d s)))
    with (String c "" ++ "" ++ String.concat "" (Str.chars (String d s)))%string.
  rewrite IH. reflexivity.
Qed.

(** Whatever the source of the calls, there is one one-character call per
    base. *)
Lemma call_bases_total (cfg : AmbiguousCallingConfig)
    (extracted : option Traces) (sequence : string) (qualities : list Z) :
  exists calls,
    call_bases cfg extracted sequence qualities = Some calls /\
    List.length calls = String.length sequence /\
    Forall (fun bc => String.length (called_base bc) = 1%nat) calls.
Proof.
  destruct extracted as [traces|]; simpl.
  - destruct (call_from_total cfg traces qualities (Str.chars sequence) 0
                ltac:(lia)) as (calls & Hc & Hlen & Hall).
    exists calls. rewrite <- length_chars. auto.
  - destruct (fallback_from_spec cfg qualities (Str.chars sequence) 0
                ltac:(lia)) as (calls & Hc & Hlen & Hnth).
    exists calls. split; [exact Hc|]. split; [now rewrite Hlen, length_chars|].
    apply Forall_forall. intros bc Hbc.
    apply In_nth_error in Hbc. destruct Hbc as [k Hk].
    destruct (Hnth k bc Hk) as (base & qual & Hbase & _ & ->).
    apply fallback_call_called_length.
    pose proof (chars_length_one sequence) as Hone.
    rewrite Forall_forall in Hone. apply Hone.
    eapply nth_error_In; eauto.
Qed.

Lemma recalled_length (cfg : AmbiguousCallingConfig)
    (extracted : option Traces) (sequence : string) (qualities : list Z)
    (calls : list BaseCall) :
  call_bases cfg extracted sequence qualities = Some calls ->
  String.length (base_calls_to_sequence calls) = String.length sequence.
Proof.
  intros Hcalls.
  destruct (call_bases_total cfg extracted sequence qualities)
    as (calls' & Hc & Hlen & Hall).
  rewrite Hcalls in Hc. injection Hc as <-.
  unfold base_calls_to_sequence.
  rewrite concat_length_one, length_map; [exact Hlen|].
  apply Forall_map. exact Hall.
Qed.

End RecallFacts.

Module RecallSpec.
Import Num Calling Recall CLI FallbackFacts RecallFacts.

(** X14.  Base calling returns one call per base, with or without trace
    data, and the sequence rebuilt from the calls has the length of the
    original sequence; so the sequence the commands go on with after the
    ambiguous-calling block always has the length of the parsed one. *)
Theorem recall_keeps_length (ambiguous_calling : bool)
    (cfg : AmbiguousCallingConfig) (file_format : string)
    (extracted : option Traces) (seq : string) (quals : list Z) :
  (exists calls,
      call_bases cfg extracted seq quals = Some calls /\
      List.length calls = String.length seq /\
      String.length (base_calls_to_sequence calls) = String.length seq) /\
  String.length
    (recall_sequence ambiguous_calling cfg file_format extracted seq quals)
  = String.length seq.
Proof.
  destruct (call_bases_total cfg extracted seq quals)
    as (calls & Hc & Hlen & Hall).
  pose proof (recalled_length cfg extracted seq quals calls Hc) as Hrec.
  split; [eauto|].
  unfold recall_sequence.
  destruct (ambiguous_calling && String.eqb file_format "ab1")%bool;
    [|reflexivity].
  now rewrite Hc.
Qed.

(** What the fallback path calls at each position. *)
Lemma fallback_called_bases (cfg : AmbiguousCallingConfig) (seq : string)
    (quals : list Z) (calls : list BaseCall) :
  call_bases cfg None seq quals = Some calls ->
  List.length calls = String.length seq /\
  forall k bc,
    nth_error calls k = Some bc ->
    exists base,
      nth_error (Str.chars seq) k = Some base /\
      called_base bc
      = if (nth k quals 0 <? q_min_noise cfg)%Z then "N"%string else base.
Proof.
  intros Hcalls. simpl in Hcalls. unfold _fallback_calling in Hcalls.
  destruct (fallback_from_spec cfg quals (Str.chars seq) 0 ltac:(lia))
    as (calls' & Hc & Hlen & Hnth).
  rewrite Hcalls in Hc. injection Hc as <-.
  split; [now rewrite Hlen, length_chars|].
  intros k bc Hk.
  destruct (Hnth k bc Hk) as (base & qual & Hbase & Hqual & ->).
  exists base. split; [exact Hbase|].
  rewrite quality_at_total in Hqual by lia. injection Hqual as Hqual.
  assert (Hq : qual = nth k quals 0%Z).
  { rewrite <- Hqual. simpl. rewrite Nat2Z.id.
    destruct (Z.ltb_spec (Z.of_nat k) (Py.len quals)) as [|Hge];
      [reflexivity|].
    symmetry. apply nth_overflow. unfold Py.len in Hge. lia. }
  rewrite <- Hq. unfold fallback_call.
  destruct (qual <? q_min_noise cfg)%Z; [reflexivity|].
  now destruct (q_confident cfg <=? qual)%Z.
Qed.

(** X15.  Without trace data, recalling a read gives the read back when
    every position has a quality of at least [q_min_noise], and gives a
    sequence of N of the same length when every position has a quality
    below it, a position past the end of the quality vector counting as
    quality 0. *)
Theorem fallback_recall_round_trip (cfg : AmbiguousCallingConfig)
    (seq : string) (quals : list Z) :
  ((forall k, (k < String.length seq)%nat ->
              (q_min_noise cfg <= nth k quals 0)%Z) ->
   exists calls, call_bases cfg None seq quals = Some calls /\
                 base_calls_to_sequence calls = seq) /\
  ((forall k, (k < String.length seq)%nat ->
              (nth k quals 0 < q_min_noise cfg)%Z) ->
   exists calls, call_bases cfg None seq quals = Some calls /\
                 base_calls_to_sequence calls
                 = String.concat "" (repeat "N"%string (String.length seq))).
Proof.
  destruct (call_bases_total cfg None seq quals) as (calls & Hc & _ & _).
  destruct (fallback_called_bases cfg seq quals calls Hc) as [Hlen Hnth].
  assert (Hsome : forall k, (k < String.length seq)%nat ->
                            exists bc, nth_error calls k = Some bc).
  { intros k Hk. destruct (nth_error calls k) eqn:E; [eauto|].
    apply nth_error_None in E. lia. }
  split; intros Hall; exists calls; (split; [exact Hc|]);
    unfold base_calls_to_sequence.
  - transitivity (String.concat "" (Str.chars seq)); [|apply concat_chars].
    f_equal.
    apply nth_error_ext. intros k. rewrite nth_error_map.
    destruct (nth_error calls k) as [bc|] eqn:E; simpl.
    + destruct (Hnth k bc E) as (base & Hbase & Hcalled).
      assert (Hk : (k < String.length seq)%nat).
      { rewrite <- Hlen. apply nth_error_Some. congruence. }
      rewrite Hbase, Hcalled.
      now rewrite (proj2 (Z.ltb_ge _ _) (Hall k Hk)).
    + symmetry. apply nth_error_None. apply nth_error_None in E.
      rewrite length_chars. lia.
  - f_equal. apply nth_error_ext. intros k. rewrite nth_error_map.
    destruct (nth_error calls k) as [bc|] eqn:E; simpl.
    + destruct (Hnth k bc E) as (base & Hbase & Hcalled).
      assert (Hk : (k < String.length seq)%nat).
      { rewrite <- Hlen. apply nth_error_Some. congruence. }
      rewrite Hcalled, (proj2 (Z.ltb_lt _ _) (Hall k Hk)).
      symmetry. now apply nth_error_repeat.
    + symmetry. apply nth_error_None. apply nth_error_None in E.
      rewrite repeat_length. lia.
Qed.

(** The theorem on the read of [test_fallback_calling_high_quality]. *)
Lemma fallback_recall_round_trip_witness :
  exists calls,
    call_bases default_config None "ACGT" [35; 35; 35; 35]%Z = Some calls /\
    base_calls_to_sequence calls = "ACGT"%string.
Proof.
  apply (proj1 (fallback_recall_round_trip default_config "ACGT"
                  [35; 35; 35; 35]%Z)).
  intros [|[|[|[|k]]]] Hk; simpl in *; lia.
Defined.

End RecallSpec.

(** ** One read through the [all] command *)

Module PipelineSpec.
Import Num Calling Recall CLI QC Trim PyFacts EndsFacts ApplyFacts RecallFacts.

(** X16.  For a parsed read whose sequence and qualities have the same
    length, and a known trimming method, the loop body of [all] succeeds
    whether or not ambiguous calling is on: the metrics report the length
    of the parsed sequence as raw length, the trimmed sequence and the
    trimmed qualities both have the trimmed length, which lies between 0
    and the raw length, and the read passes exactly when that many bases
    are at least the minimum length.  With any other method name the body
    raises the unknown-method error. *)
Theorem process_read_aligned (phred_error : Q -> Q) (ambiguous_calling : bool)
    (cfg : AmbiguousCallingConfig) (method : string)
    (qthreshold min_length : Z) (file_path : IO.Path) (source : string)
    (file_format : string) (extracted : option Traces) (seq : string)
    (quals : list Z) :
  Str.len seq = Py.len quals ->
  (method = "mott"%string \/ method = "ends"%string ->
   exists m r,
     process_read phred_error ambiguous_calling cfg method qthreshold
       min_length file_path source file_format extracted seq quals
     = inr (m, r) /\
     raw_length m = Str.len seq /\
     Str.len (read_seq r) = trimmed_length m /\
     Py.len (read_quals r) = trimmed_length m /\
     (0 <= trimmed_length m <= raw_length m)%Z /\
     read_quals r = Py.slice quals (trim_start m) (trim_end m) /\
     (passed_minlen m = "yes"%string <-> (min_length <= Py.len (read_quals r))%Z))
  /\
  (method <> "mott"%string -> method <> "ends"%string ->
   process_read phred_error ambiguous_calling cfg method qthreshold
     min_length file_path source file_format extracted seq quals
   = inl (unknown_method method)).
Proof.
  intros Hlen.
  set (recalled := recall_sequence ambiguous_calling cfg file_format extracted
                     seq quals).
  assert (Hrec : Str.len recalled = Py.len quals).
  { rewrite <- Hlen. unfold Str.len, recalled. f_equal.
    unfold recall_sequence.
    destruct (ambiguous_calling && String.eqb file_format "ab1")%bool;
      [|reflexivity].
    destruct (call_bases cfg extracted seq quals) as [calls|] eqn:Hc;
      [|reflexivity].
    exact (recalled_length cfg extracted seq quals calls Hc). }
  split.
  - intros Hm.
    assert (H : exists s e,
               apply_trim recalled quals method qthreshold
               = inr (Py.str_slice recalled s e, Py.slice quals s e, s, e)
               /\ (0 <= s <= e)%Z /\ (e <= Py.len quals)%Z).
    { destruct Hm as [-> | ->].
      - rewrite apply_trim_mott. pose proof (trim_mott_bounds quals qthreshold).
        eauto.
      - rewrite apply_trim_ends. pose proof (trim_ends_bounds quals qthreshold).
        eauto. }
    destruct H as (s & e & Happ & Hs & He).
    unfold process_read. fold recalled. rewrite Happ.
    eexists _, _. split; [reflexivity|].
    cbn [raw_length trimmed_length trim_start trim_end passed_minlen
         read_seq read_quals compute_qc_metrics].
    assert (Hq : Py.len (Py.slice quals s e) = (e - s)%Z)
      by (apply len_slice; lia).
    assert (Hsq : Str.len (Py.str_slice recalled s e) = (e - s)%Z).
    { unfold Py.str_slice.
      rewrite len_string_of_list, len_slice_clipped, len_list_of_string by lia.
      lia. }
    rewrite Hq, Hsq.
    split; [now rewrite Hrec|]. split; [reflexivity|]. split; [reflexivity|].
    split; [lia|]. split; [reflexivity|].
    destruct (Z.leb_spec min_length (e - s)); split; intros;
      try lia; try reflexivity; discriminate.
  - intros Hm He. unfold process_read, apply_trim.
    destruct (String.eqb_spec method "mott"); [contradiction|].
    destruct (String.eqb_spec method "ends"); [contradiction|].
    reflexivity.
Qed.

(** The theorem on the read of [test_apply_mott], without trace data. *)
Lemma process_read_aligned_witness :
  exists m r,
    process_read (fun _ => 0%Q) true default_config "mott" 20 2
      (IO.MkPath "s1.ab1" ".ab1" "s1") "s1.ab1" "ab1" None
      "ACGTACGT" [10; 10; 30; 30; 30; 10; 10; 10]%Z
    = inr (m, r) /\
    raw_length m = Str.len "ACGTACGT" /\
    Str.len (read_seq r) = trimmed_length m /\
    Py.len (read_quals r) = trimmed_length m.
Proof.
  destruct (proj1 (process_read_aligned (fun _ => 0%Q) true default_config
                     "mott" 20 2 (IO.MkPath "s1.ab1" ".ab1" "s1") "s1.ab1"
                     "ab1" None "ACGTACGT" [10; 10; 30; 30; 30; 10; 10; 10]%Z
                     eq_refl) (or_introl eq_refl))
    as (m & r & H1 & H2 & H3 & H4 & _).
  exists m, r. auto.
Defined.

Example run_one_read :
  exists m,
    process_read (fun _ => 0%Q) false default_config "mott" 20 2
      (IO.MkPath "s1.ab1" ".ab1" "s1") "s1.ab1" "ab1" None
      "ACGTACGT" [10; 10; 30; 30; 30; 10; 10; 10]%Z
    = inr (m, MkTrimmedRead "s1/trim:2-5" "GTA" [30; 30; 30]%Z)
    /\ passed_minlen m = "yes"%string /\ trimmed_length m = 3%Z.
Proof. eexists. split; [reflexivity|]. split; reflexivity. Qed.

End PipelineSpec.

(** ** Deduplicating discovered files *)

Module DedupFacts.
Import IO IOInv.

Section Dict.
Context {V : Type}.

Lemma dict_get_In (key : string) (v : V) (d : list (string * V)) :
  dict_get key d = Some v -> In (key, v) d.
Proof.
  induction d as [|[k w] d IH]; simpl; [discriminate|].
  destruct (String.eqb_spec k key) as [->|Hne].
  - intros [= ->]. now left.
  - intros H. right. auto.
Qed.

Lemma dict_get_None (key : string) (d : list (string * V)) :
  dict_get key d = None -> ~ In key (map fst d).
Proof.
  induction d as [|[k w] d IH]; simpl; [tauto|].
  destruct (String.eqb_spec k key) as [->|Hne]; [discriminate|].
  intros H [E|Hin]; [contradiction | now apply IH].
Qed.

(** Reading a dictionary after one assignment. *)
Lemma dict_get_set (key key' : string) (v : V) (d : list (string * V)) :
  dict_get key' (dict_set key v d)
  = if String.eqb key key' then Some v else dict_get key' d.
Proof.
  induction d as [|[k w] d IH]; simpl.
  - reflexivity.
  - destruct (String.eqb_spec k key) as [->|Hne]; simpl.
    + now destruct (String.eqb_spec key key').
    + destruct (String.eqb_spec k key') as [->|Hne'].
      * destruct (String.eqb_spec key key'); [congruence | reflexivity].
      * exact IH.
Qed.

Lemma dict_set_In (key k' : string) (v v' : V) (d : list (string * V)) :
  In (k', v') (dict_set key v d) -> (k' = key /\ v' = v) \/ In (k', v') d.
Proof.
  induction d as [|[k w] d IH]; simpl.
  - intros [[= <- <-]|[]]. now left.
  - destruct (String.eqb_spec k key) as [->|Hne]; simpl.
    + intros [[= <- <-]|H]; [now left | now right; right].
    + intros [E|H]; [now right; left|].
      destruct (IH H) as [?|?]; [now left | now right; right].
Qed.

(** The keys after one assignment: unchanged for a present key, one more
    at the end for a new one. *)
Lemma dict_set_keys (key : string) (v : V) (d : list (string * V)) :
  map fst (dict_set key v d)
  = if in_dec string_dec key (map fst d) then map fst d
    else map fst d ++ [key].
Proof.
  induction d as [|[k w] d IH]; simpl; [reflexivity|].
  destruct (String.eqb_spec k key) as [->|Hne]; simpl.
  - destruct (string_dec key key); [reflexivity | contradiction].
  - rewrite IH. destruct (string_dec k key); [contradiction|].
    now destruct (in_dec string_dec key (map fst d)).
Qed.

Lemma dict_set_nodup (key : string) (v : V) (d : list (string * V)) :
  NoDup (map fst d) -> NoDup (map fst (dict_set key v d)).
Proof.
  intros H. rewrite dict_set_keys.
  destruct (in_dec string_dec key (map fst d)) as [|Hnot]; [exact H|].
  apply NoDup_app; [exact H | repeat constructor; simpl; tauto |].
  intros x Hx [<-|[]]. contradiction.
Qed.

End Dict.

Lemma dedup_inv_init : dedup_inv [] [].
Proof.
  constructor; simpl; try tauto; try constructor.
Qed.

End DedupFacts.

Module DedupSpec.
Import IO IOInv DedupFacts.

(** One file more keeps the invariant. *)
Lemma dedup_inv_step (seen : list (string * (Path * string)))
    (done : list (Path * string)) (file : Path * string) :
  dedup_inv seen done -> dedup_inv (dedup_step seen file) (done ++ [file]).
Proof.
  intros [Hnd Hsound Hcomp Hpref].
  destruct file as [file_path fmt].
  set (file := (file_path, fmt)).
  set (sid := get_sample_id file_path).
  assert (Hsid : sample_of file = sid) by reflexivity.
  assert (Hold : forall f, In f done -> In f (done ++ [file]))
    by (intros; apply in_or_app; now left).
  assert (Hnew : In file (done ++ [file]))
    by (apply in_or_app; right; now left).
  (* what assigning the new file does *)
  assert (Hassign :
            (forall f, In f done -> snd f = "ab1"%string ->
                       sample_of f = sid -> fmt = "ab1"%string) ->
            dedup_inv (dict_set sid file seen) (done ++ [file])).
  { intros Hfmt. constructor.
    - now apply dict_set_nodup.
    - intros k v Hin. apply dict_set_In in Hin.
      destruct Hin as [[-> ->]|Hin]; [split; [reflexivity | exact Hnew]|].
      destruct (Hsound k v Hin) as [Hk Hv]. split; [exact Hk | now apply Hold].
    - intros f Hf. rewrite dict_get_set.
      destruct (String.eqb_spec sid (sample_of f)) as [E|E]; [eauto|].
      apply in_app_or in Hf. destruct Hf as [Hf|[<-|[]]]; [now apply Hcomp|].
      exfalso. apply E. reflexivity.
    - intros Hvalid f v Hf Hab1. rewrite dict_get_set.
      destruct (String.eqb_spec sid (sample_of f)) as [E|E].
      + intros [= <-]. simpl.
        apply in_app_or in Hf. destruct Hf as [Hf|[<-|[]]]; [|exact Hab1].
        exact (Hfmt f Hf Hab1 (eq_sym E)).
      + intros Hget. apply in_app_or in Hf.
        destruct Hf as [Hf|[<-|[]]]; [|now rewrite Hsid in E].
        apply (Hpref (fun g Hg => Hvalid g (Hold g Hg)) f v Hf Hab1 Hget). }
  unfold dedup_step. cbv delta [file] iota beta. fold file. fold sid.
  destruct (dict_get sid seen) as [[existing_path existing_fmt]|] eqn:Hget.
  - destruct (String.eqb_spec fmt "ab1") as [Hfmt|Hfmt]; simpl andb.
    + destruct (String.eqb_spec existing_fmt "phd.1") as [Hex|Hex].
      * apply Hassign. intros; assumption.
      * (* the entry stays *)
        constructor.
        -- exact Hnd.
        -- intros k v Hin. destruct (Hsound k v Hin). auto.
        -- intros f Hf. apply in_app_or in Hf.
           destruct Hf as [Hf|[<-|[]]]; [now apply Hcomp|].
           rewrite Hsid. eauto.
        -- intros Hvalid f v Hf Hab1 Hgetf. apply in_app_or in Hf.
           destruct Hf as [Hf|[<-|[]]].
           ++ apply (Hpref (fun g Hg => Hvalid g (Hold g Hg)) f v Hf Hab1 Hgetf).
           ++ rewrite Hsid, Hget in Hgetf. injection Hgetf as <-. simpl.
              apply dict_get_In in Hget.
              destruct (Hsound _ _ Hget) as [_ Hin].
              destruct (Hvalid _ (Hold _ Hin)) as [?|?]; [assumption|].
              simpl in *. contradiction.
    + (* a file that is not AB1 never replaces an entry *)
      constructor.
      * exact Hnd.
      * intros k v Hin. destruct (Hsound k v Hin). auto.
      * intros f Hf. apply in_app_or in Hf.
        destruct Hf as [Hf|[<-|[]]]; [now apply Hcomp|].
        rewrite Hsid. eauto.
      * intros Hvalid f v Hf Hab1 Hgetf. apply in_app_or in Hf.
        destruct Hf as [Hf|[<-|[]]].
        -- apply (Hpref (fun g Hg => Hvalid g (Hold g Hg)) f v Hf Hab1 Hgetf).
        -- simpl in Hab1. contradiction.
  - (* a new sample id *)
    apply Hassign. intros f Hf _ Hsame. exfalso.
    destruct (Hcomp f Hf) as [v Hv]. rewrite Hsame, Hget in Hv. discriminate.
Qed.

Lemma dedup_inv_fold (files : list (Path * string)) :
  forall seen done,
    dedup_inv seen done ->
    dedup_inv (fold_left dedup_step files seen) (done ++ files).
Proof.
  induction files as [|file files IH]; intros seen done Hinv; simpl.
  - now rewrite app_nil_r.
  - replace (done ++ file :: files) with ((done ++ [file]) ++ files)
      by (now rewrite <- app_assoc).
    apply IH. now apply dedup_inv_step.
Qed.

(** With distinct keys, an item of the dictionary is what a lookup of its
    key returns. *)
Lemma dict_In_get {V : Type} (key : string) (v : V) (d : list (string * V)) :
  NoDup (map fst d) -> In (key, v) d -> dict_get key d = Some v.
Proof.
  induction d as [|[k w] d IH]; simpl; [tauto|].
  intros Hnd [[= -> ->]|Hin].
  - now rewrite String.eqb_refl.
  - inversion Hnd as [|? ? Hnot Hnd']; subst.
    destruct (String.eqb_spec k key) as [->|Hne]; [|now apply IH].
    exfalso. apply Hnot. now apply (in_map fst) in Hin.
Qed.

(** X17.  The deduplication of [discover_files] keeps exactly one file per
    sample id: the files it returns are discovered files with pairwise
    different sample ids, and every discovered file has its sample id
    represented.  When all formats are [ab1] or [phd.1], the file kept for
    a sample is an AB1 file as soon as one of its files is. *)
Theorem deduplicate_one_per_sample (files : list (Path * string)) :
  NoDup (map sample_of (deduplicate files)) /\
  (forall g, In g (deduplicate files) -> In g files) /\
  (forall f, In f files ->
             exists g, In g (deduplicate files) /\ sample_of g = sample_of f) /\
  ((forall f, In f files -> snd f = "ab1"%string \/ snd f = "phd.1"%string) ->
   forall f g, In f files -> snd f = "ab1"%string ->
               In g (deduplicate files) -> sample_of g = sample_of f ->
               snd g = "ab1"%string).
Proof.
  pose proof (dedup_inv_fold files [] [] dedup_inv_init) as Hinv.
  simpl in Hinv. unfold deduplicate.
  set (d := fold_left dedup_step files []) in *.
  destruct Hinv as [Hnd Hsound Hcomp Hpref].
  assert (Hkeys : map sample_of (map snd d) = map fst d).
  { rewrite map_map. apply map_ext_in. intros [k v] Hin.
    destruct (Hsound k v Hin) as [-> _]. reflexivity. }
  assert (Hitem : forall g, In g (map snd d) -> In (sample_of g, g) d).
  { intros g Hg. apply in_map_iff in Hg. destruct Hg as ([k v] & <- & Hin).
    destruct (Hsound k v Hin) as [-> _]. exact Hin. }
  split; [now rewrite Hkeys|]. split; [|split].
  - intros g Hg. exact (proj2 (Hsound _ _ (Hitem g Hg))).
  - intros f Hf. destruct (Hcomp f Hf) as [v Hv].
    apply dict_get_In in Hv. exists v. split.
    + now apply (in_map snd) in Hv.
    + destruct (Hsound _ _ Hv) as [E _]. now symmetry.
  - intros Hvalid f g Hf Hab1 Hg Hsame.
    apply (Hpref Hvalid f g Hf Hab1).
    rewrite <- Hsame. apply dict_In_get; [exact Hnd | now apply Hitem].
Qed.

(** The theorem on a sample present as PHD and as AB1 file. *)
Lemma deduplicate_one_per_sample_witness :
  deduplicate [ (MkPath "s1.phd.1" ".1" "s1.phd", "phd.1"%string);
                (MkPath "s2.ab1" ".ab1" "s2", "ab1"%string);
                (MkPath "s1.ab1" ".ab1" "s1", "ab1"%string) ]
  = [ (MkPath "s1.ab1" ".ab1" "s1", "ab1"%string);
      (MkPath "s2.ab1" ".ab1" "s2", "ab1"%string) ]
  /\ forall g,
       In g (deduplicate
               [ (MkPath "s1.phd.1" ".1" "s1.phd", "phd.1"%string);
                 (MkPath "s2.ab1" ".ab1" "s2", "ab1"%string);
                 (MkPath "s1.ab1" ".ab1" "s1", "ab1"%string) ]) ->
       sample_of g = "s1"%string -> snd g = "ab1"%string.
Proof.
  split; [reflexivity|].
  intros g Hg Hs.
  refine (proj2 (proj2 (proj2 (deduplicate_one_per_sample
            [ (MkPath "s1.phd.1" ".1" "s1.phd", "phd.1"%string);
              (MkPath "s2.ab1" ".ab1" "s2", "ab1"%string);
              (MkPath "s1.ab1" ".ab1" "s1", "ab1"%string) ])))
            _ (MkPath "s1.ab1" ".ab1" "s1", "ab1"%string) g _ _ Hg _).
  - intros f [<-|[<-|[<-|[]]]]; simpl; auto.
  - simpl; auto.
  - reflexivity.
  - rewrite Hs. reflexivity.
Defined.

End DedupSpec.

(** ** The quality line of a FASTQ record *)

Module FastqSpec.
Import Writers Trim PyFacts EndsFacts ApplyFacts.

Lemma chr_ok (n : Z) : 0 <= n <= 1114111 -> chr n = inr n.
Proof.
  intros H. unfold chr.
  now rewrite (proj2 (Z.leb_le 0 n)), (proj2 (Z.leb_le n 1114111)) by lia.
Qed.

Lemma chr_fails (n : Z) :
  n < 0 \/ 1114111 < n ->
  chr n = inl (Py.ValueError "chr() arg not in range(0x110000)").
Proof.
  intros H. unfold chr.
  destruct (Z.leb_spec 0 n), (Z.leb_spec n 1114111); try reflexivity; lia.
Qed.

(** When it succeeds, the quality string has the code point [q + 33] at
    the place of each quality [q]. *)
Lemma qual_string_map (quals cs : list Z) :
  qual_string quals = inr cs -> cs = map (fun q => q + 33) quals.
Proof.
  revert cs. induction quals as [|q quals IH]; intros cs; simpl.
  - now intros [= <-].
  - unfold chr.
    destruct ((0 <=? q + 33) && (q + 33 <=? 1114111))%bool; [|discriminate].
    destruct (qual_string quals) as [e|cs']; [discriminate|].
    intros [= <-]. now rewrite (IH cs' eq_refl).
Qed.

Lemma qual_string_total (quals : list Z) :
  Forall (fun q => -33 <= q <= 1114078) quals ->
  qual_string quals = inr (map (fun q => q + 33) quals).
Proof.
  induction 1 as [|q quals Hq _ IH]; simpl; [reflexivity|].
  now rewrite chr_ok, IH by lia.
Qed.

(** X18.  The quality line built for a FASTQ record encodes each quality
    [q] as the character with code [q + 33]: it can be built exactly when
    every [q + 33] is a code point, it then has one character per quality
    and subtracting 33 from its codes gives the qualities back, and for
    qualities between 0 and 93 all characters are printable ASCII (codes 33
    to 126).  For a read with as many bases as qualities, the quality line
    of the trimmed read is as long as its sequence line. *)
Theorem qual_string_round_trip (quals : list Z) :
  ((exists cs, qual_string quals = inr cs) <->
   Forall (fun q => -33 <= q <= 1114078) quals) /\
  (forall cs, qual_string quals = inr cs ->
              Py.len cs = Py.len quals /\
              map (fun c => c - 33) cs = quals /\
              (Forall (fun q => 0 <= q <= 93) quals ->
               Forall (fun c => 33 <= c <= 126) cs)) /\
  (forall seq method threshold tseq tquals s e cs,
      Str.len seq = Py.len quals ->
      apply_trim seq quals method threshold = inr (tseq, tquals, s, e) ->
      qual_string tquals = inr cs ->
      Py.len cs = Str.len tseq).
Proof.
  split; [|split].
  - split; [|intros H; rewrite qual_string_total by exact H; eauto].
    intros [cs Hcs]. revert cs Hcs.
    induction quals as [|q quals IH]; intros cs; simpl; [constructor|].
    destruct (Z.le_gt_cases 0 (q + 33)) as [H0|H0];
      [destruct (Z.le_gt_cases (q + 33) 1114111) as [H1|H1]|].
    + rewrite chr_ok by lia.
      destruct (qual_string quals) as [e|cs'] eqn:E; [discriminate|].
      intros _. constructor; [lia | now apply (IH cs')].
    + rewrite chr_fails by lia. discriminate.
    + rewrite chr_fails by lia. discriminate.
  - intros cs Hcs. apply qual_string_map in Hcs. subst cs.
    split; [apply len_map|]. split.
    + rewrite map_map. rewrite <- (map_id quals) at 2.
      apply map_ext. intros q. lia.
    + intros Hall. apply Forall_map.
      eapply Forall_impl; [|exact Hall]. simpl. intros q Hq. lia.
  - intros seq method threshold tseq tquals s e cs Hlen Happ Hcs.
    apply qual_string_map in Hcs. subst cs. rewrite len_map.
    assert (Hm : method = "mott"%string \/ method = "ends"%string).
    { unfold apply_trim in Happ.
      destruct (String.eqb_spec method "mott"); [now left|].
      destruct (String.eqb_spec method "ends"); [now right|discriminate]. }
    assert (Hb : 0 <= s <= e /\ e <= Py.len quals /\
                 tquals = Py.slice quals s e /\ tseq = Py.str_slice seq s e).
    { destruct Hm as [-> | ->].
      - rewrite apply_trim_mott in Happ.
        pose proof (trim_mott_bounds quals threshold) as Hb.
        destruct (trim_mott quals threshold) as [s0 e0]. simpl in *.
        injection Happ as <- <- <- <-. repeat split; auto; lia.
      - rewrite apply_trim_ends in Happ.
        pose proof (trim_ends_bounds quals threshold) as Hb.
        destruct (trim_ends quals threshold) as [s0 e0]. simpl in *.
        injection Happ as <- <- <- <-. repeat split; auto; lia. }
    destruct Hb as (Hs & He & -> & ->).
    rewrite len_slice by lia. unfold Py.str_slice.
    rewrite len_string_of_list, len_slice_clipped, len_list_of_string by lia.
    lia.
Qed.

(** The theorem on the trimmed read of [test_apply_mott]: qualities of 30
    are written as question marks. *)
Lemma qual_string_round_trip_witness :
  qual_string [30; 30; 30] = inr [63; 63; 63] /\
  Py.len [63; 63; 63] = Str.len "GTA".
Proof.
  split; [reflexivity|].
  apply (proj2 (proj2 (qual_string_round_trip [10; 10; 30; 30; 30; 10; 10; 10]))
           "ACGTACGT"%string "mott"%string 20 "GTA"%string [30; 30; 30] 2 5);
    reflexivity.
Defined.

End FastqSpec.

(** ** Sample ids *)

Module SampleIdSpec.
Import IO PyFacts ApplyFacts RecallFacts.

Lemma lower_append (s t : string) : lower (s ++ t) = (lower s ++ lower t)%string.
Proof. induction s as [|c s IH]; simpl; [reflexivity | now rewrite IH]. Qed.

Lemma length_lower (s : string) : String.length (lower s) = String.length s.
Proof. induction s as [|c s IH]; simpl; [reflexivity | now rewrite IH]. Qed.

Lemma substring_all (s : string) : String.substring 0 (String.length s) s = s.
Proof. induction s as [|c s IH]; simpl; [reflexivity | now rewrite IH]. Qed.

Lemma substring_append (s t : string) :
  String.substring (String.length s) (String.length t) (s ++ t) = t.
Proof. induction s as [|c s IH]; simpl; [apply substring_all | exact IH]. Qed.

(** A string ends with what was appended to it. *)
Lemma endswith_append (s t : string) : endswith (s ++ t) t = true.
Proof.
  unfold endswith. rewrite length_append.
  replace (String.length s + String.length t - String.length t)%nat
    with (String.length s) by lia.
  rewrite substring_append, String.eqb_refl.
  rewrite (proj2 (Nat.leb_le _ _)) by lia. reflexivity.
Qed.

Lemma list_ascii_append (s t : string) :
  list_ascii_of_string (s ++ t)
  = list_ascii_of_string s ++ list_ascii_of_string t.
Proof. induction s as [|c s IH]; simpl; [reflexivity | now rewrite IH]. Qed.

(** [s[:-k]] drops the last [k] characters, for a positive [k]. *)
Lemma str_slice_drop_last (s t : string) :
  (0 < String.length t)%nat ->
  Py.str_slice (s ++ t) 0 (- Z.of_nat (String.length t)) = s.
Proof.
  intros Ht.
  unfold Py.str_slice, Py.slice, Py.adjust.
  rewrite len_list_of_string. unfold Str.len. rewrite length_append.
  destruct (Z.ltb_spec 0 0); [lia|].
  destruct (Z.ltb_spec (- Z.of_nat (String.length t)) 0); [|lia].
  rewrite Z.min_l by lia. simpl skipn.
  replace (Z.to_nat
             (Z.max 0 (- Z.of_nat (String.length t)
                       + Z.of_nat (String.length s + String.length t)) - 0))
    with (String.length s) by lia.
  rewrite list_ascii_append, firstn_app.
  assert (Hl : List.length (list_ascii_of_string s) = String.length s).
  { pose proof (len_list_of_string s) as Hl.
    unfold Py.len, Str.len in Hl. lia. }
  rewrite <- Hl. rewrite firstn_all, Nat.sub_diag. simpl.
  rewrite app_nil_r. apply string_of_list_ascii_of_string.
Qed.

(** X19.  For a file whose name is a base name followed by the extension
    [.phd.1], in any mix of upper and lower case, the sample id is the base
    name, whatever it contains, and the format detected is [phd.1] unless
    the path's suffix reads [.ab1]. *)
Theorem phd_sample_id (base ext suffix_ stem_ : string) :
  lower ext = ".phd.1"%string ->
  get_sample_id (MkPath (base ++ ext) suffix_ stem_) = base /\
  (lower suffix_ <> ".ab1"%string ->
   detect_format (MkPath (base ++ ext) suffix_ stem_) = Some "phd.1"%string).
Proof.
  intros Hext.
  assert (Hlen : String.length ext = 6%nat).
  { rewrite <- length_lower, Hext. reflexivity. }
  assert (Hends : endswith (lower (base ++ ext)) ".phd.1" = true).
  { rewrite lower_append, Hext. apply endswith_append. }
  split.
  - unfold get_sample_id. cbn [name]. rewrite Hends.
    change (-6)%Z with (- Z.of_nat 6)%Z. rewrite <- Hlen.
    apply str_slice_drop_last. lia.
  - intros Hsuf. unfold detect_format. cbn [name suffix].
    destruct (String.eqb_spec (lower suffix_) ".ab1"); [contradiction|].
    now rewrite Hends.
Qed.

(** The theorem on a PHD file with an upper-case extension. *)
Lemma phd_sample_id_witness :
  get_sample_id (MkPath "run7.s1.PHD.1" ".1" "run7.s1.PHD") = "run7.s1"%string.
Proof.
  exact (proj1 (phd_sample_id "run7.s1" ".PHD.1" ".1" "run7.s1.PHD" eq_refl)).
Defined.

End SampleIdSpec.

(** ** The noise estimate *)

Module NoiseFacts.
Import Num Calling Baseline RuleFacts PyFacts IntensityFacts PositionFacts.

Lemma insert_asc_Forall (P : Q -> Prop) (x : Q) (l : list Q) :
  P x -> Forall P l -> Forall P (insert_asc x l).
Proof.
  intros Hx H. induction H as [|y l Hy Hl IH]; simpl.
  - now constructor.
  - destruct (Qle_bool x y); repeat constructor; auto.
Qed.

Lemma sort_asc_Forall (P : Q -> Prop) (l : list Q) :
  Forall P l -> Forall P (sort_asc l).
Proof.
  induction 1 as [|x l Hx _ IH]; simpl; [constructor|].
  now apply insert_asc_Forall.
Qed.

Lemma nth_zero (l : list Q) (k : nat) :
  Forall (fun x => x == 0)%Q l -> (nth k l 0 == 0)%Q.
Proof.
  intros H. revert k. induction H as [|x l Hx _ IH]; intros [|k]; simpl;
    auto; reflexivity.
Qed.

(** The median of zeros is zero. *)
Lemma median_zero (l : list Q) :
  Forall (fun x => x == 0)%Q l -> (median l == 0)%Q.
Proof.
  intros H. apply sort_asc_Forall in H. unfold median.
  pose proof (nth_zero _ (Nat.div (List.length (sort_asc l)) 2) H) as Hhi.
  pose proof (nth_zero _ (Nat.div (List.length (sort_asc l)) 2 - 1) H) as Hlo.
  destruct (Nat.even (List.length (sort_asc l))); [|exact Hhi].
  rewrite Hhi, Hlo. reflexivity.
Qed.

(** The elements of a slice sit at the indices between its adjusted
    bounds. *)
Lemma In_slice {A : Type} (l : list A) (s e : Z) (x : A) :
  In x (Py.slice l s e) ->
  exists i, nth_error l i = Some x /\
            (Py.adjust (Py.len l) s <= Z.of_nat i < Py.adjust (Py.len l) e)%Z.
Proof.
  unfold Py.slice. intros Hin.
  apply In_nth_error in Hin. destruct Hin as [k Hk].
  rewrite nth_error_firstn in Hk.
  destruct (Nat.ltb_spec k
              (Z.to_nat (Py.adjust (Py.len l) e - Py.adjust (Py.len l) s)));
    [|discriminate].
  rewrite nth_error_skipn in Hk.
  exists (Z.to_nat (Py.adjust (Py.len l) s) + k)%nat. split; [exact Hk|].
  assert (0 <= Py.adjust (Py.len l) s)%Z.
  { unfold Py.adjust. pose proof (len_nonneg l).
    destruct (Z.ltb_spec s 0); lia. }
  lia.
Qed.

(** With flat flanks every noise sample the SNR estimate collects is
    zero. *)
Lemma flank_samples_zero (trace : list Q) (trace_pos : Z) :
  flat_flanks trace trace_pos ->
  Forall (fun x => x == 0)%Q
    ((if (Z.max 0 (trace_pos - 20) <? Z.max 0 (trace_pos - 5))%Z
      then Py.slice trace (Z.max 0 (trace_pos - 20)) (Z.max 0 (trace_pos - 5))
      else [])
     ++
     (if (Z.min (Py.len trace) (trace_pos + 5)
          <? Z.min (Py.len trace) (trace_pos + 20))%Z
      then Py.slice trace (Z.min (Py.len trace) (trace_pos + 5))
                          (Z.min (Py.len trace) (trace_pos + 20))
      else [])).
Proof.
  intros Hflat. pose proof (len_nonneg trace) as Hn.
  apply Forall_app. split.
  - destruct (_ <? _)%Z; [|constructor].
    apply Forall_forall. intros x Hx.
    apply In_slice in Hx. destruct Hx as (i & Hi & Hlo & Hhi).
    apply (Hflat i x Hi). left.
    unfold Py.adjust in Hhi.
    destruct (Z.ltb_spec (Z.max 0 (trace_pos - 5)) 0); lia.
  - destruct (_ <? _)%Z; [|constructor].
    apply Forall_forall. intros x Hx.
    apply In_slice in Hx. destruct Hx as (i & Hi & Hlo & Hhi).
    apply (Hflat i x Hi). right.
    assert (Hlt : (Z.of_nat i < Py.len trace)%Z).
    { unfold Py.len. apply Nat2Z.inj_lt, nth_error_Some. congruence. }
    unfold Py.adjust in Hlo.
    destruct (Z.ltb_spec (Z.min (Py.len trace) (trace_pos + 5)) 0); lia.
Qed.

(** With flat flanks in all four channels the SNR is reported as 0,
    however strong the signal. *)
Lemma snr_flat (traces : Traces) (position_ trace_pos : Z) (signal : Q) :
  (position_ < Py.len (peak_locations traces))%Z ->
  Py.index (peak_locations traces) position_ = Some trace_pos ->
  Forall (fun ch => flat_flanks (snd ch) trace_pos) (channels traces) ->
  _calculate_snr traces position_ signal = Some 0%Q.
Proof.
  intros Hpos Hidx Hflat. unfold _calculate_snr.
  assert (Hcond : ((Py.len (peak_locations traces) =? 0)%Z
                   || (Py.len (peak_locations traces) <=? position_)%Z) = false).
  { apply orb_false_iff. split; [|apply Z.leb_gt; lia].
    apply Z.eqb_neq. intros E. unfold Py.index in Hidx. rewrite E in Hidx.
    destruct (Z.ltb_spec position_ 0) as [Hneg|Hnn].
    - rewrite Z.add_0_r in Hidx.
      now rewrite (proj2 (Z.ltb_lt _ _) Hneg) in Hidx.
    - lia. }
  rewrite Hcond, Hidx.
  match goal with
  | |- match ?samples with _ => _ end = _ =>
      assert (Hzero : Forall (fun x => x == 0)%Q samples)
  end.
  { unfold channels in *. simpl flat_map.
    repeat match goal with
           | H : Forall _ (_ :: _) |- _ => inversion H; clear H; subst
           end.
    simpl snd in *.
    repeat (apply Forall_app; split); try constructor;
      match goal with
      | Hf : flat_flanks ?t _ |- _ =>
          pose proof (flank_samples_zero t trace_pos Hf) as Hz;
          apply Forall_app in Hz; destruct Hz; assumption
      end. }
  destruct (flat_map _ _) as [|x samples]; [reflexivity|].
  apply median_zero in Hzero.
  assert (Hno : Qltb 0 (median (x :: samples)) = false).
  { apply Qltb_ge. rewrite Hzero. apply Qle_refl. }
  now rewrite Hno.
Qed.

End NoiseFacts.

Module NoiseSpec.
Import Num Calling Baseline RuleFacts IntensityFacts RatioFacts NoiseFacts.

(** X20.  A peak on a perfectly flat baseline is not called: when every
    sample five or more places from the peak is zero in all four channels,
    the noise estimate is zero, the SNR is reported as 0 whatever the
    height of the peak, and with a positive [snr_min] the position is
    called [N] with mode [N] and flag [low_quality], whatever its quality. *)
Theorem flat_baseline_is_N (cfg : AmbiguousCallingConfig) (position_ : Z)
    (original_base : string) (quality_ : Z) (traces : Traces) (trace_pos : Z) :
  (position_ < Py.len (peak_locations traces))%Z ->
  Py.index (peak_locations traces) position_ = Some trace_pos ->
  Forall (fun ch => flat_flanks (snd ch) trace_pos) (channels traces) ->
  (0 < snr_min cfg)%Q ->
  exists bc,
    _call_position cfg position_ original_base quality_ traces = Some bc /\
    snr bc = 0%Q /\ called_base bc = "N"%string /\
    call_mode bc = "N"%string /\ flags bc = ["low_quality"%string].
Proof.
  intros Hpos Hidx Hflat Hsnr.
  unfold _call_position.
  destruct (get_intensities_at_position traces position_ (peak_window cfg))
    as [ints|] eqn:Hints.
  2:{ unfold get_intensities_at_position in Hints. rewrite Hidx in Hints.
      destruct (_ || _)%bool; discriminate. }
  pose proof (sorted_desc_length ints) as Hlen.
  rewrite (intensities_length _ _ _ _ Hints) in Hlen.
  destruct (sorted_desc ints) as [|[b1 H1] [|[b2 H2] rest]]; try discriminate.
  rewrite (snr_flat traces position_ trace_pos H1 Hpos Hidx Hflat).
  assert (R1 : rule1 cfg 0 quality_ = true).
  { unfold rule1. apply orb_true_iff. right. now apply Qltb_lt. }
  unfold _apply_calling_criteria. rewrite R1.
  eexists. split; [reflexivity|]. simpl. auto.
Qed.

(** The theorem on a lone peak of height 900 in channel A. *)
Lemma flat_baseline_is_N_witness :
  exists bc,
    _call_position default_config 0 "A" 60
      (MkTraces [0; 0; 0; 0; 0; 0; 0; 0; 900; 0; 0; 0; 0; 0; 0; 0; 0]
                [0; 0; 0; 0; 0; 0; 0; 0; 0; 0; 0; 0; 0; 0; 0; 0; 0]
                [0; 0; 0; 0; 0; 0; 0; 0; 0; 0; 0; 0; 0; 0; 0; 0; 0]
                [0; 0; 0; 0; 0; 0; 0; 0; 0; 0; 0; 0; 0; 0; 0; 0; 0]
                [8%Z])%Q = Some bc /\
    snr bc = 0%Q /\ called_base bc = "N"%string /\
    call_mode bc = "N"%string /\ flags bc = ["low_quality"%string].
Proof.
  apply (flat_baseline_is_N default_config 0 "A" 60 _ 8).
  - vm_compute. reflexivity.
  - reflexivity.
  - unfold channels. simpl.
    repeat constructor; intros i x Hi Hfar; simpl in Hi;
      do 17 (destruct i as [|i]; [injection Hi as <-; try reflexivity;
                                   simpl in Hfar; lia|]);
      destruct i; discriminate.
  - reflexivity.
Defined.

End NoiseSpec.
